(** * mentat: context assembly (code_context.py) and pub/sub (broadcast.py)

    A shallow embedding of [mentat/code_context.py] and
    [mentat/broadcast.py].  Python values are modelled as follows.

    - [int] is [Z]; [str] is [string]; a [float] similarity score is a
      [PyFloat]: a rational (every finite float is one), an infinity or
      NaN; only comparisons are used on them.
    - [pathlib.Path] is its sequence of parts ([list string]); comparison
      of paths is Python's comparison of the part lists.
    - [dict] with insertion order that is iterated ([include_files]) is an
      association list with unique keys; [dict]/[set]/[defaultdict] that
      are only looked up are [gmap]/[gset].
    - a method of [CodeContext] is a computation in a state-and-exception
      monad over the session ([World]): [None] is a raised exception.
    - what the two files import from other modules of the repository
      (mentat.code_feature, mentat.auto_context, mentat.embeddings,
      mentat.include_files, mentat.llm_api, ...) is not modelled: these
      functions are the fields of the record [Collaborators]. *)

From stdpp Require Import base gmap strings list fin_maps.
From Stdlib Require Import Ascii ZArith QArith.QArith_base Sorting.Sorted Sorting.Permutation
  Structures.OrderedTypeEx Lia Bool.

Local Open Scope string_scope.
Local Open Scope list_scope.

(** ** Python's [sorted] *)

(** [sorted(l, key=key, reverse=reverse)]: a stable sort that compares keys
    with [<] only.  On keys that [<] orders totally the result of a stable
    sort is unique, so insertion sort describes it.  With [reverse=True]
    CPython reverses the list, sorts it, and reverses it again, so that
    equal keys keep their original order. *)
Section PySorted.
Context {A K : Type} (ltb : K -> K -> bool) (key : A -> K).

Fixpoint insert_stable (x : A) (l : list A) : list A :=
  match l with
  | [] => [x]
  | y :: r => if ltb (key y) (key x) then y :: insert_stable x r else x :: y :: r
  end.

Definition stable_sort (l : list A) : list A := fold_right insert_stable [] l.

Definition py_sorted (reverse : bool) (l : list A) : list A :=
  if reverse then rev (stable_sort (rev l)) else stable_sort l.

(** [a] does not come after [b]. *)
Definition key_le (a b : A) : Prop := ltb (key b) (key a) = false.

(** No element has a key [<] the key of the element before it.  Such a
    list is one run for CPython's [list.sort], which looks for the run at
    the start of the list before it sorts anything, and is left as it
    is. *)
Fixpoint is_run (l : list A) : bool :=
  match l with
  | [] => true
  | x :: r =>
      match r with
      | [] => true
      | y :: _ => negb (ltb (key y) (key x)) && is_run r
      end
  end.
End PySorted.

(** The exchange of the elements at the positions [i] and [i + 1], where
    there are such. *)
Fixpoint exchange_at {A : Type} (i : nat) (l : list A) : list A :=
  match i, l with
  | O, x :: y :: r => y :: x :: r
  | S i', x :: r => x :: exchange_at i' r
  | _, _ => l
  end.

(** A rearrangement given as exchanges of neighbours, one after the
    other. *)
Definition exchange_all {A : Type} (positions : list nat) (l : list A) : list A :=
  fold_left (fun l i => exchange_at i l) positions l.

(** ** Orders used as sort keys *)

(** A strict total order given by a boolean [<]. *)
Class StrictTotal {K : Type} (ltb : K -> K -> bool) : Prop := {
  ltb_irrefl : forall a, ltb a a = false;
  ltb_trans : forall a b c, ltb a b = true -> ltb b c = true -> ltb a c = true;
  ltb_total : forall a b, ltb a b = false -> ltb b a = false -> a = b
}.

(** A [pathlib.Path] is the list of its parts; an absolute POSIX path has
    the part ["/"] first. *)
Abbreviation Path := (list string).

(** [list.__lt__], which is what [PurePath.__lt__] applies to the parts:
    the first pair of parts that are not equal decides, and a proper
    prefix is smaller. *)
Fixpoint parts_ltb (a b : Path) : bool :=
  match a, b with
  | [], [] => false
  | [], _ :: _ => true
  | _ :: _, [] => false
  | x :: a', y :: b' => if String.eqb x y then parts_ltb a' b' else String.ltb x y
  end.

(** [PurePath.is_absolute] for POSIX paths. *)
Definition is_absolute (p : Path) : bool :=
  match p with
  | s :: _ => String.eqb s "/"
  | [] => false
  end.

(** [PurePath.__truediv__]: joining an absolute path discards the left
    operand. *)
Definition path_join (a b : Path) : Path :=
  if is_absolute b then b else a ++ b.

(** [PurePath.relative_to]: the parts after [root]; [None] is the
    [ValueError] raised when [root] is not a prefix of the path. *)
Fixpoint relative_to (p root : Path) {struct root} : option Path :=
  match root with
  | [] => Some p
  | r :: root' =>
      match p with
      | x :: p' => if String.eqb r x then relative_to p' root' else None
      | [] => None
      end
  end.

(** [os.path.relpath(path, start)] on normalised absolute paths: one [..]
    for each part of [start] after the common prefix, then the rest of
    [path]; [.] when nothing is left. *)
Fixpoint relpath_parts (path start : Path) : Path :=
  match path, start with
  | x :: path', y :: start' =>
      if String.eqb x y then relpath_parts path' start'
      else repeat ".." (length start) ++ path
  | _, _ => repeat ".." (length start) ++ path
  end.

Definition relpath (path start : Path) : string :=
  match relpath_parts path start with
  | [] => "."
  | parts => String.concat "/" parts
  end.

(** [sorted] with a key function that may raise: CPython computes every
    key before it compares any, so an exception of the key function is the
    result ([None]); otherwise the decorated list is sorted on the keys. *)
Section PySortedBy.
Context {A K : Type} (ltb : K -> K -> bool) (key : A -> option K).

Fixpoint decorate (l : list A) : option (list (K * A)) :=
  match l with
  | [] => Some []
  | x :: r =>
      match key x with
      | None => None
      | Some k =>
          match decorate r with
          | None => None
          | Some d => Some ((k, x) :: d)
          end
      end
  end.

Definition py_sorted_by (l : list A) : option (list A) :=
  match decorate l with
  | None => None
  | Some d => Some (List.map snd (stable_sort ltb fst d))
  end.

End PySortedBy.

(** ** Data model *)

(** [CodeMessageLevel] (mentat.code_feature). *)
Inductive CodeMessageLevel := CODE | INTERVAL | CMAP_FULL | CMAP | FILE_NAME.

#[global] Instance CodeMessageLevel_eq_dec : EqDecision CodeMessageLevel.
Proof. solve_decision. Defined.

(** Modelled from the spec: the interval class of mentat.code_feature,
    which code_context.py only imports.  An interval is a pair
    [(start_line, end_line)] of line numbers, both ends included; a
    feature without an interval stands for the whole file. *)
Definition Interval : Type := Z * Z.

(** Modelled from the spec: [Interval.intersects] (mentat.code_feature);
    two line ranges overlap when neither ends before the other starts. *)
Definition intersects (a b : Interval) : bool :=
  (fst a <=? snd b)%Z && (fst b <=? snd a)%Z.

(** A whole-file feature overlaps every interval. *)
Definition intersects_opt (a : Interval) (b : option Interval) : bool :=
  match b with
  | None => true
  | Some b => intersects a b
  end.

(** A Python [float] as far as comparisons see it: a finite number, which
    is a rational, an infinity, or NaN. *)
Inductive PyFloat :=
| Finite (value : Q)
| Infinity (negative : bool)
| NaN.

Definition is_nan (x : PyFloat) : bool :=
  match x with
  | NaN => true
  | _ => false
  end.

(** [float.__lt__]: false whenever an operand is NaN. *)
Definition float_ltb (a b : PyFloat) : bool :=
  match a, b with
  | Finite x, Finite y => negb (Qle_bool y x)
  | Finite _, Infinity negative => negb negative
  | Infinity negative, Finite _ => negative
  | Infinity negative, Infinity negative' => negative && negb negative'
  | _, _ => false
  end.

(** [float.__le__] and [float.__eq__]: false whenever an operand is NaN. *)
Definition float_leb (a b : PyFloat) : bool :=
  negb (is_nan a) && negb (is_nan b) && negb (float_ltb b a).

Definition float_eqb (a b : PyFloat) : bool := float_leb a b && float_leb b a.

(** [CodeFeature]: [CodeFeature(ref, level, diff, user_included)], where the
    reference [ref] names a path and optionally an interval of it. *)
Record CodeFeature := mkCodeFeature {
  path : Path;
  interval : option Interval;
  level : CodeMessageLevel;
  diff : option string;
  user_included : bool
}.

#[global] Instance CodeFeature_eq_dec : EqDecision CodeFeature.
Proof. solve_decision. Defined.

(** [DiffContext] as far as [CodeContext] reads it: [target], [name],
    [files] and [get_annotations(path)]. *)
Record DiffContext := mkDiffContext {
  target : string;
  name : string;
  files : list Path;
  get_annotations : Path -> list Interval
}.

(** [dict[Path, V]] in insertion order. *)
Section Dict.
Context {V : Type}.

Fixpoint dict_get (d : list (Path * V)) (k : Path) : option V :=
  match d with
  | [] => None
  | (k', v) :: r => if decide (k = k') then Some v else dict_get r k
  end.

(** [k in d] *)
Definition dict_mem (d : list (Path * V)) (k : Path) : bool :=
  match dict_get d k with Some _ => true | None => false end.

(** [d[k] = v]: an existing key keeps its position. *)
Fixpoint dict_set (d : list (Path * V)) (k : Path) (v : V) : list (Path * V) :=
  match d with
  | [] => [(k, v)]
  | (k', v') :: r =>
      if decide (k = k') then (k, v) :: r else (k', v') :: dict_set r k v
  end.

(** [del d[k]] for a key that is present. *)
Fixpoint dict_del (d : list (Path * V)) (k : Path) : list (Path * V) :=
  match d with
  | [] => []
  | (k', v) :: r => if decide (k = k') then r else (k', v) :: dict_del r k
  end.

Definition dict_keys (d : list (Path * V)) : list Path := List.map fst d.
End Dict.

(** [CodeContext]: the attributes of the class, with the single-slot cache
    [_code_message] / [_code_message_checksum]. *)
Record CodeContext := mkCodeContext {
  include_files : list (Path * list CodeFeature);
  ignore_files : gset Path;
  diff_context : DiffContext;
  code_map : bool;
  features : list CodeFeature;
  ctx_diff : option string;
  pr_diff : option string;
  _code_message : option string;
  _code_message_checksum : option string;
  use_llm : bool
}.

(** The part of [session_context.config] that [CodeContext] reads.
    [set_code_map] writes [no_code_map]. *)
Record Config := mkConfig {
  no_code_map : bool;
  auto_tokens : option Z;
  use_embeddings : bool
}.

(** What is sent to [session_context.stream]. *)
Inductive Notice :=
| Send (text : string) (color : string)
| InvalidPath (p : Path).

(** The mutable session.  [builder_calls] is a ghost counter: it counts the
    entries into [_get_code_message] and is read by no code. *)
Record World := mkWorld {
  ctx : CodeContext;
  config : Config;
  stream : list Notice;
  builder_calls : nat
}.

(** The dictionary [settings] of [_get_code_message_checksum]. *)
Record Settings := mkSettings {
  s_code_map : bool;
  s_auto_tokens : option Z;
  s_use_embeddings : bool;
  s_use_llm : bool;
  s_diff : option string;
  s_pr_diff : option string;
  s_max_tokens : option Z;
  s_include_files : list (Path * list CodeFeature)
}.

(** Everything [CodeContext] calls but does not define: the repository on
    disk, git, the tokenizer, the feature selector, and so on.  A value of
    this record is one state of the outside world; it is fixed during a
    call.  The functions are taken to be pure: what an imported function
    might send to the stream or assign in the session is outside the
    model. *)
Record Collaborators := mkCollaborators {
  (** [session_context.git_root] *)
  git_root : Path;
  (** [mentat.git_handler.get_non_gitignored_files(git_root)], listed in
      iteration order *)
  get_non_gitignored_files : Path -> list Path;
  (** [Path.is_dir], [mentat.include_files.is_file_text_encoded],
      [os.path.getsize] *)
  is_dir : Path -> bool;
  is_file_text_encoded : Path -> bool;
  getsize : Path -> Z;
  (** [mentat.code_feature.split_file_into_intervals(git_root, feature,
      user_features=...)] *)
  split_file_into_intervals : Path -> CodeFeature -> list CodeFeature -> list CodeFeature;
  (** the token count of one feature for a model;
      [mentat.code_feature.count_feature_tokens(features, model)] is taken
      to return these counts, one for each feature in order *)
  feature_count_tokens : CodeFeature -> string -> Z;
  (** [mentat.code_feature.get_code_message_from_features] *)
  get_code_message_from_features : list CodeFeature -> list string;
  (** [mentat.llm_api.count_tokens(text, model)] *)
  count_tokens : string -> string -> Z;
  (** [mentat.code_map.check_ctags_disabled()] *)
  check_ctags_disabled : option string;
  (** [textwrap.dedent] *)
  dedent : string -> string;
  (** [mentat.embeddings.get_feature_similarity_scores(query, features)] *)
  get_feature_similarity_scores : string -> list CodeFeature -> list PyFloat;
  (** how CPython's [list.sort] rearranges a list with these keys when
      [<] does not order them totally (a key is NaN) and the list is not
      one run: the exchanges of neighbours that lead to its result *)
  timsort_exchanges : list PyFloat -> list nat;
  (** [DiffContext.clear_cache()] (mentat.diff_context): the diff context
      as it is read once its cache is cleared *)
  clear_cache : DiffContext -> DiffContext;
  (** [mentat.auto_context.get_feature_selector(use_llm).select(features,
      max_tokens, model, levels, user_prompt, expected_edits)] *)
  select : bool -> list CodeFeature -> Z -> string -> list CodeMessageLevel ->
           string -> option (list string) -> list CodeFeature;
  (** [mentat.include_files.get_include_files(paths, exclude_paths)] and
      [get_ignore_files(ignore_paths)] *)
  get_include_files : list Path -> list Path ->
                      list (Path * list CodeFeature) * list Path;
  get_ignore_files : list Path -> gset Path;
  (** [mentat.utils.sha256] and [code_file_manager.get_file_checksum] *)
  sha256 : string -> string;
  get_file_checksum : Path -> string;
  (** [str(settings)] *)
  str_settings : Settings -> string;
  (** the order in which a [set] built from the given sequence of paths is
      iterated *)
  set_iteration : list Path -> list Path
}.

(** ** The state-and-exception monad of the methods *)

Definition M (A : Type) : Type := World -> option (A * World).

#[global] Instance M_ret : MRet M := fun A (a : A) w => Some (a, w).
#[global] Instance M_bind : MBind M := fun A B (k : A -> M B) (m : M A) w =>
  match m w with
  | Some (a, w') => k a w'
  | None => None
  end.

(** an exception *)
Definition raise {A : Type} : M A := fun _ => None.
Definition get_world : M World := fun w => Some (w, w).
Definition modify_ctx (f : CodeContext -> CodeContext) : M unit :=
  fun w => Some (tt, mkWorld (f (ctx w)) (config w) (stream w) (builder_calls w)).
Definition modify_config (f : Config -> Config) : M unit :=
  fun w => Some (tt, mkWorld (ctx w) (f (config w)) (stream w) (builder_calls w)).
(** [stream.send(...)] *)
Definition stream_send (n : Notice) : M unit :=
  fun w => Some (tt, mkWorld (ctx w) (config w) (stream w ++ [n]) (builder_calls w)).
Definition count_builder_call : M unit :=
  fun w => Some (tt, mkWorld (ctx w) (config w) (stream w) (S (builder_calls w))).
(** a value or the exception it stands for *)
Definition lift_option {A : Type} (o : option A) : M A :=
  fun w => match o with Some a => Some (a, w) | None => None end.

(** Attribute assignments on [self]. *)
Definition set_include_files (v : list (Path * list CodeFeature)) (c : CodeContext) :=
  mkCodeContext v (ignore_files c) (diff_context c) (code_map c) (features c)
    (ctx_diff c) (pr_diff c) (_code_message c) (_code_message_checksum c) (use_llm c).
Definition set_ignore_files (v : gset Path) (c : CodeContext) :=
  mkCodeContext (include_files c) v (diff_context c) (code_map c) (features c)
    (ctx_diff c) (pr_diff c) (_code_message c) (_code_message_checksum c) (use_llm c).
Definition set_diff_context (v : DiffContext) (c : CodeContext) :=
  mkCodeContext (include_files c) (ignore_files c) v (code_map c) (features c)
    (ctx_diff c) (pr_diff c) (_code_message c) (_code_message_checksum c) (use_llm c).
Definition set_code_map_attr (v : bool) (c : CodeContext) :=
  mkCodeContext (include_files c) (ignore_files c) (diff_context c) v (features c)
    (ctx_diff c) (pr_diff c) (_code_message c) (_code_message_checksum c) (use_llm c).
Definition set_features (v : list CodeFeature) (c : CodeContext) :=
  mkCodeContext (include_files c) (ignore_files c) (diff_context c) (code_map c) v
    (ctx_diff c) (pr_diff c) (_code_message c) (_code_message_checksum c) (use_llm c).
Definition set__code_message (v : option string) (c : CodeContext) :=
  mkCodeContext (include_files c) (ignore_files c) (diff_context c) (code_map c)
    (features c) (ctx_diff c) (pr_diff c) v (_code_message_checksum c) (use_llm c).
Definition set__code_message_checksum (v : option string) (c : CodeContext) :=
  mkCodeContext (include_files c) (ignore_files c) (diff_context c) (code_map c)
    (features c) (ctx_diff c) (pr_diff c) (_code_message c) v (use_llm c).
Definition set_no_code_map (v : bool) (c : Config) :=
  mkConfig v (auto_tokens c) (use_embeddings c).

(** ** Strings *)

Definition nl : string := String "010"%char EmptyString.
Definition dquote : string := String "034"%char EmptyString.
(** [sep.join(l)] *)
Definition join (sep : string) (l : list string) : string := String.concat sep l.
(** [sum(l)] *)
Definition sum (l : list Z) : Z := fold_left Z.add l 0%Z.
(** truth value of an [Optional[str]] *)
Definition truthy (o : option string) : bool :=
  match o with
  | Some s => negb (String.eqb s "")
  | None => false
  end.

(** ** code_context.py *)

Section CodeContextMethods.
Context (E : Collaborators).

(** The test of the [continue] in [_get_all_features]. *)
Definition skipped (ignore : gset Path) (max_chars : Z) (abs_path : Path) : bool :=
  is_dir E abs_path
  || negb (is_file_text_encoded E abs_path)
  || bool_decide (abs_path ∈ ignore)
  || (max_chars <? getsize E abs_path)%Z.

(** One iteration of the loop of [_get_all_features]: the features it
    appends for [path]. *)
Definition features_of_path (root : Path)
    (include : list (Path * list CodeFeature)) (ignore : gset Path)
    (dc : DiffContext) (cmap : bool) (lvl : CodeMessageLevel) (max_chars : Z)
    (p : Path) : list CodeFeature :=
  let abs_path := path_join root p in
  if skipped ignore max_chars abs_path then []
  else
    let diff_target :=
      if bool_decide (abs_path ∈ files dc) then Some (target dc) else None in
    let user_included := dict_mem include abs_path in
    if decide (lvl = INTERVAL) then
      let full_feature := mkCodeFeature abs_path None CODE diff_target user_included in
      if negb cmap then [full_feature]
      else split_file_into_intervals E root full_feature
             (default [] (dict_get include abs_path))
    else [mkCodeFeature abs_path None lvl diff_target user_included].

Definition default_max_chars : Z := 100000.

Definition _get_all_features (root : Path)
    (include : list (Path * list CodeFeature)) (ignore : gset Path)
    (dc : DiffContext) (cmap : bool) (lvl : CodeMessageLevel) (max_chars : Z)
    : option (list CodeFeature) :=
  let all_features :=
    flat_map (features_of_path root include ignore dc cmap lvl max_chars)
             (get_non_gitignored_files E root) in
  py_sorted_by parts_ltb (fun f => relative_to (path f) root) all_features.

(** [CodeContext.set_paths] *)
Definition set_paths (paths exclude_paths ignore_paths : list Path) : M unit :=
  w ← get_world;
  let self := ctx w in
  let paths :=
    if (match paths with [] => true | _ => false end)
       && (truthy (ctx_diff self) || truthy (pr_diff self))
       && (match files (diff_context self) with [] => false | _ => true end)
    then files (diff_context self) else paths in
  let '(include, invalid_paths) := get_include_files E paths exclude_paths in
  modify_ctx (set_include_files include);;
  mapM (fun p => stream_send (InvalidPath p)) invalid_paths;;
  modify_ctx (set_ignore_files (get_ignore_files E ignore_paths)).

Definition ctags_disabled_message (disabled_reason : string) : string :=
  dedent E (nl ++ "                    There was an error with your universal ctags installation, disabling CodeMap."
            ++ nl ++ "                    Reason: " ++ disabled_reason
            ++ nl ++ "                ")%string.

(** [CodeContext.set_code_map] *)
Definition set_code_map : M unit :=
  w ← get_world;
  if no_code_map (config w) then modify_ctx (set_code_map_attr false)
  else
    let disabled_reason := check_ctags_disabled E in
    if truthy disabled_reason then
      stream_send (Send (ctags_disabled_message (default "" disabled_reason)) "yellow");;
      modify_config (set_no_code_map true);;
      modify_ctx (set_code_map_attr false)
    else modify_ctx (set_code_map_attr true).

(** The dictionary [settings] that [_get_code_message_checksum] builds in
    the session [w]. *)
Definition checksum_settings (w : World) (max_tokens : option Z) : Settings :=
  let self := ctx w in
  {| s_code_map := code_map self;
     s_auto_tokens := auto_tokens (config w);
     s_use_embeddings := use_embeddings (config w);
     s_use_llm := use_llm self;
     s_diff := ctx_diff self;
     s_pr_diff := pr_diff self;
     s_max_tokens := max_tokens;
     s_include_files := include_files self |}.

(** The value that [_get_code_message_checksum] computes in the session
    [w]. *)
Definition code_message_checksum (w : World) (max_tokens : option Z) : string :=
  let self := ctx w in
  let features_checksum :=
    match features self with
    | [] => ""
    | _ =>
        let feature_files :=
          set_iteration E (List.map (fun f => path_join (git_root E) (path f))
                                    (features self)) in
        let feature_file_checksums := List.map (get_file_checksum E) feature_files in
        sha256 E (join "" feature_file_checksums)
    end in
  let settings := checksum_settings w max_tokens in
  let settings_checksum := sha256 E (str_settings E settings) in
  (features_checksum ++ settings_checksum)%string.

(** [CodeContext._get_code_message_checksum] *)
Definition _get_code_message_checksum (max_tokens : option Z) : M string :=
  w ← get_world;
  mret (code_message_checksum w max_tokens).

(** One iteration of the outer loop of [_get_include_features]. *)
Definition include_features_of (dc : DiffContext)
    (item : Path * list CodeFeature) : list CodeFeature :=
  let '(p, fs) := item in
  let annotations := get_annotations dc p in
  List.map (fun feature =>
         let has_diff :=
           existsb (fun a => intersects_opt a (interval feature)) annotations in
         mkCodeFeature (path feature) (interval feature) (level feature)
           (if has_diff then Some (target dc) else None) true) fs.

(** The list that [_get_include_features] returns for [self]. *)
Definition include_features (self : CodeContext) : list CodeFeature :=
  let include_features :=
    flat_map (include_features_of (diff_context self)) (include_files self) in
  let _feature_relative_path f := relpath (path f) (git_root E) in
  py_sorted String.ltb _feature_relative_path false include_features.

(** [CodeContext._get_include_features] *)
Definition _get_include_features : M (list CodeFeature) :=
  w ← get_world;
  mret (include_features (ctx w)).

(** [sorted(scored, key=lambda x: x[1], reverse=True)].  Where no score
    is NaN, [<] orders the keys totally and [py_sorted] describes the
    result.  With a NaN among the scores the result depends on the
    comparisons that CPython's merge sort happens to make.  It reverses
    the list, sorts, and reverses again: a list whose reverse is one run
    comes back as it is.  For any other list the rearrangement is taken
    from [timsort_exchanges]; whatever the comparisons say, [list.sort]
    only rearranges. *)
Definition sorted_by_score (scored : list (CodeFeature * PyFloat))
    : list (CodeFeature * PyFloat) :=
  if forallb (fun x => negb (is_nan (snd x))) scored then
    py_sorted float_ltb snd true scored
  else if is_run float_ltb snd (rev scored) then scored
  else exchange_all (timsort_exchanges E (List.map snd scored)) scored.

(** [l[:n]] *)
Definition slice_to {A : Type} (l : list A) (n : Z) : list A :=
  if (n <? 0)%Z then firstn (Z.to_nat (Z.of_nat (length l) + n)) l
  else firstn (Z.to_nat n) l.

(** [CodeContext.search] *)
Definition search (query : string) (max_results : option Z)
    (lvl : CodeMessageLevel) : M (list (CodeFeature * PyFloat)) :=
  w ← get_world;
  let self := ctx w in
  if negb (use_embeddings (config w)) then
    stream_send
      (Send "Embeddings are disabled. Enable with `/config use_embeddings true`"
            "light_red");;
    mret []
  else
    all_features ← lift_option
      (_get_all_features (git_root E) (include_files self) (ignore_files self)
         (diff_context self) (code_map self) lvl default_max_chars);
    let sim_scores := get_feature_similarity_scores E query all_features in
    let all_features_scored := combine all_features sim_scores in
    let all_features_sorted := sorted_by_score all_features_scored in
    match max_results with
    | None => mret all_features_sorted
    | Some n => mret (slice_to all_features_sorted n)
    end.

(** [sorted(features, key=lambda f: f.path.relative_to(git_root))] *)
Definition sorted_by_relative_path (fs : list CodeFeature) : option (list CodeFeature) :=
  py_sorted_by parts_ltb (fun f => relative_to (path f) (git_root E)) fs.

(** The lines that [_get_code_message] starts the message with. *)
Definition code_message_header (dc : DiffContext) : list string :=
  (match files dc with
   | [] => []
   | _ => ["Diff References:";
           (" " ++ dquote ++ "-" ++ dquote ++ " = " ++ name dc)%string;
           (" " ++ dquote ++ "+" ++ dquote ++ " = Active Changes")%string;
           ""]
   end) ++ [("Code Files:" ++ nl)%string].

(** [max(0, max_tokens - meta_tokens - included_feature_tokens)] *)
Definition remaining_tokens_of (max_tokens meta_tokens included_feature_tokens : Z) : Z :=
  Z.max 0 (max_tokens - meta_tokens - included_feature_tokens).

(** The condition under which [_get_code_message] selects nothing. *)
Definition selection_skipped (remaining_tokens : Z) (auto : option Z) : bool :=
  (remaining_tokens =? 0)%Z || bool_decide (auto = Some 0%Z).

Definition alt_levels_of (cmap : bool) : list CodeMessageLevel :=
  if cmap then [CMAP_FULL; CMAP] ++ [FILE_NAME] else [FILE_NAME].

(** [CodeContext._get_code_message] *)
Definition _get_code_message (prompt model : string) (max_tokens : Z)
    (expected_edits : option (list string)) : M string :=
  count_builder_call;;
  (* Setup code message metadata *)
  modify_ctx (fun c => set_diff_context (clear_cache E (diff_context c)) c);;
  set_code_map;;
  w ← get_world;
  let code_message := code_message_header (diff_context (ctx w)) in
  let meta_tokens := count_tokens E (join nl code_message) model in
  (* Add user-included features *)
  included_features ← _get_include_features;
  let included_feature_tokens :=
    sum (List.map (fun f => feature_count_tokens E f model) included_features) in
  let remaining_tokens :=
    remaining_tokens_of max_tokens meta_tokens included_feature_tokens in
  let auto := auto_tokens (config w) in
  (if selection_skipped remaining_tokens auto then
     fs ← lift_option (sorted_by_relative_path included_features);
     modify_ctx (set_features fs)
   else
     let auto :=
       match auto with
       | None => remaining_tokens
       | Some a => Z.min remaining_tokens a
       end in
     let selectable_tokens := (included_feature_tokens + auto)%Z in
     (* Get a complete, sorted list of features to select from *)
     candidate_features ←
       (if negb (String.eqb prompt "") && use_embeddings (config w) then
          scored ← search prompt None INTERVAL;
          mret (List.map fst scored)
        else
          lift_option
            (_get_all_features (git_root E) (include_files (ctx w))
               (ignore_files (ctx w)) (diff_context (ctx w)) (code_map (ctx w))
               INTERVAL default_max_chars));
     let _user := List.filter user_included candidate_features in
     let _non := List.filter (fun f => negb (user_included f)) candidate_features in
     let candidate_features := _user ++ _non in
     let alt_levels := alt_levels_of (code_map (ctx w)) in
     modify_ctx (set_features
       (select E (use_llm (ctx w)) candidate_features selectable_tokens model
          alt_levels prompt expected_edits)));;
  (* Group intervals by file, separated by ellipses if there are gaps *)
  w' ← get_world;
  mret (join nl (code_message ++ get_code_message_from_features E (features (ctx w')))).

(** [CodeContext.get_code_message] *)
Definition get_code_message (prompt model : string) (max_tokens : Z)
    (expected_edits : option (list string)) : M string :=
  code_message_checksum ← _get_code_message_checksum (Some max_tokens);
  w ← get_world;
  (if bool_decide (_code_message (ctx w) = None)
      || negb (bool_decide (Some code_message_checksum = _code_message_checksum (ctx w)))
   then
     m ← _get_code_message prompt model max_tokens expected_edits;
     modify_ctx (set__code_message (Some m));;
     c ← _get_code_message_checksum (Some max_tokens);
     modify_ctx (set__code_message_checksum (Some c))
   else mret tt);;
  w' ← get_world;
  lift_option (_code_message (ctx w')).

(** The inner loop of [include_file]: [include_files[new_path].append]. *)
Definition append_features (new_path : Path) (new_features : list CodeFeature)
    (include : list (Path * list CodeFeature)) : list (Path * list CodeFeature) :=
  fold_left (fun inc feature =>
               dict_set inc new_path (default [] (dict_get inc new_path) ++ [feature]))
            new_features include.

(** One iteration of the outer loop of [include_file]. *)
Definition include_item (include : list (Path * list CodeFeature))
    (item : Path * list CodeFeature) : list (Path * list CodeFeature) :=
  let '(new_path, new_features) := item in
  let include :=
    if negb (dict_mem include new_path) then dict_set include new_path []
    else include in
  append_features new_path new_features include.

(** [CodeContext.include_file] *)
Definition include_file (p : Path) : M (list Path * list Path) :=
  let '(paths, invalid_paths) := get_include_files E [p] [] in
  modify_ctx (fun c => set_include_files (fold_left include_item paths (include_files c)) c);;
  mret (dict_keys paths, invalid_paths).

(** One iteration of the loop of [exclude_file]. *)
Definition exclude_item (st : list Path * list (Path * list CodeFeature))
    (new_path : Path) : list Path * list (Path * list CodeFeature) :=
  let '(removed_paths, include) := st in
  if dict_mem include new_path
  then (removed_paths ++ [new_path], dict_del include new_path)
  else (removed_paths, include).

(** [CodeContext.exclude_file] *)
Definition exclude_file (p : Path) : M (list Path * list Path) :=
  let '(paths, invalid_paths) := get_include_files E [p] [] in
  w ← get_world;
  let '(removed_paths, include) :=
    fold_left exclude_item (dict_keys paths) ([], include_files (ctx w)) in
  modify_ctx (set_include_files include);;
  mret (removed_paths, invalid_paths).
End CodeContextMethods.

(** ** broadcast.py *)

Module Broadcast.
Section WithMessage.
(** [Event.message] is of type [Any]. *)
Context {Msg : Type}.

Record Event := mkEvent { channel : string; message : Msg }.

(** [MemoryBackend].  A [Queue] is the list of its items, oldest first;
  [_published] does not exist before [connect]. *)
Record MemoryBackend := mkMemoryBackend {
_subscribed : gset string;
_missed_events : gmap string (list Event);
_published : option (list Event)
}.

(** [MemoryBackend.__init__] *)
Definition backend_init : MemoryBackend := mkMemoryBackend ∅ ∅ None.

(** [self._missed_events[channel]] of the [defaultdict(list)] *)
Definition missed (b : MemoryBackend) (ch : string) : list Event :=
default [] (_missed_events b !! ch).

(** [MemoryBackend.connect] *)
Definition backend_connect (b : MemoryBackend) : MemoryBackend :=
mkMemoryBackend (_subscribed b) (_missed_events b) (Some []).

(** [MemoryBackend.publish] (and [publish_async], which differs only in
  awaiting the [put]); [None] is the [AttributeError] of a backend that
  was never connected. *)
Definition backend_publish (ch : string) (m : Msg) (b : MemoryBackend)
  : option MemoryBackend :=
let event := mkEvent ch m in
if bool_decide (ch ∈ _subscribed b) then
  match _published b with
  | Some q => Some (mkMemoryBackend (_subscribed b) (_missed_events b) (Some (q ++ [event])))
  | None => None
  end
else
  Some (mkMemoryBackend (_subscribed b)
          (<[ch := missed b ch ++ [event]]> (_missed_events b)) (_published b)).

(** The loop of [MemoryBackend.subscribe] over the buffered events. *)
Fixpoint republish (events : list Event) (b : MemoryBackend) : option MemoryBackend :=
match events with
| [] => Some b
| event :: rest =>
    match backend_publish (channel event) (message event) b with
    | Some b' => republish rest b'
    | None => None
    end
end.

(** [MemoryBackend.subscribe] *)
Definition backend_subscribe (ch : string) (b : MemoryBackend) : option MemoryBackend :=
let b := mkMemoryBackend ({[ch]} ∪ _subscribed b) (_missed_events b) (_published b) in
match republish (missed b ch) b with
| Some b' =>
    Some (mkMemoryBackend (_subscribed b') (<[ch := []]> (_missed_events b'))
            (_published b'))
| None => None
end.

(** [MemoryBackend.unsubscribe]; [None] is the [KeyError] of
  [set.remove]. *)
Definition backend_unsubscribe (ch : string) (b : MemoryBackend) : option MemoryBackend :=
if bool_decide (ch ∈ _subscribed b)
then Some (mkMemoryBackend (_subscribed b ∖ {[ch]}) (_missed_events b) (_published b))
else None.

(** [MemoryBackend.next_published], when an event is waiting. *)
Definition backend_next_published (b : MemoryBackend) : option (Event * MemoryBackend) :=
match _published b with
| Some (event :: q) =>
    Some (event, mkMemoryBackend (_subscribed b) (_missed_events b) (Some q))
| _ => None
end.

(** [Broadcast].  The queues created by [subscribe] are named by
  numbers, in the order of their creation; a queue holds events and the
  final [None]. *)
Record Broadcast := mkBroadcast {
_subscribers : gmap string (gset nat);
_backend : MemoryBackend;
queues : gmap nat (list (option Event));
next_queue : nat
}.

(** [Broadcast.__init__] followed by [connect]. *)
Definition broadcast_init : Broadcast :=
mkBroadcast ∅ (backend_connect backend_init) ∅ 0.

(** [queue.put_nowait(item)] *)
Definition put_nowait (q : nat) (item : option Event)
  (qs : gmap nat (list (option Event))) : gmap nat (list (option Event)) :=
<[q := default [] (qs !! q) ++ [item]]> qs.

(** [not self._subscribers.get(channel)] *)
Definition no_subscribers (subs : gmap string (gset nat)) (ch : string) : bool :=
match subs !! ch with
| Some s => bool_decide (s = ∅)
| None => true
end.

(** [Broadcast.publish] *)
Definition publish (ch : string) (m : Msg) (bc : Broadcast) : option Broadcast :=
match backend_publish ch m (_backend bc) with
| Some b => Some (mkBroadcast (_subscribers bc) b (queues bc) (next_queue bc))
| None => None
end.

(** One turn of the loop of [Broadcast._listener]. *)
Definition listener_step (bc : Broadcast) : option Broadcast :=
match backend_next_published (_backend bc) with
| Some (event, b) =>
    let targets := elements (default ∅ (_subscribers bc !! channel event)) in
    Some (mkBroadcast (_subscribers bc) b
            (fold_right (fun q qs => put_nowait q (Some event) qs) (queues bc) targets)
            (next_queue bc))
| None => None
end.

(** [Broadcast.subscribe], from its start to the [yield]: the new queue
  and the state in which the body of the [with] statement runs. *)
Definition subscribe_enter (ch : string) (bc : Broadcast) : option (nat * Broadcast) :=
let queue := next_queue bc in
let qs := <[queue := []]> (queues bc) in
if no_subscribers (_subscribers bc) ch then
  match backend_subscribe ch (_backend bc) with
  | Some b =>
      let subs := <[ch := ∅]> (_subscribers bc) in
      Some (queue, mkBroadcast (<[ch := {[queue]} ∪ default ∅ (subs !! ch)]> subs)
                     b qs (S queue))
  | None => None
  end
else
  match _subscribers bc !! ch with
  | Some s =>
      Some (queue, mkBroadcast (<[ch := {[queue]} ∪ s]> (_subscribers bc))
                     (_backend bc) qs (S queue))
  | None => None
  end.

(** [Broadcast.subscribe], from the [yield] to the end, when the body of
  the [with] statement ends normally: the statements after the [yield]
  and then the [finally] clause.  [None] is a [KeyError]. *)
Definition subscribe_exit (ch : string) (queue : nat) (bc : Broadcast) : option Broadcast :=
match _subscribers bc !! ch with
| Some s =>
    if bool_decide (queue ∈ s) then
      let subs := <[ch := s ∖ {[queue]}]> (_subscribers bc) in
      if no_subscribers subs ch then
        match backend_unsubscribe ch (_backend bc) with
        | Some b =>
            Some (mkBroadcast (delete ch subs) b
                    (put_nowait queue None (queues bc)) (next_queue bc))
        | None => None
        end
      else
        Some (mkBroadcast subs (_backend bc)
                (put_nowait queue None (queues bc)) (next_queue bc))
    else None
| None => None
end.

(** [Broadcast.subscribe], from the [yield] to the end, when the body of
  the [with] statement raises: [contextmanager] throws the exception
  into the generator at the [yield], so only the [finally] clause runs
  before the exception leaves the generator. *)
Definition subscribe_exit_raising (ch : string) (queue : nat) (bc : Broadcast) : Broadcast :=
mkBroadcast (_subscribers bc) (_backend bc)
  (put_nowait queue None (queues bc)) (next_queue bc).
(** The calls that a [MemoryBackend] receives. *)
Inductive BackendCall :=
| Connect
| Publish (ch : string) (m : Msg)
| Subscribe (ch : string)
| Unsubscribe (ch : string)
| NextPublished.

Definition backend_call (c : BackendCall) (b : MemoryBackend) : option MemoryBackend :=
  match c with
  | Connect => Some (backend_connect b)
  | Publish ch m => backend_publish ch m b
  | Subscribe ch => backend_subscribe ch b
  | Unsubscribe ch => backend_unsubscribe ch b
  | NextPublished =>
      match backend_next_published b with
      | Some (_, b') => Some b'
      | None => None
      end
  end.

(** A sequence of calls, one after the other; [None] when one of them
    raises. *)
Fixpoint backend_calls (cs : list BackendCall) (b : MemoryBackend) : option MemoryBackend :=
  match cs with
  | [] => Some b
  | c :: rest =>
      match backend_call c b with
      | Some b' => backend_calls rest b'
      | None => None
      end
  end.

(** The events that the calls [cs] publish to the channel [ch], in the
    order of the calls. *)
Fixpoint published_to (ch : string) (cs : list BackendCall) : list Event :=
  match cs with
  | [] => []
  | Publish ch' m :: rest =>
      if bool_decide (ch' = ch) then mkEvent ch m :: published_to ch rest
      else published_to ch rest
  | _ :: rest => published_to ch rest
  end.

(** Every buffered event is buffered under its own channel. *)
Definition buffers_by_channel (b : MemoryBackend) : Prop :=
  forall ch e, In e (missed b ch) -> channel e = ch.

(** How the context of one [subscribe] ends. *)
Inductive SubscriberExit := Normally | Raising.

(** The steps of a [Broadcast]: entering [subscribe], leaving it,
    publishing, and one turn of the listener. *)
Inductive BroadcastStep :=
| Enter (ch : string)
| Leave (ch : string) (queue : nat) (how : SubscriberExit)
| PublishTo (ch : string) (m : Msg)
| Listen.

Definition broadcast_step (s : BroadcastStep) (bc : Broadcast) : option Broadcast :=
  match s with
  | Enter ch =>
      match subscribe_enter ch bc with
      | Some (_, bc') => Some bc'
      | None => None
      end
  | Leave ch queue Normally => subscribe_exit ch queue bc
  | Leave ch queue Raising => Some (subscribe_exit_raising ch queue bc)
  | PublishTo ch m => publish ch m bc
  | Listen => listener_step bc
  end.

Fixpoint broadcast_steps (ss : list BroadcastStep) (bc : Broadcast) : option Broadcast :=
  match ss with
  | [] => Some bc
  | s :: rest =>
      match broadcast_step s bc with
      | Some bc' => broadcast_steps rest bc'
      | None => None
      end
  end.

(** The backend is subscribed to exactly the channels that have a queue
    in [_subscribers]. *)
Definition subscribed_iff_registered (bc : Broadcast) : Prop :=
  forall ch, ch ∈ _subscribed (_backend bc) <-> no_subscribers (_subscribers bc) ch = false.
(** What [Subscriber.get] does with the item that it takes from the
    queue: it returns an event, or raises [Unsubscribed] for [None]. *)
Inductive Received :=
| Item (event : Event)
| Unsubscribed.

(** [Subscriber.get] on the queue [q]: the outcome and the rest of the
    queue.  [None] when the queue is empty: the call waits. *)
Definition subscriber_get (q : list (option Event))
  : option (Received * list (option Event)) :=
  match q with
  | [] => None
  | Some event :: rest => Some (Item event, rest)
  | None :: rest => Some (Unsubscribed, rest)
  end.

(** [Subscriber.__aiter__] on a queue that receives nothing more: the
    events that the generator yields, and whether it returns ([true],
    after [Unsubscribed]) or waits in [get] for a further item
    ([false]). *)
Fixpoint subscriber_aiter (q : list (option Event)) : list Event * bool :=
  match q with
  | [] => ([], false)
  | Some event :: rest =>
      let '(events, returned) := subscriber_aiter rest in (event :: events, returned)
  | None :: _ => ([], true)
  end.

(** The items of the queue [q], oldest first. *)
Definition queue_items (bc : Broadcast) (q : nat) : list (option Event) :=
  default [] (queues bc !! q).

(** [self._subscribers.get(channel, set())] *)
Definition subscribers_of (bc : Broadcast) (ch : string) : gset nat :=
  default ∅ (_subscribers bc !! ch).

(** What holds of [_subscribers] between the steps: no channel is kept
    with an empty set of queues, and every queue in it was created by an
    earlier [subscribe]. *)
Definition queues_registered (bc : Broadcast) : Prop :=
  forall ch s, _subscribers bc !! ch = Some s ->
    s <> ∅ /\ forall q, q ∈ s -> (q < next_queue bc)%nat.
(** No queue is registered for two channels. *)
Definition registered_once (bc : Broadcast) : Prop :=
  forall ch1 ch2 s1 s2 q,
    _subscribers bc !! ch1 = Some s1 -> _subscribers bc !! ch2 = Some s2 ->
    q ∈ s1 -> q ∈ s2 -> ch1 = ch2.

(** The queue [q] is registered for no channel. *)
Definition unregistered (bc : Broadcast) (q : nat) : Prop :=
  forall ch, q ∉ subscribers_of bc ch.

(** The step is not an exit of the subscriber with the queue [q]. *)
Definition leaves_queue (q : nat) (s : BroadcastStep) : bool :=
  match s with
  | Leave _ q' _ => bool_decide (q' = q)
  | _ => false
  end.
End WithMessage.
Arguments Event : clear implicits.
Arguments MemoryBackend : clear implicits.
Arguments Broadcast : clear implicits.
Arguments BackendCall : clear implicits.
Arguments BroadcastStep : clear implicits.
Arguments Received : clear implicits.
End Broadcast.

(** ** Vocabulary of the statements *)

(** The paths that [_get_all_features] does not skip. *)
Definition admitted (E : Collaborators) (root : Path) (ignore : gset Path)
    (max_chars : Z) (p : Path) : bool :=
  negb (skipped E ignore max_chars (path_join root p)).

Definition admitted_paths (E : Collaborators) (root : Path) (ignore : gset Path)
    (max_chars : Z) : list Path :=
  List.filter (admitted E root ignore max_chars) (get_non_gitignored_files E root).

(** The feature for the whole of the file [root / p] at level [lvl]. *)
Definition whole_file_feature (root : Path)
    (include : list (Path * list CodeFeature)) (dc : DiffContext)
    (lvl : CodeMessageLevel) (p : Path) : CodeFeature :=
  mkCodeFeature (path_join root p) None lvl
    (if bool_decide (path_join root p ∈ files dc) then Some (target dc) else None)
    (dict_mem include (path_join root p)).

(** The sort key [f.path.relative_to(root)] where it exists. *)
Definition relative_key (root : Path) (f : CodeFeature) : Path :=
  default [] (relative_to (path f) root).

(** [a] does not come after [b] in the order of the paths relative to
    [root]. *)
Definition in_path_order (root : Path) (a b : CodeFeature) : Prop :=
  key_le parts_ltb (relative_key root) a b.




(** ** A small repository *)

(** One state of the outside world, used to run the methods: a repository
    [/repo] with a directory, a binary file, an oversized file and three
    source files; a tokenizer that counts words; a greedy selector. *)
Module Demo.

Definition root : Path := ["/"; "repo"].
Definition a_py : Path := root ++ ["a.py"].
Definition b_py : Path := root ++ ["src"; "b.py"].
Definition c_py : Path := root ++ ["src"; "c.py"].

Definition listing : list Path :=
  [["src"; "c.py"]; ["src"; "b.py"]; ["docs"]; ["a.py"]; ["logo.png"]; ["big.txt"]].

Definition demo_is_dir (p : Path) : bool := bool_decide (p = root ++ ["docs"]).
Definition demo_is_text (p : Path) : bool := negb (bool_decide (p = root ++ ["logo.png"])).
Definition demo_getsize (p : Path) : Z :=
  if bool_decide (p = root ++ ["big.txt"]) then 200000%Z else 120%Z.

(** [a.py] splits into two intervals, every other file is left whole. *)
Definition demo_split (_ : Path) (f : CodeFeature) (_ : list CodeFeature) : list CodeFeature :=
  if bool_decide (path f = a_py)
  then [mkCodeFeature (path f) (Some (1, 10)%Z) (level f) (diff f) (user_included f);
        mkCodeFeature (path f) (Some (11, 20)%Z) (level f) (diff f) (user_included f)]
  else [f].

Definition is_space (c : ascii) : bool :=
  Ascii.eqb c " "%char || Ascii.eqb c "010"%char.

Fixpoint count_words (in_word : bool) (s : string) : nat :=
  match s with
  | EmptyString => 0
  | String c r =>
      if is_space c then count_words false r
      else (if in_word then 0 else 1) + count_words true r
  end.

(** The tokenizer: one token for each word, whatever the model. *)
Definition demo_count_tokens (text : string) (_ : string) : Z :=
  Z.of_nat (count_words false text).

(** The lines of one feature: its path, and a body that shrinks with the
    level. *)
Definition demo_lines (f : CodeFeature) : list string :=
  relpath (path f) root ::
  match level f with
  | CODE | INTERVAL => ["def f(x): return g(x) + 1"]
  | CMAP_FULL => ["f (x)"]
  | CMAP => ["f"]
  | FILE_NAME => []
  end.

Definition demo_feature_tokens (f : CodeFeature) (model : string) : Z :=
  demo_count_tokens (join nl (demo_lines f)) model.

Definition with_level (f : CodeFeature) (lvl : CodeMessageLevel) : CodeFeature :=
  mkCodeFeature (path f) (interval f) lvl (diff f) (user_included f).

(** A greedy selector: each candidate in turn at its own level, else at
    the first of the other levels that fits, else not at all. *)
Fixpoint greedy (model : string) (levels : list CodeMessageLevel)
    (candidates : list CodeFeature) (pool : Z) : list CodeFeature :=
  match candidates with
  | [] => []
  | f :: rest =>
      match List.find (fun g => (demo_feature_tokens g model <=? pool)%Z)
                      (f :: List.map (with_level f) levels) with
      | Some g => g :: greedy model levels rest (pool - demo_feature_tokens g model)
      | None => greedy model levels rest pool
      end
  end.

Definition demo_select (_ : bool) (candidates : list CodeFeature) (pool : Z)
    (model : string) (levels : list CodeMessageLevel) (_ : string)
    (_ : option (list string)) : list CodeFeature :=
  greedy model levels candidates pool.

(** Scores that prefer [src/b.py]. *)
Definition demo_scores (_ : string) (fs : list CodeFeature) : list PyFloat :=
  List.map (fun f => if bool_decide (path f = b_py) then Finite (9 # 10) else Finite (1 # 2))
    fs.


Definition known_file (p : Path) : bool :=
  bool_decide (p = a_py) || bool_decide (p = b_py) || bool_decide (p = c_py).

(** What the resolver pins for a known file: [a.py] and [src/b.py] whole,
    [src/c.py] as two ranges of lines. *)
Definition demo_pins (p : Path) : list CodeFeature :=
  if bool_decide (p = c_py)
  then [mkCodeFeature p (Some (1, 10)%Z) INTERVAL None true;
        mkCodeFeature p (Some (30, 40)%Z) INTERVAL None true]
  else [mkCodeFeature p None CODE None true].

(** Each known file is pinned; anything else is invalid. *)
Definition demo_get_include_files (paths _ : list Path)
    : list (Path * list CodeFeature) * list Path :=
  (fold_left (fun d p => dict_set d p (demo_pins p))
             (List.filter known_file paths) [],
   List.filter (fun p => negb (known_file p)) paths).

Definition show_bool (b : bool) : string := if b then "True" else "False".

Definition demo_str_settings (s : Settings) : string :=
  (show_bool (s_code_map s) ++ "," ++ show_bool (s_use_embeddings s) ++ ","
   ++ show_bool (s_use_llm s) ++ "," ++ default "None" (s_diff s) ++ ","
   ++ default "None" (s_pr_diff s) ++ ","
   ++ join ";" (List.map (fun kv => join "/" (fst kv)) (s_include_files s)))%string.

(** The paths [src/c.py:1-10] and [src/c.py:30-40], as the user writes a
    range of lines. *)
Definition c_py_1_10 : Path := root ++ ["src"; "c.py:1-10"].
Definition c_py_30_40 : Path := root ++ ["src"; "c.py:30-40"].

Definition range_of (p : Path) : option Interval :=
  if bool_decide (p = c_py_1_10) then Some (1, 10)%Z
  else if bool_decide (p = c_py_30_40) then Some (30, 40)%Z
  else None.

(** A resolver that also pins one range of [src/c.py] when it is asked for
    that range alone. *)
Definition ranges_get_include_files (paths exclude_paths : list Path)
    : list (Path * list CodeFeature) * list Path :=
  match paths with
  | [p] =>
      match range_of p with
      | Some i => ([(c_py, [mkCodeFeature c_py (Some i) INTERVAL None true])], [])
      | None => demo_get_include_files paths exclude_paths
      end
  | _ => demo_get_include_files paths exclude_paths
  end.

(** The repository with the given embedding scores and resolver.  The
    diff context holds what git reports: clearing its cache changes
    nothing. *)
Definition env_with (scores : string -> list CodeFeature -> list PyFloat)
    (resolver : list Path -> list Path -> list (Path * list CodeFeature) * list Path)
    : Collaborators :=
  {| git_root := root;
     get_non_gitignored_files := fun _ => listing;
     is_dir := demo_is_dir;
     is_file_text_encoded := demo_is_text;
     getsize := demo_getsize;
     split_file_into_intervals := demo_split;
     feature_count_tokens := demo_feature_tokens;
     get_code_message_from_features := flat_map demo_lines;
     count_tokens := demo_count_tokens;
     check_ctags_disabled := None;
     dedent := fun s => s;
     get_feature_similarity_scores := scores;
     timsort_exchanges := fun _ => [];
     clear_cache := fun dc => dc;
     select := demo_select;
     get_include_files := resolver;
     get_ignore_files := list_to_set;
     sha256 := fun s => ("sha256:" ++ s)%string;
     get_file_checksum := join "/";
     str_settings := demo_str_settings;
     set_iteration := remove_dups |}.

Definition env : Collaborators := env_with demo_scores demo_get_include_files.

Definition ranges_env : Collaborators := env_with demo_scores ranges_get_include_files.

Definition no_diff : DiffContext := mkDiffContext "" "" [] (fun _ => []).

(** [CodeContext.__init__] without a diff. *)
Definition new_context : CodeContext :=
  mkCodeContext [] ∅ no_diff true [] None None None None false.

Definition new_world (cfg : Config) : World := mkWorld new_context cfg [] 0.

End Demo.

(** The session after the builder call has been counted. *)
Definition counted (w : World) : World :=
  mkWorld (ctx w) (config w) (stream w) (S (builder_calls w)).

(** The session after [self.diff_context.clear_cache()]. *)
Definition cache_cleared (E : Collaborators) (w : World) : World :=
  mkWorld (set_diff_context (clear_cache E (diff_context (ctx w))) (ctx w))
    (config w) (stream w) (builder_calls w).

(** The session after [set_code_map]. *)
Definition code_map_set (E : Collaborators) (w : World) : World :=
  if no_code_map (config w) then
    mkWorld (set_code_map_attr false (ctx w)) (config w) (stream w) (builder_calls w)
  else if truthy (check_ctags_disabled E) then
    mkWorld (set_code_map_attr false (ctx w)) (set_no_code_map true (config w))
      (stream w ++ [Send (ctags_disabled_message E (default "" (check_ctags_disabled E)))
                         "yellow"])
      (builder_calls w)
  else
    mkWorld (set_code_map_attr true (ctx w)) (config w) (stream w) (builder_calls w).

(** [meta_tokens], [included_feature_tokens] and [remaining_tokens] of
    [_get_code_message]. *)
Definition meta_tokens_of (E : Collaborators) (model : string) (c : CodeContext) : Z :=
  count_tokens E (join nl (code_message_header (diff_context c))) model.

Definition tokens_of (E : Collaborators) (model : string) (fs : list CodeFeature) : Z :=
  sum (List.map (fun f => feature_count_tokens E f model) fs).

Definition included_tokens_of (E : Collaborators) (model : string) (c : CodeContext) : Z :=
  tokens_of E model (include_features E c).

Definition remaining_of (E : Collaborators) (model : string) (max_tokens : Z)
    (c : CodeContext) : Z :=
  remaining_tokens_of max_tokens (meta_tokens_of E model c) (included_tokens_of E model c).

(** [selectable_tokens]: what the selector may spend. *)
Definition selectable_tokens_of (E : Collaborators) (model : string) (max_tokens : Z)
    (w : World) : Z :=
  (included_tokens_of E model (ctx w)
   + match auto_tokens (config w) with
     | None => remaining_of E model max_tokens (ctx w)
     | Some a => Z.min (remaining_of E model max_tokens (ctx w)) a
     end)%Z.

(** The candidates handed to the selector, before the pinned ones are
    moved to the front. *)
Definition candidates_of (E : Collaborators) (prompt : string) (w : World)
    : option (list CodeFeature) :=
  match _get_all_features E (git_root E) (include_files (ctx w)) (ignore_files (ctx w))
          (diff_context (ctx w)) (code_map (ctx w)) INTERVAL default_max_chars with
  | Some all =>
      Some (if negb (String.eqb prompt "") && use_embeddings (config w)
            then List.map fst (sorted_by_score E
                                 (combine all (get_feature_similarity_scores E prompt all)))
            else all)
  | None => None
  end.

(** The features that [_get_code_message] assigns to [self.features], in
    the session [w] reached after [set_code_map]. *)
Definition selected_features (E : Collaborators) (prompt model : string) (max_tokens : Z)
    (expected_edits : option (list string)) (w : World) : option (list CodeFeature) :=
  if selection_skipped (remaining_of E model max_tokens (ctx w)) (auto_tokens (config w))
  then sorted_by_relative_path E (include_features E (ctx w))
  else
    match candidates_of E prompt w with
    | Some candidates =>
        Some (select E (use_llm (ctx w))
                (List.filter user_included candidates
                 ++ List.filter (fun f => negb (user_included f)) candidates)
                (selectable_tokens_of E model max_tokens w) model
                (alt_levels_of (code_map (ctx w))) prompt expected_edits)
    | None => None
    end.

(** The message for the selected features [fs]. *)
Definition rendered (E : Collaborators) (c : CodeContext) (fs : list CodeFeature) : string :=
  join nl (code_message_header (diff_context c) ++ get_code_message_from_features E fs).

(** The pinned features as [_get_include_features] builds them, before it
    sorts them. *)
Definition pinned_features (c : CodeContext) : list CodeFeature :=
  flat_map (include_features_of (diff_context c)) (include_files c).

(** What the user asked for: path, interval and level. *)
Definition request (f : CodeFeature) : Path * option Interval * CodeMessageLevel :=
  (path f, interval f, level f).

Definition under_root (root : Path) (f : CodeFeature) : bool :=
  match relative_to (path f) root with
  | Some _ => true
  | None => false
  end.

(** Every pinned feature lies below the root of the repository. *)
Definition pinned_under_root (E : Collaborators) (c : CodeContext) : Prop :=
  forall p fs f, In (p, fs) (include_files c) -> In f fs -> under_root (git_root E) f = true.

(** The test of [get_code_message]: there is no stored message, or the
    stored checksum is not the current one. *)
Definition cache_miss (E : Collaborators) (max_tokens : Z) (w : World) : bool :=
  bool_decide (_code_message (ctx w) = None)
  || negb (bool_decide (Some (code_message_checksum E w (Some max_tokens))
                        = _code_message_checksum (ctx w))).

(** The session after [get_code_message] has stored the message [m] built
    in [w] and the checksum of the session at that moment. *)
Definition cache_filled (E : Collaborators) (max_tokens : Z) (m : string) (w : World) : World :=
  let w2 := mkWorld (set__code_message (Some m) (ctx w)) (config w) (stream w)
              (builder_calls w) in
  mkWorld (set__code_message_checksum (Some (code_message_checksum E w2 (Some max_tokens)))
             (ctx w2))
    (config w2) (stream w2) (builder_calls w2).

(** The session of [Demo] in which the user has pinned [a.py]. *)
Definition pinned_a (cfg : Config) : World :=
  mkWorld (set_include_files [(Demo.a_py, [mkCodeFeature Demo.a_py None CODE None true])]
             Demo.new_context)
    cfg [] 0.

(** A diff against [HEAD] in which the files [changed] differ. *)
Definition diff_head (changed : list Path) : DiffContext :=
  mkDiffContext "HEAD" "HEAD: last commit" changed
    (fun p => if bool_decide (p ∈ changed) then [(1, 3)%Z] else []).

(** A session of [Demo] that diffs against [HEAD], pins nothing and
    selects nothing automatically ([auto_tokens] is 0). *)
Definition diffing (changed : list Path) : World :=
  mkWorld (mkCodeContext [] ∅ (diff_head changed) false [] (Some "HEAD") None None None false)
    (mkConfig true (Some 0%Z) false) [] 0.

(** A session of [Demo] whose last build selected [a.py] at the level
    [lvl] and left the message [cached]. *)
Definition built_before (lvl : CodeMessageLevel) (cached : option string) : World :=
  mkWorld (mkCodeContext [] ∅ Demo.no_diff true [mkCodeFeature Demo.a_py None lvl None false]
             None None cached None false)
    (mkConfig false None false) [] 0.

(** The outcomes of two builds are equal: both raise, or both return the
    same message and select the same features. *)
Definition same_result (r1 r2 : option (string * World)) : Prop :=
  match r1, r2 with
  | Some (m1, w1), Some (m2, w2) => m1 = m2 /\ features (ctx w1) = features (ctx w2)
  | None, None => True
  | _, _ => False
  end.

(** Two features overlap when their intervals do; a feature without an
    interval is the whole file and overlaps every feature. *)
Definition features_overlap (f g : CodeFeature) : bool :=
  match interval f, interval g with
  | Some a, Some b => intersects a b
  | _, _ => true
  end.

(** No two features of one list overlap. *)
Definition pairwise_disjoint (fs : list CodeFeature) : Prop :=
  ForallOrdPairs (fun f g => features_overlap f g = false) fs.

(** The invariant of the claim: no two pinned features have the same path
    and overlapping intervals. *)
Definition pins_disjoint (include : list (Path * list CodeFeature)) : Prop :=
  ForallOrdPairs (fun f g => path f = path g -> features_overlap f g = false)
    (concat (List.map snd include)).

(** The sessions reached from a new [CodeContext] by [set_paths],
    [include_file] and [exclude_file]. *)
Inductive reachable (E : Collaborators) : World -> Prop :=
| reachable_new (w : World) :
    include_files (ctx w) = [] -> reachable E w
| reachable_set_paths (w w' : World) (paths exclude_paths ignore_paths : list Path) :
    reachable E w ->
    set_paths E paths exclude_paths ignore_paths w = Some (tt, w') ->
    reachable E w'
| reachable_include_file (w w' : World) (p : Path) (r : list Path * list Path) :
    reachable E w ->
    include_file E p w = Some (r, w') ->
    reachable E w'
| reachable_exclude_file (w w' : World) (p : Path) (r : list Path * list Path) :
    reachable E w ->
    exclude_file E p w = Some (r, w') ->
    reachable E w'.

(** [p] resolves to no path that is pinned in [w]. *)
Definition resolves_to_new (E : Collaborators) (p : Path) (w : World) : Prop :=
  forall q, In q (dict_keys (fst (get_include_files E [p] []))) ->
            dict_mem (include_files (ctx w)) q = false.

(** What [include_file(p)] adds overlaps nothing that is pinned: no
    feature that the resolver returns for a path overlaps a feature pinned
    for this path in [w]. *)
Definition adds_disjoint (E : Collaborators) (p : Path) (w : World) : Prop :=
  forall q fs f g,
    In (q, fs) (fst (get_include_files E [p] [])) ->
    In f (default [] (dict_get (include_files (ctx w)) q)) -> In g fs ->
    features_overlap f g = false.

(** The sessions reached as in [reachable], with [include_file] called
    only where what it adds overlaps nothing that is pinned. *)
Inductive reachable_without_overlap (E : Collaborators) : World -> Prop :=
| without_overlap_new (w : World) :
    include_files (ctx w) = [] -> reachable_without_overlap E w
| without_overlap_set_paths (w w' : World) (paths exclude_paths ignore_paths : list Path) :
    reachable_without_overlap E w ->
    set_paths E paths exclude_paths ignore_paths w = Some (tt, w') ->
    reachable_without_overlap E w'
| without_overlap_include_file (w w' : World) (p : Path) (r : list Path * list Path) :
    reachable_without_overlap E w ->
    adds_disjoint E p w ->
    include_file E p w = Some (r, w') ->
    reachable_without_overlap E w'
| without_overlap_exclude_file (w w' : World) (p : Path) (r : list Path * list Path) :
    reachable_without_overlap E w ->
    exclude_file E p w = Some (r, w') ->
    reachable_without_overlap E w'.

(** A dictionary of pins is well formed: every path is a key once, the
    features under a key have this path, and they do not overlap. *)
Definition pins_well_formed (d : list (Path * list CodeFeature)) : Prop :=
  List.NoDup (dict_keys d)
  /\ forall p fs, In (p, fs) d ->
       (forall f, In f fs -> path f = p) /\ pairwise_disjoint fs.

(** What is assumed of [get_include_files]: it returns a well-formed
    dictionary. *)
Definition resolver_well_formed (E : Collaborators) : Prop :=
  forall paths exclude_paths,
    pins_well_formed (fst (get_include_files E paths exclude_paths)).

(** The paths that [set_paths] resolves: the changed files of the diff
    when no path is given, a diff is set and it has changed files. *)
Definition effective_paths (c : CodeContext) (paths : list Path) : list Path :=
  if (match paths with [] => true | _ => false end)
     && (truthy (ctx_diff c) || truthy (pr_diff c))
     && (match files (diff_context c) with [] => false | _ => true end)
  then files (diff_context c) else paths.

(** The notice of [set_code_map] about ctags. *)
Definition ctags_notice (E : Collaborators) : Notice :=
  Send (ctags_disabled_message E (default "" (check_ctags_disabled E))) "yellow".

(** The candidates as [_get_code_message] hands them to the selector: the
    features included by the user first. *)
Definition pinned_first (candidates : list CodeFeature) : list CodeFeature :=
  List.filter user_included candidates
  ++ List.filter (fun f => negb (user_included f)) candidates.

(** [a] does not come after [b] in the order of the strings
    [os.path.relpath(f.path, git_root)]. *)
Definition in_relpath_order (root : Path) (a b : CodeFeature) : Prop :=
  key_le String.ltb (fun f => relpath (path f) root) a b.

(** The pairs with the score [s]. *)
Definition has_score (s : PyFloat) (x : CodeFeature * PyFloat) : bool :=
  float_eqb (snd x) s.

(** No score of the list is NaN. *)
Definition no_nan (scored : list (CodeFeature * PyFloat)) : Prop :=
  forall x, In x scored -> is_nan (snd x) = false.

(** The scores descend: no pair is followed by one with a greater score,
    in the order [<=] of the floats. *)
Definition scores_descend (ranked : list (CodeFeature * PyFloat)) : Prop :=
  StronglySorted (fun a b => float_leb (snd b) (snd a) = true) ranked.

(** ** [display_features] *)

Section DisplayFeatures.
(** What [display_features] takes from mentat.code_feature, which
    code_context.py only imports: the members of [CodeMessageLevel] in the
    order in which the enum is iterated, and their [description]; and the
    decimal notation [str_count] of a count in the f-string. *)
Context (levels : list CodeMessageLevel) (description : CodeMessageLevel -> string)
  (str_count : nat -> string).

(** [auto_features[lvl] += 1] on the dictionary of the counts, in insertion
    order; [None] is the [KeyError] for a level that is not a key. *)
Fixpoint count_level (lvl : CodeMessageLevel) (auto_features : list (CodeMessageLevel * nat))
    : option (list (CodeMessageLevel * nat)) :=
  match auto_features with
  | [] => None
  | (l, count) :: rest =>
      if decide (l = lvl) then Some ((l, S count) :: rest)
      else match count_level lvl rest with
           | Some rest' => Some ((l, count) :: rest')
           | None => None
           end
  end.

(** One iteration of the loop over [self.features]. *)
Definition count_feature (include : list (Path * list CodeFeature))
    (auto_features : option (list (CodeMessageLevel * nat))) (f : CodeFeature)
    : option (list (CodeMessageLevel * nat)) :=
  match auto_features with
  | Some d => if negb (dict_mem include (path f)) then count_level (level f) d else Some d
  | None => None
  end.

(** A [for] loop whose body only acts on the session. *)
Fixpoint for_each {A : Type} (body : A -> M unit) (l : list A) : M unit :=
  match l with
  | [] => mret tt
  | x :: rest => body x;; for_each body rest
  end.

(** The line for one level; a [send] without [color] is written with the
    empty color. *)
Definition level_line (lvl : CodeMessageLevel) (count : nat) : Notice :=
  Send ("  " ++ str_count count ++ " " ++ description lvl)%string "".

(** [CodeContext.display_features] *)
Definition display_features : M unit :=
  w ← get_world;
  let self := ctx w in
  auto_features ← lift_option
    (fold_left (count_feature (include_files self)) (features self)
       (Some (List.map (fun lvl => (lvl, 0%nat)) levels)));
  if existsb (fun x => negb (Nat.eqb (snd x) 0)) auto_features then
    stream_send (Send "Auto-Selected Features:" "blue");;
    for_each (fun x => if negb (Nat.eqb (snd x) 0)
                       then stream_send (level_line (fst x) (snd x))
                       else mret tt)
             auto_features
  else mret tt.
End DisplayFeatures.

(** The features that the user did not include: their path is no key of
    [include_files]. *)
Definition auto_selected (c : CodeContext) (f : CodeFeature) : bool :=
  negb (dict_mem (include_files c) (path f)).

(** The number of such features at the level [lvl]. *)
Definition auto_count (c : CodeContext) (lvl : CodeMessageLevel) : nat :=
  length (List.filter (fun f => auto_selected c f && bool_decide (level f = lvl))
            (features c)).

(** * Properties *)

(** ** Python's [sorted] *)

Section PySortedFacts.
Context {A K : Type} (ltb : K -> K -> bool) (key : A -> K).
Local Abbreviation insert_stable := (insert_stable ltb key).
Local Abbreviation stable_sort := (stable_sort ltb key).
Local Abbreviation py_sorted := (py_sorted ltb key).
Local Abbreviation key_le := (key_le ltb key).

Lemma stable_sort_cons x l :
  stable_sort (x :: l) = insert_stable x (stable_sort l).
Proof. reflexivity. Qed.

Lemma insert_stable_perm x l : Permutation (x :: l) (insert_stable x l).
Proof.
  induction l as [|y r IH]; simpl; [reflexivity|].
  destruct (ltb (key y) (key x)); [|reflexivity].
  rewrite perm_swap. now constructor.
Qed.

Lemma stable_sort_perm l : Permutation l (stable_sort l).
Proof.
  induction l as [|x l IH]; simpl; [constructor|].
  rewrite <- insert_stable_perm. now constructor.
Qed.

Lemma stable_sort_length l : length (stable_sort l) = length l.
Proof. symmetry. apply Permutation_length, stable_sort_perm. Qed.

(** Elements that are pairwise equivalent for the order keep their
    relative positions. *)
Lemma insert_stable_filter (P : A -> bool) x l :
  (forall a b, P a = true -> P b = true -> ltb (key a) (key b) = false) ->
  List.filter P (insert_stable x l) = List.filter P (x :: l).
Proof.
  intros HP. induction l as [|y r IH]; [reflexivity|].
  cbn [insert_stable]. destruct (ltb (key y) (key x)) eqn:Hlt; [|reflexivity].
  cbn [List.filter] in *. rewrite IH.
  destruct (P x) eqn:Px; [|reflexivity].
  destruct (P y) eqn:Py; [|reflexivity].
  rewrite (HP y x Py Px) in Hlt. discriminate.
Qed.

Lemma stable_sort_filter (P : A -> bool) l :
  (forall a b, P a = true -> P b = true -> ltb (key a) (key b) = false) ->
  List.filter P (stable_sort l) = List.filter P l.
Proof.
  intros HP. induction l as [|x l IH]; [reflexivity|].
  cbn [stable_sort fold_right]. fold (stable_sort l).
  rewrite insert_stable_filter by exact HP.
  cbn [List.filter]. now rewrite IH.
Qed.

Section Ordered.
Hypothesis ltb_asym : forall a b, ltb a b = true -> ltb b a = false.
Hypothesis leb_trans :
  forall a b c, ltb b a = false -> ltb c b = false -> ltb c a = false.

Lemma key_le_trans a b c : key_le a b -> key_le b c -> key_le a c.
Proof. unfold key_le. eauto. Qed.

Lemma insert_stable_sorted x l :
  StronglySorted key_le l -> StronglySorted key_le (insert_stable x l).
Proof.
  induction 1 as [|y r Hr IH Hy]; simpl.
  - repeat constructor.
  - destruct (ltb (key y) (key x)) eqn:Hlt.
    + constructor; [exact IH|].
      apply List.Forall_forall. intros z Hz.
      apply (Permutation_in _ (Permutation_sym (insert_stable_perm x r))) in Hz.
      destruct Hz as [<-|Hz].
      * now apply ltb_asym.
      * rewrite List.Forall_forall in Hy. now apply Hy.
    + constructor; [now constructor|].
      constructor; [exact Hlt|].
      eapply List.Forall_impl; [|exact Hy].
      intros z Hz. eapply key_le_trans; [exact Hlt|exact Hz].
Qed.

Lemma stable_sort_sorted l : StronglySorted key_le (stable_sort l).
Proof.
  induction l as [|x l IH]; simpl; [constructor|].
  now apply insert_stable_sorted.
Qed.

Lemma StronglySorted_snoc (R : A -> A -> Prop) l y :
  StronglySorted R l -> List.Forall (fun z => R z y) l ->
  StronglySorted R (l ++ [y]).
Proof.
  induction 1 as [|z l' Hl' IH Hz]; intros Hall; simpl.
  - repeat constructor.
  - inversion Hall as [|? ? Hzy Hall']; subst.
    constructor; [now apply IH|].
    apply List.Forall_app. split; [exact Hz|now repeat constructor].
Qed.

Lemma StronglySorted_rev (R : A -> A -> Prop) l :
  StronglySorted R l -> StronglySorted (fun a b => R b a) (rev l).
Proof.
  induction 1 as [|y r Hr IH Hy]; simpl; [constructor|].
  apply StronglySorted_snoc; [exact IH|].
  apply List.Forall_forall. intros z Hz. apply in_rev in Hz.
  rewrite List.Forall_forall in Hy. now apply Hy.
Qed.

(** [sorted(..., reverse=True)] is descending. *)
Lemma py_sorted_reverse_sorted l :
  StronglySorted (fun a b => key_le b a) (py_sorted true l).
Proof. apply StronglySorted_rev, stable_sort_sorted. Qed.
End Ordered.

Lemma py_sorted_perm reverse l : Permutation l (py_sorted reverse l).
Proof.
  destruct reverse; simpl; [|apply stable_sort_perm].
  rewrite <- Permutation_rev, <- stable_sort_perm. apply Permutation_rev.
Qed.
End PySortedFacts.

(** ** Orders used as sort keys *)

Section StrictTotalFacts.
Context {K : Type} (ltb : K -> K -> bool) `{!StrictTotal ltb}.

Lemma strict_asym a b : ltb a b = true -> ltb b a = false.
Proof.
  intros Hab. destruct (ltb b a) eqn:Hba; [|reflexivity].
  pose proof (ltb_trans _ _ _ Hab Hba) as H. now rewrite ltb_irrefl in H.
Qed.

Lemma strict_le_trans a b c :
  ltb b a = false -> ltb c b = false -> ltb c a = false.
Proof.
  intros Hba Hcb. destruct (ltb c a) eqn:Hca; [|reflexivity].
  destruct (ltb a b) eqn:Hab.
  - now rewrite (ltb_trans _ _ _ Hca Hab) in Hcb.
  - rewrite (ltb_total _ _ Hab Hba) in Hca. congruence.
Qed.
End StrictTotalFacts.

(** [str.__lt__]: comparison by code points. *)
#[global] Instance string_StrictTotal : StrictTotal String.ltb.
Proof.
  split; unfold String.ltb.
  - intros a. pose proof (proj2 (String_as_OT.cmp_eq a a) eq_refl) as H.
    unfold String_as_OT.cmp in H. now rewrite H.
  - intros a b c Hab Hbc.
    destruct (String.compare a b) eqn:Eab; try discriminate.
    destruct (String.compare b c) eqn:Ebc; try discriminate.
    apply String_as_OT.cmp_lt in Eab, Ebc.
    pose proof (String_as_OT.lt_trans _ _ _ Eab Ebc) as Hac.
    apply String_as_OT.cmp_lt in Hac. unfold String_as_OT.cmp in Hac.
    now rewrite Hac.
  - intros a b Hab Hba. rewrite String.compare_antisym in Hba.
    destruct (String.compare a b) eqn:Eab; try discriminate.
    now apply String.compare_eq_iff.
Qed.

#[global] Instance parts_StrictTotal : StrictTotal parts_ltb.
Proof.
  split.
  - induction a as [|x a IH]; simpl; [reflexivity|]. now rewrite String.eqb_refl.
  - induction a as [|x a IH]; intros [|y b] [|z c]; simpl; try congruence.
    destruct (String.eqb_spec x y) as [->|Hxy].
    + destruct (String.eqb y z); [apply IH|auto].
    + destruct (String.eqb_spec y z) as [->|Hyz].
      * intros Hlt _.
        destruct (String.eqb_spec x z); [contradiction|exact Hlt].
      * intros H1 H2. pose proof (ltb_trans _ _ _ H1 H2) as H3.
        destruct (String.eqb_spec x z) as [->|]; [|exact H3].
        now rewrite ltb_irrefl in H3.
  - induction a as [|x a IH]; intros [|y b]; simpl; try congruence.
    destruct (String.eqb_spec x y) as [->|Hxy].
    + intros H1 H2. f_equal. rewrite String.eqb_refl in H2. now apply IH.
    + destruct (String.eqb_spec y x) as [->|_]; [contradiction|].
      intros H1 H2. destruct Hxy. now apply (ltb_total (ltb:=String.ltb)).
Qed.

Lemma relative_to_app root p : relative_to (root ++ p) root = Some p.
Proof.
  induction root as [|r root IH]; simpl; [reflexivity|].
  now rewrite String.eqb_refl.
Qed.

Lemma relative_to_join root p :
  is_absolute p = false -> relative_to (path_join root p) root = Some p.
Proof. unfold path_join. intros ->. apply relative_to_app. Qed.


Section PySortedByFacts.
Context {A K : Type} (ltb : K -> K -> bool) (key : A -> option K).
Local Abbreviation decorate := (decorate key).
Local Abbreviation py_sorted_by := (py_sorted_by ltb key).

Context (key' : A -> K).

Lemma decorate_total l :
  (forall x, In x l -> key x = Some (key' x)) ->
  decorate l = Some (List.map (fun x => (key' x, x)) l).
Proof.
  induction l as [|x r IH]; intros Hk; simpl; [reflexivity|].
  rewrite (Hk x) by now left. rewrite IH; [reflexivity|].
  intros y Hy. apply Hk. now right.
Qed.

Lemma insert_stable_decorated x l :
  insert_stable ltb fst (key' x, x) (List.map (fun y => (key' y, y)) l)
  = List.map (fun y => (key' y, y)) (insert_stable ltb key' x l).
Proof.
  induction l as [|y r IH]; simpl; [reflexivity|].
  destruct (ltb (key' y) (key' x)); simpl; [now rewrite IH|reflexivity].
Qed.

Lemma stable_sort_decorated l :
  stable_sort ltb fst (List.map (fun y => (key' y, y)) l)
  = List.map (fun y => (key' y, y)) (stable_sort ltb key' l).
Proof.
  induction l as [|x r IH]; [reflexivity|].
  cbn [List.map]. rewrite !stable_sort_cons, IH.
  apply insert_stable_decorated.
Qed.

Lemma py_sorted_by_total l :
  (forall x, In x l -> key x = Some (key' x)) ->
  py_sorted_by l = Some (stable_sort ltb key' l).
Proof.
  intros Hk. unfold py_sorted_by. rewrite (decorate_total l Hk).
  rewrite stable_sort_decorated, List.map_map. simpl.
  now rewrite List.map_id.
Qed.

Lemma decorate_None x l : In x l -> key x = None -> decorate l = None.
Proof.
  induction l as [|y r IH]; simpl; [contradiction|].
  intros [->|Hx] Hnone.
  - now rewrite Hnone.
  - destruct (key y); [|reflexivity]. now rewrite IH.
Qed.
End PySortedByFacts.

(** ** The catalog builder [_get_all_features] *)

Section CatalogFacts.
Context (E : Collaborators) (root : Path)
  (include : list (Path * list CodeFeature)) (ignore : gset Path)
  (dc : DiffContext) (cmap : bool) (lvl : CodeMessageLevel) (max_chars : Z).

Local Abbreviation step := (features_of_path E root include ignore dc cmap lvl max_chars).

Lemma features_of_path_skipped p :
  admitted E root ignore max_chars p = false -> step p = [].
Proof.
  unfold admitted, features_of_path. intros H.
  apply negb_false_iff in H. now rewrite H.
Qed.

Lemma flat_map_admitted (l : list Path) :
  flat_map step l = flat_map step (List.filter (admitted E root ignore max_chars) l).
Proof.
  induction l as [|p l IH]; [reflexivity|]. cbn [flat_map List.filter].
  destruct (admitted E root ignore max_chars p) eqn:Hp; cbn [flat_map].
  - now rewrite IH.
  - now rewrite (features_of_path_skipped p Hp), IH.
Qed.

(** Every feature produced for [p] carries the path [root / p], as soon as
    the splitter keeps the path of the feature it splits. *)
Lemma features_of_path_path p f :
  (cmap = true -> lvl = INTERVAL ->
   forall g uf h, In h (split_file_into_intervals E root g uf) -> path h = path g) ->
  In f (step p) ->
  path f = path_join root p /\ admitted E root ignore max_chars p = true.
Proof.
  intros Hsplit. unfold features_of_path, admitted.
  destruct (skipped E ignore max_chars (path_join root p)); [contradiction|].
  split; [|reflexivity]. revert H.
  destruct (decide (lvl = INTERVAL)) as [Hl|Hl].
  - destruct cmap; simpl.
    + intros Hin. now rewrite (Hsplit eq_refl Hl _ _ _ Hin).
    + now intros [<-|[]].
  - now intros [<-|[]].
Qed.

Lemma get_all_features_sorted :
  (forall p, In p (get_non_gitignored_files E root) -> is_absolute p = false) ->
  (cmap = true -> lvl = INTERVAL ->
   forall g uf h, In h (split_file_into_intervals E root g uf) -> path h = path g) ->
  _get_all_features E root include ignore dc cmap lvl max_chars
  = Some (stable_sort parts_ltb (relative_key root)
            (flat_map step (get_non_gitignored_files E root))).
Proof.
  intros Hrel Hsplit. unfold _get_all_features.
  apply py_sorted_by_total. intros f Hf.
  apply in_flat_map in Hf as (p & Hp & Hf).
  destruct (features_of_path_path p f Hsplit Hf) as [Hpath _].
  unfold relative_key. rewrite Hpath, (relative_to_join root p (Hrel p Hp)).
  reflexivity.
Qed.




End CatalogFacts.

(** The catalog builder returns when the listed paths are relative and
    the splitter keeps the path of the file it splits. *)
Lemma get_all_features_returns
    (E : Collaborators) (root : Path) (include : list (Path * list CodeFeature))
    (ignore : gset Path) (dc : DiffContext) (cmap : bool) (lvl : CodeMessageLevel)
    (max_chars : Z) :
  (forall p, In p (get_non_gitignored_files E root) -> is_absolute p = false) ->
  (forall g uf h, In h (split_file_into_intervals E root g uf) -> path h = path g) ->
  exists l, _get_all_features E root include ignore dc cmap lvl max_chars = Some l.
Proof.
  intros Hrel Hsplit. eexists. apply get_all_features_sorted; [exact Hrel|].
  intros _ _. exact Hsplit.
Qed.

(** C6: with [level == INTERVAL] and [code_map] false, [_get_all_features]
    returns, for every listed path that is not skipped, exactly one
    feature: the whole file at level [CODE], without an interval.  The
    result is the list of these features sorted by relative path. *)
Theorem get_all_features_interval_without_code_map
    (E : Collaborators) (root : Path) (include : list (Path * list CodeFeature))
    (ignore : gset Path) (dc : DiffContext) (max_chars : Z) :
  (forall p, In p (get_non_gitignored_files E root) -> is_absolute p = false) ->
  exists l,
    _get_all_features E root include ignore dc false INTERVAL max_chars = Some l
    /\ l = stable_sort parts_ltb (relative_key root)
             (List.map (whole_file_feature root include dc CODE)
                       (admitted_paths E root ignore max_chars))
    /\ Permutation (List.map (whole_file_feature root include dc CODE)
                             (admitted_paths E root ignore max_chars)) l
    /\ List.Forall (fun f => level f = CODE /\ interval f = None) l.
Proof.
  intros Hrel. eexists. split; [|split; [reflexivity|split]].
  - rewrite get_all_features_sorted; [|exact Hrel|discriminate].
    f_equal. f_equal. unfold admitted_paths.
    rewrite flat_map_admitted. clear Hrel.
    induction (get_non_gitignored_files E root) as [|p l IH]; [reflexivity|].
    cbn [List.filter]. destruct (admitted E root ignore max_chars p) eqn:Hp; [|apply IH].
    cbn [flat_map List.map]. rewrite IH. unfold features_of_path at 1.
    unfold admitted in Hp. apply negb_true_iff in Hp. rewrite Hp.
    destruct (decide (INTERVAL = INTERVAL)); [reflexivity|contradiction].
  - apply stable_sort_perm.
  - apply List.Forall_forall. intros f Hf.
    apply (Permutation_in _ (Permutation_sym (stable_sort_perm _ _ _))) in Hf.
    apply List.in_map_iff in Hf as (p & <- & _). now split.
Qed.

(** The repository of [Demo] without structural summaries: [a.py],
    [src/b.py] and [src/c.py] each come whole, at level [CODE]. *)
Lemma get_all_features_interval_without_code_map_demo :
  exists l,
    _get_all_features Demo.env Demo.root [] ∅ Demo.no_diff false INTERVAL 100000 = Some l
    /\ l = stable_sort parts_ltb (relative_key Demo.root)
             (List.map (whole_file_feature Demo.root [] Demo.no_diff CODE)
                       (admitted_paths Demo.env Demo.root ∅ 100000))
    /\ Permutation (List.map (whole_file_feature Demo.root [] Demo.no_diff CODE)
                             (admitted_paths Demo.env Demo.root ∅ 100000)) l
    /\ List.Forall (fun f => level f = CODE /\ interval f = None) l.
Proof.
  apply (get_all_features_interval_without_code_map Demo.env Demo.root [] ∅ Demo.no_diff 100000).
  intros p Hp. simpl in Hp.
  repeat (destruct Hp as [<-|Hp]; [reflexivity|]). contradiction.
Defined.


Lemma demo_listing_relative p :
  In p (get_non_gitignored_files Demo.env Demo.root) -> is_absolute p = false.
Proof.
  intros Hp. simpl in Hp.
  repeat (destruct Hp as [<-|Hp]; [reflexivity|]). contradiction.
Defined.

Lemma demo_split_keeps_path g uf h :
  In h (split_file_into_intervals Demo.env Demo.root g uf) -> path h = path g.
Proof.
  simpl. unfold Demo.demo_split. destruct (bool_decide (path g = Demo.a_py)); simpl.
  - intros [<-|[<-|[]]]; reflexivity.
  - intros [<-|[]]; reflexivity.
Defined.


(** ** [search] *)

Lemma exchange_at_perm {A : Type} (i : nat) (l : list A) : Permutation l (exchange_at i l).
Proof.
  revert l. induction i as [|i IH]; intros [|x r]; simpl; try reflexivity.
  - destruct r as [|y r]; [reflexivity|apply perm_swap].
  - constructor. apply IH.
Qed.

(** Exchanges of neighbours only rearrange. *)
Lemma exchange_all_perm {A : Type} (positions : list nat) (l : list A) :
  Permutation l (exchange_all positions l).
Proof.
  unfold exchange_all. revert l. induction positions as [|i positions IH]; intros l; simpl.
  - reflexivity.
  - etransitivity; [apply exchange_at_perm|apply IH].
Qed.

(** A list that is one run is sorted already. *)
Lemma stable_sort_run {A K : Type} (ltb : K -> K -> bool) (key : A -> K) (l : list A) :
  is_run ltb key l = true -> stable_sort ltb key l = l.
Proof.
  induction l as [|x [|y r] IH]; [reflexivity|reflexivity|].
  intros Hrun. cbn [is_run] in Hrun. apply andb_true_iff in Hrun as [Hxy Hrun].
  change (stable_sort ltb key (x :: y :: r))
    with (insert_stable ltb key x (stable_sort ltb key (y :: r))).
  rewrite (IH Hrun). cbn [insert_stable]. apply negb_true_iff in Hxy. now rewrite Hxy.
Qed.

Lemma float_ltb_asym (a b : PyFloat) : float_ltb a b = true -> float_ltb b a = false.
Proof.
  destruct a as [x|[|]|], b as [y|[|]|]; simpl; try reflexivity; try discriminate.
  rewrite negb_true_iff, negb_false_iff. intros Hba. apply Qle_bool_iff.
  destruct (Qlt_le_dec x y) as [Hlt|Hle]; [now apply Qlt_le_weak|].
  apply Qle_bool_iff in Hle. congruence.
Qed.

(** On the floats that are not NaN, [<] is a strict weak order. *)
Lemma float_leb_trans (a b c : PyFloat) :
  is_nan b = false ->
  float_ltb b a = false -> float_ltb c b = false -> float_ltb c a = false.
Proof.
  destruct a as [x|[|]|], b as [y|[|]|], c as [z|[|]|]; simpl;
    try reflexivity; try discriminate.
  intros _. rewrite !negb_false_iff, !Qle_bool_iff. apply Qle_trans.
Qed.

Lemma float_leb_not_ltb (a b : PyFloat) :
  is_nan a = false -> is_nan b = false ->
  float_ltb b a = false -> float_leb a b = true.
Proof. intros Ha Hb Hlt. unfold float_leb. now rewrite Ha, Hb, Hlt. Qed.

Lemma StronglySorted_impl {A : Type} (R S : A -> A -> Prop) (l : list A) :
  (forall a b, R a b -> S a b) -> StronglySorted R l -> StronglySorted S l.
Proof.
  intros HRS. induction 1 as [|a l Hl IH Ha]; constructor; [exact IH|].
  eapply List.Forall_impl; [|exact Ha]. apply HRS.
Qed.

Section SortedOn.
Context {A K : Type} (ltb : K -> K -> bool) (key : A -> K) (ok : K -> Prop).
Hypothesis ltb_asym : forall a b, ltb a b = true -> ltb b a = false.
Hypothesis leb_trans_on :
  forall a b c, ok b -> ltb b a = false -> ltb c b = false -> ltb c a = false.

Lemma insert_stable_sorted_on (x : A) (l : list A) :
  List.Forall (fun y => ok (key y)) l ->
  StronglySorted (key_le ltb key) l ->
  StronglySorted (key_le ltb key) (insert_stable ltb key x l).
Proof.
  intros Hok. induction 1 as [|y r Hr IH Hy]; simpl.
  - repeat constructor.
  - inversion Hok as [|? ? Hoky Hokr]; subst.
    destruct (ltb (key y) (key x)) eqn:Hlt.
    + constructor; [now apply IH|].
      apply List.Forall_forall. intros z Hz.
      apply (Permutation_in _ (Permutation_sym (insert_stable_perm ltb key x r))) in Hz.
      destruct Hz as [<-|Hz].
      * now apply ltb_asym.
      * rewrite List.Forall_forall in Hy. now apply Hy.
    + constructor; [now constructor|].
      constructor; [exact Hlt|].
      eapply List.Forall_impl; [|exact Hy].
      intros z Hz. unfold key_le in *. now apply (leb_trans_on _ (key y)).
Qed.

(** Sorting a list whose keys [<] orders totally. *)
Lemma stable_sort_sorted_on (l : list A) :
  List.Forall (fun y => ok (key y)) l ->
  StronglySorted (key_le ltb key) (stable_sort ltb key l).
Proof.
  induction 1 as [|x l Hx Hl IH]; simpl; [constructor|].
  apply insert_stable_sorted_on; [|exact IH].
  apply List.Forall_forall. intros y Hy.
  apply (Permutation_in _ (Permutation_sym (stable_sort_perm ltb key l))) in Hy.
  rewrite List.Forall_forall in Hl. now apply Hl.
Qed.
End SortedOn.

Lemma StronglySorted_impl_in {A : Type} (R S : A -> A -> Prop) (l : list A) :
  (forall a b, In a l -> In b l -> R a b -> S a b) ->
  StronglySorted R l -> StronglySorted S l.
Proof.
  intros HRS Hsorted. induction Hsorted as [|a l Hl IH Ha]; constructor.
  - apply IH. intros x y Hx Hy. apply HRS; now right.
  - apply List.Forall_forall. intros b Hb. rewrite List.Forall_forall in Ha.
    apply HRS; [now left|now right|now apply Ha].
Qed.

Lemma no_nan_forallb (scored : list (CodeFeature * PyFloat)) :
  forallb (fun x => negb (is_nan (snd x))) scored = true <-> no_nan scored.
Proof.
  rewrite forallb_forall. unfold no_nan.
  split; intros H x Hx; specialize (H x Hx);
    [now apply negb_true_iff|now apply negb_true_iff].
Qed.

(** [sorted(scored, key=lambda x: x[1], reverse=True)] is a rearrangement
    of the pairs, whatever the scores are. *)
Lemma sorted_by_score_perm (E : Collaborators) (scored : list (CodeFeature * PyFloat)) :
  Permutation scored (sorted_by_score E scored).
Proof.
  unfold sorted_by_score.
  destruct (forallb _ scored); [apply py_sorted_perm|].
  destruct (is_run _ _ _); [reflexivity|apply exchange_all_perm].
Qed.

(** Where no score is NaN, no score is followed by a greater one. *)
Lemma sorted_by_score_descending (E : Collaborators) (scored : list (CodeFeature * PyFloat)) :
  no_nan scored ->
  sorted_by_score E scored = py_sorted float_ltb snd true scored
  /\ scores_descend (sorted_by_score E scored).
Proof.
  intros Hnan. unfold sorted_by_score.
  rewrite (proj2 (no_nan_forallb scored) Hnan). split; [reflexivity|].
  unfold scores_descend, py_sorted.
  apply (StronglySorted_impl_in (fun a b => key_le float_ltb snd b a)).
  - intros a b Ha Hb Hle. apply in_rev in Ha, Hb.
    apply (Permutation_in _ (Permutation_sym (stable_sort_perm float_ltb snd (rev scored))))
      in Ha, Hb.
    apply in_rev in Ha, Hb. now apply float_leb_not_ltb; [apply Hnan|apply Hnan|].
  - apply StronglySorted_rev.
    apply (stable_sort_sorted_on float_ltb snd (fun s => is_nan s = false)
             float_ltb_asym float_leb_trans).
    apply List.Forall_forall. intros x Hx. apply Hnan. now apply in_rev.
Qed.

Lemma slice_to_prefix {A : Type} (l : list A) (n : Z) :
  exists rest, l = slice_to l n ++ rest.
Proof.
  unfold slice_to. destruct (n <? 0)%Z; eexists; symmetry; apply firstn_skipn.
Qed.





(** ** Running the methods *)

Lemma set_code_map_run (E : Collaborators) (w : World) :
  set_code_map E w = Some (tt, code_map_set E w).
Proof.
  unfold set_code_map, code_map_set, mbind, M_bind, get_world.
  destruct w as [c cfg st n]; simpl.
  destruct (no_code_map cfg); [reflexivity|].
  destruct (truthy (check_ctags_disabled E)); reflexivity.
Qed.

(** [set_code_map] writes [self.code_map], [config.no_code_map] and the
    stream, and nothing else. *)
Lemma code_map_set_frame (E : Collaborators) (w : World) :
  include_files (ctx (code_map_set E w)) = include_files (ctx w)
  /\ ignore_files (ctx (code_map_set E w)) = ignore_files (ctx w)
  /\ diff_context (ctx (code_map_set E w)) = diff_context (ctx w)
  /\ features (ctx (code_map_set E w)) = features (ctx w)
  /\ use_llm (ctx (code_map_set E w)) = use_llm (ctx w)
  /\ _code_message (ctx (code_map_set E w)) = _code_message (ctx w)
  /\ _code_message_checksum (ctx (code_map_set E w)) = _code_message_checksum (ctx w)
  /\ auto_tokens (config (code_map_set E w)) = auto_tokens (config w)
  /\ use_embeddings (config (code_map_set E w)) = use_embeddings (config w)
  /\ builder_calls (code_map_set E w) = builder_calls w.
Proof.
  unfold code_map_set. destruct (no_code_map (config w)); [now simpl|].
  destruct (truthy (check_ctags_disabled E)); now simpl.
Qed.

(** [_get_code_message] in one step: the builder call is counted, the
    cache of the diff context is cleared, [set_code_map] runs, the features
    are selected and stored, and the message is rendered from them. *)
Lemma _get_code_message_run (E : Collaborators) (prompt model : string) (max_tokens : Z)
    (expected_edits : option (list string)) (w : World) :
  _get_code_message E prompt model max_tokens expected_edits w
  = let w1 := code_map_set E (cache_cleared E (counted w)) in
    match selected_features E prompt model max_tokens expected_edits w1 with
    | Some fs =>
        Some (rendered E (ctx w1) fs,
              mkWorld (set_features fs (ctx w1)) (config w1) (stream w1) (builder_calls w1))
    | None => None
    end.
Proof.
  unfold _get_code_message.
  unfold mbind at 1. unfold M_bind at 1. unfold count_builder_call.
  unfold mbind at 1. unfold M_bind at 1. unfold modify_ctx at 1.
  unfold mbind at 1. unfold M_bind at 1. rewrite set_code_map_run.
  match goal with |- context [code_map_set E ?x] =>
    change x with (cache_cleared E (counted w))
  end.
  set (w1 := code_map_set E (cache_cleared E (counted w))).
  unfold selected_features, candidates_of, remaining_of, included_tokens_of,
    meta_tokens_of, tokens_of, selectable_tokens_of, remaining_of, included_tokens_of,
    meta_tokens_of, tokens_of.
  cbv beta iota zeta delta [mbind M_bind mret M_ret get_world _get_include_features
    lift_option modify_ctx search].
  destruct (selection_skipped _ _) eqn:Hskip.
  - destruct (sorted_by_relative_path E _); reflexivity.
  - destruct (negb (String.eqb prompt "") && use_embeddings (config w1)) eqn:Hemb.
    + apply andb_true_iff in Hemb as [_ ->]. cbn [negb].
      destruct (_get_all_features E _ _ _ _ _ _ _); reflexivity.
    + destruct (_get_all_features E _ _ _ _ _ _ _); reflexivity.
Qed.

Lemma get_code_message_run (E : Collaborators) (prompt model : string) (max_tokens : Z)
    (expected_edits : option (list string)) (w : World) :
  get_code_message E prompt model max_tokens expected_edits w
  = if cache_miss E max_tokens w then
      match _get_code_message E prompt model max_tokens expected_edits w with
      | Some (m, w') => Some (m, cache_filled E max_tokens m w')
      | None => None
      end
    else
      match _code_message (ctx w) with
      | Some m => Some (m, w)
      | None => None
      end.
Proof.
  unfold get_code_message, cache_miss, cache_filled.
  cbv beta iota zeta delta [mbind M_bind mret M_ret get_world _get_code_message_checksum
    lift_option modify_ctx].
  destruct (bool_decide (_code_message (ctx w) = None)
            || negb (bool_decide (Some (code_message_checksum E w (Some max_tokens))
                                  = _code_message_checksum (ctx w)))).
  - destruct (_get_code_message E prompt model max_tokens expected_edits w)
      as [[m w']|]; reflexivity.
  - reflexivity.
Qed.

(** The checksum does not read the cache. *)
Lemma code_message_checksum_cache_filled (E : Collaborators) (max_tokens : Z)
    (m : string) (w : World) (mt : option Z) :
  code_message_checksum E (cache_filled E max_tokens m w) mt
  = code_message_checksum E w mt.
Proof. reflexivity. Qed.

Lemma builder_calls_built (E : Collaborators) (prompt model : string) (max_tokens : Z)
    (expected_edits : option (list string)) (w : World) (m : string) (w' : World) :
  _get_code_message E prompt model max_tokens expected_edits w = Some (m, w') ->
  builder_calls w' = S (builder_calls w).
Proof.
  rewrite _get_code_message_run. cbv zeta.
  destruct (selected_features _ _ _ _ _ _); [|discriminate].
  intros [= _ <-]. simpl.
  now destruct (code_map_set_frame E (cache_cleared E (counted w)))
    as (_&_&_&_&_&_&_&_&_&->).
Qed.

(** C3: after a call of [get_code_message] that returned, a second call
    with the same [max_tokens], in the same session and with the outside
    world unchanged, returns the same string and leaves the session as it
    is: it finds the cache valid and does not enter [_get_code_message]
    (the count of builder calls does not move).  Over the two calls the
    builder is entered at most once. *)
Theorem get_code_message_idempotent
    (E : Collaborators) (prompt model : string) (max_tokens : Z)
    (expected_edits : option (list string))
    (prompt' model' : string) (expected_edits' : option (list string))
    (w : World) (m : string) (w1 : World) :
  get_code_message E prompt model max_tokens expected_edits w = Some (m, w1) ->
  get_code_message E prompt' model' max_tokens expected_edits' w1 = Some (m, w1)
  /\ cache_miss E max_tokens w1 = false
  /\ (builder_calls w1 <= S (builder_calls w))%nat.
Proof.
  rewrite !get_code_message_run.
  destruct (cache_miss E max_tokens w) eqn:Hmiss.
  - destruct (_get_code_message E prompt model max_tokens expected_edits w)
      as [[m' w']|] eqn:Hbuilt; [|discriminate].
    intros [= -> <-].
    assert (Hhit : cache_miss E max_tokens (cache_filled E max_tokens m w') = false).
    { unfold cache_miss. rewrite code_message_checksum_cache_filled. simpl.
      apply negb_false_iff, bool_decide_eq_true_2. reflexivity. }
    rewrite Hhit. split; [reflexivity|]. split; [reflexivity|].
    simpl. now rewrite (builder_calls_built _ _ _ _ _ _ _ _ Hbuilt).
  - destruct (_code_message (ctx w)) as [m'|] eqn:Hm; [|discriminate].
    intros [= -> <-]. rewrite Hmiss, Hm. repeat split. lia.
Qed.

(** Two calls in the repository of [Demo], the second with another
    prompt: one builder call in all. *)
Lemma get_code_message_idempotent_demo :
  exists m w1,
    get_code_message Demo.env "" "gpt-4" 20 None (Demo.new_world (mkConfig false None false))
    = Some (m, w1)
    /\ get_code_message Demo.env "fix g" "gpt-4" 20 None w1 = Some (m, w1)
    /\ builder_calls w1 = 1%nat.
Proof.
  destruct (get_code_message Demo.env "" "gpt-4" 20 None
              (Demo.new_world (mkConfig false None false))) as [[m w1]|] eqn:Hfirst.
  - exists m, w1. split; [reflexivity|].
    destruct (get_code_message_idempotent Demo.env "" "gpt-4" 20 None "fix g" "gpt-4" None
                _ m w1 Hfirst) as (Hsecond & _ & _).
    split; [exact Hsecond|].
    vm_compute in Hfirst. injection Hfirst as _ <-. reflexivity.
  - vm_compute in Hfirst. discriminate.
Defined.

(** ** The build [_get_code_message] *)

Lemma sum_from (l : list Z) (a : Z) : fold_left Z.add l a = (a + sum l)%Z.
Proof.
  unfold sum. revert a. induction l as [|x l IH]; intros a; cbn [fold_left]; [lia|].
  rewrite (IH (a + x)%Z), (IH (0 + x)%Z). lia.
Qed.

Lemma sum_cons (x : Z) (l : list Z) : sum (x :: l) = (x + sum l)%Z.
Proof. unfold sum at 1. cbn [fold_left]. apply sum_from. Qed.

Lemma tokens_of_perm (E : Collaborators) (model : string) (l l' : list CodeFeature) :
  Permutation l l' -> tokens_of E model l = tokens_of E model l'.
Proof.
  unfold tokens_of. induction 1 as [|x l l' _ IH|x y l|l l' l'' _ IH1 _ IH2]; simpl.
  - reflexivity.
  - rewrite !sum_cons. now rewrite IH.
  - rewrite !sum_cons. lia.
  - congruence.
Qed.

Lemma include_features_perm (E : Collaborators) (c : CodeContext) :
  Permutation (pinned_features c) (include_features E c).
Proof. apply py_sorted_perm. Qed.

(** The features built from the pinned ones repeat their path, interval
    and level, and are marked as included by the user. *)
Lemma include_features_of_request (dc : DiffContext) (item : Path * list CodeFeature) :
  List.map request (include_features_of dc item) = List.map request (snd item)
  /\ List.Forall (fun f => user_included f = true) (include_features_of dc item).
Proof.
  destruct item as [p fs]. unfold include_features_of. simpl. split.
  - rewrite List.map_map. now apply List.map_ext.
  - apply List.Forall_forall. intros f Hf.
    apply List.in_map_iff in Hf as (g & <- & _). reflexivity.
Qed.

Lemma pinned_features_request (c : CodeContext) :
  List.map request (pinned_features c)
  = List.map request (concat (List.map snd (include_files c)))
  /\ List.Forall (fun f => user_included f = true) (pinned_features c).
Proof.
  unfold pinned_features. induction (include_files c) as [|item l [IH1 IH2]]; simpl.
  - split; [reflexivity|constructor].
  - destruct (include_features_of_request (diff_context c) item) as [H1 H2].
    split.
    + now rewrite !List.map_app, H1, IH1.
    + apply List.Forall_app. now split.
Qed.

Lemma pinned_features_under_root (E : Collaborators) (c : CodeContext) (f : CodeFeature) :
  pinned_under_root E c -> In f (pinned_features c) ->
  relative_to (path f) (git_root E) = Some (relative_key (git_root E) f).
Proof.
  intros Hroot Hf. unfold pinned_features in Hf.
  apply in_flat_map in Hf as ([p fs] & Hitem & Hf).
  unfold include_features_of in Hf. apply List.in_map_iff in Hf as (g & <- & Hg).
  pose proof (Hroot p fs g Hitem Hg) as Hunder.
  unfold under_root in Hunder. unfold relative_key. simpl.
  destruct (relative_to (path g) (git_root E)); [reflexivity|discriminate].
Qed.

Lemma sorted_by_relative_path_pinned (E : Collaborators) (c : CodeContext) :
  pinned_under_root E c ->
  sorted_by_relative_path E (include_features E c)
  = Some (stable_sort parts_ltb (relative_key (git_root E)) (include_features E c)).
Proof.
  intros Hroot. apply py_sorted_by_total. intros f Hf.
  apply (pinned_features_under_root E c f Hroot).
  now apply (Permutation_in _ (Permutation_sym (include_features_perm E c))).
Qed.

(** What the build reads of the session, once the cache of the diff
    context is cleared, is not changed by counting the call and by
    [set_code_map]. *)
Lemma build_inputs_prepared (E : Collaborators) (model : string) (max_tokens : Z) (w : World) :
  let w0 := cache_cleared E w in
  let w1 := code_map_set E (cache_cleared E (counted w)) in
  include_features E (ctx w1) = include_features E (ctx w0)
  /\ diff_context (ctx w1) = diff_context (ctx w0)
  /\ auto_tokens (config w1) = auto_tokens (config w)
  /\ remaining_of E model max_tokens (ctx w1) = remaining_of E model max_tokens (ctx w0)
  /\ selectable_tokens_of E model max_tokens w1 = selectable_tokens_of E model max_tokens w0.
Proof.
  intros w0 w1.
  destruct (code_map_set_frame E (cache_cleared E (counted w)))
    as (Hinc & _ & Hdc & _ & _ & _ & _ & Hauto & _).
  fold w1 in Hinc, Hdc, Hauto.
  change (include_files (ctx (cache_cleared E (counted w)))) with (include_files (ctx w0))
    in Hinc.
  change (diff_context (ctx (cache_cleared E (counted w)))) with (diff_context (ctx w0)) in Hdc.
  change (auto_tokens (config (cache_cleared E (counted w)))) with (auto_tokens (config w))
    in Hauto.
  assert (H1 : include_features E (ctx w1) = include_features E (ctx w0))
    by (unfold include_features; now rewrite Hinc, Hdc).
  assert (H2 : remaining_of E model max_tokens (ctx w1) = remaining_of E model max_tokens (ctx w0))
    by (unfold remaining_of, meta_tokens_of, included_tokens_of; now rewrite H1, Hdc).
  repeat split; try assumption.
  unfold selectable_tokens_of, included_tokens_of. now rewrite H1, H2, Hauto.
Qed.

(** Clearing the cache of the diff context leaves what is pinned. *)
Lemma pinned_under_root_cleared (E : Collaborators) (w : World) :
  pinned_under_root E (ctx w) -> pinned_under_root E (ctx (cache_cleared E w)).
Proof. intros Hroot p fs f. apply (Hroot p fs f). Qed.

(** C4: when the clamped remainder is zero or the configured limit is
    zero (in particular when the pinned features alone cost the whole
    budget or more), [_get_code_message] returns without an error, calls
    no selector, and its features are exactly the pinned features, each
    with the path, interval and level that was pinned, sorted by the path
    relative to the root.  The preamble and the diff markers of the pinned
    features are those of the diff context with its cache cleared, as the
    build reads it. *)
Theorem pinned_only_when_pool_is_zero
    (E : Collaborators) (prompt model : string) (max_tokens : Z)
    (expected_edits : option (list string)) (w : World) :
  pinned_under_root E (ctx w) ->
  remaining_of E model max_tokens (ctx (cache_cleared E w)) = 0%Z
  \/ auto_tokens (config w) = Some 0%Z
  \/ ((0 <= meta_tokens_of E model (ctx (cache_cleared E w)))%Z
      /\ (max_tokens <= included_tokens_of E model (ctx (cache_cleared E w)))%Z) ->
  exists fs w',
    _get_code_message E prompt model max_tokens expected_edits w
    = Some (rendered E (ctx (cache_cleared E w)) fs, w')
    /\ features (ctx w') = fs
    /\ fs = stable_sort parts_ltb (relative_key (git_root E))
              (include_features E (ctx (cache_cleared E w)))
    /\ Permutation (pinned_features (ctx (cache_cleared E w))) fs
    /\ StronglySorted (in_path_order (git_root E)) fs
    /\ Permutation (List.map request (concat (List.map snd (include_files (ctx w)))))
                   (List.map request fs)
    /\ List.Forall (fun f => user_included f = true) fs.
Proof.
  intros Hroot Hzero. apply pinned_under_root_cleared in Hroot.
  set (w0 := cache_cleared E w) in *.
  destruct (build_inputs_prepared E model max_tokens w) as (Hinc & Hdc & Hauto & Hrem & _).
  fold w0 in Hinc, Hdc, Hrem.
  assert (Hskip : selection_skipped (remaining_of E model max_tokens (ctx w0))
                    (auto_tokens (config w)) = true).
  { unfold selection_skipped. apply orb_true_iff.
    destruct Hzero as [H0|[Ha|[Hmeta Hover]]].
    - left. now apply Z.eqb_eq.
    - right. now apply bool_decide_eq_true_2.
    - left. apply Z.eqb_eq. unfold remaining_of, remaining_tokens_of. lia. }
  set (fs := stable_sort parts_ltb (relative_key (git_root E)) (include_features E (ctx w0))).
  assert (Hperm : Permutation (pinned_features (ctx w0)) fs).
  { etransitivity; [apply include_features_perm|apply stable_sort_perm]. }
  exists fs. eexists. split; [|split; [|split; [reflexivity|split; [exact Hperm|split; [|split]]]]].
  - rewrite _get_code_message_run. cbv zeta. unfold selected_features.
    rewrite Hrem, Hauto, Hskip, Hinc, (sorted_by_relative_path_pinned E (ctx w0) Hroot).
    fold fs. unfold rendered. rewrite Hdc. reflexivity.
  - reflexivity.
  - apply stable_sort_sorted.
    + apply (strict_asym parts_ltb).
    + apply (strict_le_trans parts_ltb).
  - change (include_files (ctx w)) with (include_files (ctx w0)).
    destruct (pinned_features_request (ctx w0)) as [<- _].
    now apply Permutation_map.
  - destruct (pinned_features_request (ctx w0)) as [_ Hall].
    rewrite List.Forall_forall in Hall. apply List.Forall_forall. intros f Hf.
    apply Hall. now apply (Permutation_in _ (Permutation_sym Hperm)).
Qed.

Lemma demo_pinned_a_under_root (cfg : Config) : pinned_under_root Demo.env (ctx (pinned_a cfg)).
Proof.
  intros p fs f Hitem Hf. simpl in Hitem. destruct Hitem as [[= <- <-]|[]].
  destruct Hf as [<-|[]]. reflexivity.
Defined.

(** Scenario B in the repository of [Demo]: [a.py] is pinned at level
    [CODE] and costs 7 tokens, the budget is 5; the result is [a.py] at
    level [CODE] and nothing else. *)
Lemma pinned_only_when_pool_is_zero_demo :
  exists fs w',
    _get_code_message Demo.env "" "gpt-4" 5 None (pinned_a (mkConfig false None false))
    = Some (rendered Demo.env (ctx (pinned_a (mkConfig false None false))) fs, w')
    /\ features (ctx w') = fs
    /\ List.map request fs = [(Demo.a_py, None, CODE)].
Proof.
  destruct (pinned_only_when_pool_is_zero Demo.env "" "gpt-4" 5 None
              (pinned_a (mkConfig false None false))
              (demo_pinned_a_under_root _))
    as (fs & w' & Hrun & Hfs & Heq & _).
  - right. right. vm_compute. split; discriminate.
  - exists fs, w'. split; [exact Hrun|]. split; [exact Hfs|].
    rewrite Heq. reflexivity.
Defined.

(** Scenario B again: the message built for a budget of 5 tokens has 9. *)
Lemma message_exceeds_budget_when_pinned_exceeds_it :
  exists msg w',
    _get_code_message Demo.env "" "gpt-4" 5 None (pinned_a (mkConfig false None false))
    = Some (msg, w')
    /\ count_tokens Demo.env msg "gpt-4" = 9%Z
    /\ ~ (count_tokens Demo.env msg "gpt-4" <= 5)%Z.
Proof.
  eexists. eexists. split; [vm_compute; reflexivity|].
  split; [vm_compute; reflexivity|]. vm_compute. intros H. now apply H.
Qed.

(** The pool of the selector is what the budget leaves after the preamble
    and the pinned features, or less. *)
Lemma selectable_tokens_bound (E : Collaborators) (model : string) (max_tokens : Z) (w : World) :
  (meta_tokens_of E model (ctx w) + included_tokens_of E model (ctx w) <= max_tokens)%Z ->
  (meta_tokens_of E model (ctx w) + selectable_tokens_of E model max_tokens w <= max_tokens)%Z.
Proof.
  unfold selectable_tokens_of, remaining_of, remaining_tokens_of.
  destruct (auto_tokens (config w)); lia.
Qed.

(** C1, as amended: when the preamble and the pinned features cost no more
    than [max_tokens], the selector spends no more than the pool it is
    given, and the tokenizer counts the message at no more than the
    preamble plus the selected features, the message that
    [_get_code_message] returns has at most [max_tokens] tokens.  The
    preamble and the pinned features are those of the diff context with
    its cache cleared, as the build reads it. *)
Theorem code_message_within_budget
    (E : Collaborators) (prompt model : string) (max_tokens : Z)
    (expected_edits : option (list string)) (w : World) :
  (forall p, In p (get_non_gitignored_files E (git_root E)) -> is_absolute p = false) ->
  (forall g uf h, In h (split_file_into_intervals E (git_root E) g uf) -> path h = path g) ->
  pinned_under_root E (ctx w) ->
  (meta_tokens_of E model (ctx (cache_cleared E w))
   + included_tokens_of E model (ctx (cache_cleared E w)) <= max_tokens)%Z ->
  (forall msg w',
     _get_code_message E prompt model max_tokens expected_edits w = Some (msg, w') ->
     selection_skipped (remaining_of E model max_tokens (ctx (cache_cleared E w)))
       (auto_tokens (config w)) = false ->
     (tokens_of E model (features (ctx w'))
      <= selectable_tokens_of E model max_tokens (cache_cleared E w))%Z) ->
  (forall msg w',
     _get_code_message E prompt model max_tokens expected_edits w = Some (msg, w') ->
     (count_tokens E msg model
      <= meta_tokens_of E model (ctx (cache_cleared E w))
         + tokens_of E model (features (ctx w')))%Z) ->
  exists msg w',
    _get_code_message E prompt model max_tokens expected_edits w = Some (msg, w')
    /\ (count_tokens E msg model <= max_tokens)%Z.
Proof.
  intros Hrel Hsplit Hroot Hroom Hselect Htokenizer.
  apply pinned_under_root_cleared in Hroot.
  set (w0 := cache_cleared E w) in *.
  destruct (build_inputs_prepared E model max_tokens w) as (Hinc & Hdc & Hauto & Hrem & _).
  fold w0 in Hinc, Hdc, Hrem.
  assert (Hruns : exists msg w',
             _get_code_message E prompt model max_tokens expected_edits w = Some (msg, w')).
  { rewrite _get_code_message_run. cbv zeta. unfold selected_features, candidates_of.
    rewrite Hrem, Hauto. clear Hselect.
    destruct (selection_skipped _ _).
    - rewrite Hinc, (sorted_by_relative_path_pinned E (ctx w0) Hroot).
      do 2 eexists. reflexivity.
    - destruct (get_all_features_returns E (git_root E)
                  (include_files (ctx (code_map_set E (cache_cleared E (counted w)))))
                  (ignore_files (ctx (code_map_set E (cache_cleared E (counted w)))))
                  (diff_context (ctx (code_map_set E (cache_cleared E (counted w)))))
                  (code_map (ctx (code_map_set E (cache_cleared E (counted w))))) INTERVAL
                  default_max_chars Hrel Hsplit) as (all & ->).
      do 2 eexists. reflexivity. }
  destruct Hruns as (msg & w' & Hrun). exists msg, w'. split; [exact Hrun|].
  pose proof (Htokenizer msg w' Hrun) as Hcount.
  pose proof (selectable_tokens_bound E model max_tokens w0 Hroom) as Hpool.
  change (config w0) with (config w) in Hpool.
  destruct (selection_skipped (remaining_of E model max_tokens (ctx w0))
              (auto_tokens (config w))) eqn:Hskip.
  - assert (Hfs : tokens_of E model (features (ctx w')) = included_tokens_of E model (ctx w0)).
    { revert Hrun. rewrite _get_code_message_run. cbv zeta. unfold selected_features.
      rewrite Hrem, Hauto, Hskip, Hinc, (sorted_by_relative_path_pinned E (ctx w0) Hroot).
      intros [= _ <-]. simpl. unfold included_tokens_of.
      symmetry. apply tokens_of_perm, stable_sort_perm. }
    lia.
  - pose proof (Hselect msg w' Hrun eq_refl). lia.
Qed.

(** The repository of [Demo] with a budget of 20 tokens: the preamble
    costs 2, nothing is pinned, the greedy selector spends the 18 that are
    left and the message has 20 tokens. *)
Lemma code_message_within_budget_demo :
  exists msg w',
    _get_code_message Demo.env "" "gpt-4" 20 None (Demo.new_world (mkConfig false None false))
    = Some (msg, w')
    /\ (count_tokens Demo.env msg "gpt-4" <= 20)%Z.
Proof.
  apply (code_message_within_budget Demo.env "" "gpt-4" 20 None
           (Demo.new_world (mkConfig false None false))
           demo_listing_relative demo_split_keeps_path).
  - intros p fs f [].
  - vm_compute. discriminate.
  - intros msg w' Hrun _. vm_compute in Hrun. injection Hrun as _ <-.
    vm_compute. discriminate.
  - intros msg w' Hrun. vm_compute in Hrun. injection Hrun as <- <-.
    vm_compute. discriminate.
Defined.

(** ** The checksum and the cache *)

(** Two sessions that differ only in the files that the diff reports as
    changed have the same checksum, before the build and after it, and
    different messages. *)
Lemma equal_checksums_different_messages :
  code_message_checksum Demo.env (diffing []) (Some 100%Z)
  = code_message_checksum Demo.env (diffing [Demo.b_py]) (Some 100%Z)
  /\ exists m1 w1 m2 w2,
       _get_code_message Demo.env "" "gpt-4" 100 None (diffing []) = Some (m1, w1)
       /\ _get_code_message Demo.env "" "gpt-4" 100 None (diffing [Demo.b_py]) = Some (m2, w2)
       /\ code_message_checksum Demo.env w1 (Some 100%Z)
          = code_message_checksum Demo.env w2 (Some 100%Z)
       /\ features (ctx w1) = features (ctx w2)
       /\ m1 <> m2.
Proof.
  split; [reflexivity|].
  do 4 eexists. split; [vm_compute; reflexivity|]. split; [vm_compute; reflexivity|].
  split; [reflexivity|]. split; [reflexivity|]. discriminate.
Qed.

Lemma string_append_nil (b : string) : ("" ++ b)%string = b.
Proof. reflexivity. Qed.

Lemma string_append_cons (x : ascii) (a b : string) :
  (String x a ++ b)%string = String x (a ++ b).
Proof. reflexivity. Qed.

Lemma string_length_append (a b : string) :
  String.length (a ++ b) = (String.length a + String.length b)%nat.
Proof.
  induction a as [|x a IH]; [reflexivity|].
  rewrite string_append_cons. simpl. now rewrite IH.
Qed.

(** Two concatenations that are equal and end in strings of one length
    end in the same string. *)
Lemma string_append_suffix (a b c d : string) :
  (a ++ b = c ++ d)%string -> String.length b = String.length d -> b = d.
Proof.
  revert c. induction a as [|x a IH]; intros [|y c];
    rewrite ?string_append_nil, ?string_append_cons.
  - auto.
  - intros -> Hlen. simpl in Hlen. rewrite string_length_append in Hlen. lia.
  - intros <- Hlen. simpl in Hlen. rewrite string_length_append in Hlen. lia.
  - intros [= _ Heq]. now apply (IH c).
Qed.

Lemma code_map_after_set (E : Collaborators) (w : World) :
  code_map (ctx (code_map_set E w))
  = negb (no_code_map (config w)) && negb (truthy (check_ctags_disabled E)).
Proof.
  unfold code_map_set. destruct (no_code_map (config w)); [reflexivity|].
  destruct (truthy (check_ctags_disabled E)); reflexivity.
Qed.

(** The selection and the rendering read these attributes of the session
    and no other. *)
Lemma selected_features_agree (E : Collaborators) (prompt model : string) (max_tokens : Z)
    (expected_edits : option (list string)) (w w' : World) :
  include_files (ctx w) = include_files (ctx w') ->
  ignore_files (ctx w) = ignore_files (ctx w') ->
  diff_context (ctx w) = diff_context (ctx w') ->
  code_map (ctx w) = code_map (ctx w') ->
  use_llm (ctx w) = use_llm (ctx w') ->
  auto_tokens (config w) = auto_tokens (config w') ->
  use_embeddings (config w) = use_embeddings (config w') ->
  selected_features E prompt model max_tokens expected_edits w
  = selected_features E prompt model max_tokens expected_edits w'
  /\ forall fs, rendered E (ctx w) fs = rendered E (ctx w') fs.
Proof.
  intros Hinc Hign Hdc Hcm Hllm Hauto Hemb.
  unfold selected_features, candidates_of, selectable_tokens_of, remaining_of,
    included_tokens_of, meta_tokens_of, include_features, rendered.
  now rewrite Hinc, Hign, Hdc, Hcm, Hllm, Hauto, Hemb.
Qed.

(** C2, as amended: two builds with equal checksums return the same
    message and select the same features (or both raise), provided that
    the digests of their settings have one length and are equal only for
    equal settings, and that the builds agree on what the checksum does not
    cover: the prompt, the model, the expected edits, the ignored files,
    the diff context, [config.no_code_map], and the outside world.  The
    features selected before, the stored message and the stream may
    differ. *)
Theorem equal_checksum_equal_result
    (E : Collaborators) (prompt model : string) (expected_edits : option (list string))
    (max_tokens1 max_tokens2 : Z) (w1 w2 : World) :
  code_message_checksum E w1 (Some max_tokens1) = code_message_checksum E w2 (Some max_tokens2) ->
  String.length (sha256 E (str_settings E (checksum_settings w1 (Some max_tokens1))))
  = String.length (sha256 E (str_settings E (checksum_settings w2 (Some max_tokens2)))) ->
  (sha256 E (str_settings E (checksum_settings w1 (Some max_tokens1)))
   = sha256 E (str_settings E (checksum_settings w2 (Some max_tokens2))) ->
   checksum_settings w1 (Some max_tokens1) = checksum_settings w2 (Some max_tokens2)) ->
  ignore_files (ctx w1) = ignore_files (ctx w2) ->
  diff_context (ctx w1) = diff_context (ctx w2) ->
  no_code_map (config w1) = no_code_map (config w2) ->
  same_result (_get_code_message E prompt model max_tokens1 expected_edits w1)
              (_get_code_message E prompt model max_tokens2 expected_edits w2).
Proof.
  intros Hsum Hlen Hinj Hign Hdc Hncm.
  unfold code_message_checksum in Hsum. cbv zeta in Hsum.
  apply string_append_suffix in Hsum; [|exact Hlen].
  apply Hinj in Hsum. unfold checksum_settings in Hsum.
  injection Hsum as _ Hauto Hemb Hllm _ _ Hmt Hinc. subst max_tokens2.
  rewrite !_get_code_message_run. cbv zeta.
  destruct (code_map_set_frame E (cache_cleared E (counted w1)))
    as (Hinc1 & Hign1 & Hdc1 & _ & Hllm1 & _ & _ & Hauto1 & Hemb1 & _).
  destruct (code_map_set_frame E (cache_cleared E (counted w2)))
    as (Hinc2 & Hign2 & Hdc2 & _ & Hllm2 & _ & _ & Hauto2 & Hemb2 & _).
  simpl in Hinc1, Hign1, Hdc1, Hllm1, Hauto1, Hemb1, Hinc2, Hign2, Hdc2, Hllm2, Hauto2, Hemb2.
  destruct (selected_features_agree E prompt model max_tokens1 expected_edits
              (code_map_set E (cache_cleared E (counted w1)))
              (code_map_set E (cache_cleared E (counted w2))))
    as [Hsel Hrender]; try congruence.
  { rewrite !code_map_after_set. simpl. now rewrite Hncm. }
  rewrite Hsel.
  destruct (selected_features E prompt model max_tokens1 expected_edits
              (code_map_set E (cache_cleared E (counted w2)))) as [fs|]; simpl; [|exact I].
  split; [apply Hrender|reflexivity].
Qed.

(** Two sessions of [Demo] whose last builds selected [a.py] at different
    levels, one of which holds a stored message: equal checksums, equal
    results. *)
Lemma equal_checksum_equal_result_demo :
  same_result
    (_get_code_message Demo.env "" "gpt-4" 20 None (built_before CODE None))
    (_get_code_message Demo.env "" "gpt-4" 20 None (built_before FILE_NAME (Some "stored"))).
Proof.
  apply (equal_checksum_equal_result Demo.env "" "gpt-4" None 20 20
           (built_before CODE None) (built_before FILE_NAME (Some "stored")));
    reflexivity || (intros _; reflexivity).
Defined.

(** ** The pinned features [include_files] *)

Section DictFacts.
Context {V : Type}.
Implicit Types (d : list (Path * V)) (k : Path) (v : V).

Lemma dict_mem_false d k : dict_mem d k = false <-> ~ In k (dict_keys d).
Proof.
  unfold dict_mem. induction d as [|[k' v'] d IH]; simpl.
  - split; [tauto|reflexivity].
  - destruct (decide (k = k')) as [->|Hne].
    + split; [discriminate|]. intros H. destruct H. now left.
    + rewrite IH. split; [|tauto]. intros H [Heq|Hin]; [congruence|tauto].
Qed.

Lemma dict_set_new d k v : dict_mem d k = false -> dict_set d k v = d ++ [(k, v)].
Proof.
  unfold dict_mem. induction d as [|[k' v'] d IH]; simpl; [reflexivity|].
  destruct (decide (k = k')); [discriminate|]. intros H. now rewrite IH.
Qed.

Lemma dict_get_last d k v : dict_mem d k = false -> dict_get (d ++ [(k, v)]) k = Some v.
Proof.
  unfold dict_mem. induction d as [|[k' v'] d IH]; simpl.
  - intros _. now rewrite decide_True.
  - destruct (decide (k = k')); [discriminate|]. exact IH.
Qed.

Lemma dict_set_last d k v v' :
  dict_mem d k = false -> dict_set (d ++ [(k, v)]) k v' = d ++ [(k, v')].
Proof.
  unfold dict_mem. induction d as [|[k' v''] d IH]; simpl.
  - intros _. now rewrite decide_True.
  - destruct (decide (k = k')); [discriminate|]. intros H. now rewrite IH.
Qed.

Lemma dict_del_incl d k x : In x (dict_del d k) -> In x d.
Proof.
  induction d as [|[k' v'] d IH]; simpl; [tauto|].
  destruct (decide (k = k')); [now right|].
  intros [<-|Hin]; [now left|right; now apply IH].
Qed.

Lemma dict_del_keys d k : List.NoDup (dict_keys d) -> List.NoDup (dict_keys (dict_del d k)).
Proof.
  induction d as [|[k' v'] d IH]; simpl; [auto|].
  intros Hnd. inversion Hnd as [|? ? Hnotin Hnd']; subst.
  destruct (decide (k = k')); [exact Hnd'|]. simpl. constructor; [|now apply IH].
  intros Hin. apply Hnotin. unfold dict_keys in *.
  apply List.in_map_iff in Hin as (x & Hx & Hin).
  apply List.in_map_iff. exists x. split; [exact Hx|]. now apply (dict_del_incl d k).
Qed.
End DictFacts.

Lemma ForallOrdPairs_app {A : Type} (R : A -> A -> Prop) (l1 l2 : list A) :
  ForallOrdPairs R l1 -> ForallOrdPairs R l2 ->
  (forall x y, In x l1 -> In y l2 -> R x y) ->
  ForallOrdPairs R (l1 ++ l2).
Proof.
  induction 1 as [|a l Ha Hl IH]; intros H2 Hcross; simpl; [exact H2|].
  constructor.
  - apply List.Forall_app. split; [exact Ha|].
    apply List.Forall_forall. intros y Hy. apply Hcross; [now left|exact Hy].
  - apply IH; [exact H2|]. intros x y Hx Hy. apply Hcross; [now right|exact Hy].
Qed.

Lemma ForallOrdPairs_impl {A : Type} (R S : A -> A -> Prop) (l : list A) :
  (forall a b, R a b -> S a b) -> ForallOrdPairs R l -> ForallOrdPairs S l.
Proof.
  intros HRS. induction 1 as [|a l Ha Hl IH]; constructor; [|exact IH].
  eapply List.Forall_impl; [|exact Ha]. apply HRS.
Qed.

(** In a well-formed dictionary no two features have the same path and
    overlapping intervals. *)
Lemma pins_well_formed_disjoint (d : list (Path * list CodeFeature)) :
  pins_well_formed d -> pins_disjoint d.
Proof.
  unfold pins_well_formed, pins_disjoint.
  induction d as [|[p fs] d IH]; intros [Hnd Hwf]; simpl; [constructor|].
  inversion Hnd as [|? ? Hnotin Hnd']; subst.
  destruct (Hwf p fs (or_introl eq_refl)) as [Hpath Hdisj].
  apply ForallOrdPairs_app.
  - eapply ForallOrdPairs_impl; [|exact Hdisj]. auto.
  - apply IH. split; [exact Hnd'|]. intros q gs Hin. apply Hwf. now right.
  - intros f g Hf Hg Heq. exfalso. apply Hnotin.
    apply in_concat in Hg as (gs & Hgs & Hg).
    apply List.in_map_iff in Hgs as ([q gs'] & <- & Hitem). simpl in Hg.
    destruct (Hwf q gs' (or_intror Hitem)) as [Hpath' _].
    rewrite <- (Hpath f Hf), Heq, (Hpath' g Hg).
    unfold dict_keys. apply List.in_map_iff. now exists (q, gs').
Qed.

Lemma pins_well_formed_app (d items : list (Path * list CodeFeature)) :
  pins_well_formed d -> pins_well_formed items ->
  (forall k, In k (dict_keys items) -> dict_mem d k = false) ->
  pins_well_formed (d ++ items).
Proof.
  intros [Hnd Hwf] [Hnd' Hwf'] Hnew. split.
  - unfold dict_keys in *. rewrite List.map_app.
    apply List.NoDup_app; [exact Hnd|exact Hnd'|].
    intros k Hk Hk'. apply (proj1 (dict_mem_false d k) (Hnew k Hk')). exact Hk.
  - intros p fs Hin. apply List.in_app_iff in Hin as [Hin|Hin]; auto.
Qed.

Lemma append_features_new (new_path : Path) (new_features acc : list CodeFeature)
    (d : list (Path * list CodeFeature)) :
  dict_mem d new_path = false ->
  append_features new_path new_features (d ++ [(new_path, acc)])
  = d ++ [(new_path, acc ++ new_features)].
Proof.
  intros Hnew. unfold append_features. revert acc.
  induction new_features as [|f fs IH]; intros acc; simpl.
  - now rewrite app_nil_r.
  - rewrite (dict_get_last d new_path acc Hnew). simpl.
    rewrite (dict_set_last d new_path acc _ Hnew), IH.
    now rewrite <- List.app_assoc.
Qed.

(** Including a path that is not pinned adds it at the end, with the
    features that the resolver returned for it. *)
Lemma include_item_new (d : list (Path * list CodeFeature)) (item : Path * list CodeFeature) :
  dict_mem d (fst item) = false -> include_item d item = d ++ [item].
Proof.
  destruct item as [new_path new_features]. simpl. intros Hnew.
  unfold include_item. rewrite Hnew. simpl.
  rewrite (dict_set_new d new_path [] Hnew).
  now rewrite (append_features_new new_path new_features [] d Hnew).
Qed.

Lemma include_items_new (items d : list (Path * list CodeFeature)) :
  List.NoDup (dict_keys items) ->
  (forall k, In k (dict_keys items) -> dict_mem d k = false) ->
  fold_left include_item items d = d ++ items.
Proof.
  revert d. induction items as [|[k fs] items IH]; intros d Hnd Hnew; cbn [fold_left].
  - now rewrite app_nil_r.
  - inversion Hnd as [|? ? Hnotin Hnd']; subst.
    rewrite (include_item_new d (k, fs)) by (apply Hnew; now left).
    rewrite IH; [now rewrite <- List.app_assoc|exact Hnd'|].
    intros k' Hk'. apply dict_mem_false. unfold dict_keys. rewrite List.map_app.
    intros Hin. apply List.in_app_iff in Hin as [Hin|[<-|[]]].
    + apply (proj1 (dict_mem_false d k')); [|exact Hin]. apply Hnew. now right.
    + now apply Hnotin.
Qed.

Lemma exclude_items_well_formed (keys removed : list Path)
    (d : list (Path * list CodeFeature)) :
  pins_well_formed d ->
  pins_well_formed (snd (fold_left exclude_item keys (removed, d))).
Proof.
  revert removed d. induction keys as [|k keys IH]; intros removed d Hwf; simpl; [exact Hwf|].
  destruct (dict_mem d k); [|now apply IH].
  apply IH. destruct Hwf as [Hnd Hwf]. split; [now apply dict_del_keys|].
  intros p fs Hin. apply Hwf. now apply (dict_del_incl d k).
Qed.

Lemma report_invalid_paths (l : list Path) (w : World) :
  exists r w', mapM (fun p => stream_send (InvalidPath p)) l w = Some (r, w')
               /\ ctx w' = ctx w.
Proof.
  revert w. induction l as [|p l IH]; intros w.
  - now exists [], w.
  - change (mapM (fun p => stream_send (InvalidPath p)) (p :: l) w)
      with (match stream_send (InvalidPath p) w with
            | Some (y, w1) =>
                match mapM (fun p => stream_send (InvalidPath p)) l w1 with
                | Some (k, w2) => Some (y :: k, w2)
                | None => None
                end
            | None => None
            end).
    unfold stream_send at 1.
    destruct (IH (mkWorld (ctx w) (config w) (stream w ++ [InvalidPath p]) (builder_calls w)))
      as (r & w' & -> & Hctx).
    exists (tt :: r), w'. split; [reflexivity|exact Hctx].
Qed.

(** [set_paths] replaces the pinned features by what the resolver
    returns. *)
Lemma set_paths_include_files (E : Collaborators) (paths exclude_paths ignore_paths : list Path)
    (w w' : World) :
  set_paths E paths exclude_paths ignore_paths w = Some (tt, w') ->
  exists paths', include_files (ctx w') = fst (get_include_files E paths' exclude_paths).
Proof.
  set (paths' :=
         if (match paths with [] => true | _ => false end)
            && (truthy (ctx_diff (ctx w)) || truthy (pr_diff (ctx w)))
            && (match files (diff_context (ctx w)) with [] => false | _ => true end)
         then files (diff_context (ctx w)) else paths).
  intros Hrun. exists paths'.
  assert (Hstep : set_paths E paths exclude_paths ignore_paths w
    = match mapM (fun p => stream_send (InvalidPath p))
              (snd (get_include_files E paths' exclude_paths))
              (mkWorld (set_include_files (fst (get_include_files E paths' exclude_paths))
                          (ctx w)) (config w) (stream w) (builder_calls w)) with
      | Some (_, w1) =>
          Some (tt, mkWorld (set_ignore_files (get_ignore_files E ignore_paths) (ctx w1))
                      (config w1) (stream w1) (builder_calls w1))
      | None => None
      end).
  { unfold set_paths. cbv beta iota zeta delta [mbind M_bind get_world]. fold paths'.
    destruct (get_include_files E paths' exclude_paths); reflexivity. }
  rewrite Hstep in Hrun.
  destruct (report_invalid_paths (snd (get_include_files E paths' exclude_paths))
              (mkWorld (set_include_files (fst (get_include_files E paths' exclude_paths))
                          (ctx w)) (config w) (stream w) (builder_calls w)))
    as (r & w1 & Hrep & Hctx).
  rewrite Hrep in Hrun. injection Hrun as <-. simpl. now rewrite Hctx.
Qed.


Lemma include_file_include_files (E : Collaborators) (p : Path) (w w' : World)
    (r : list Path * list Path) :
  include_file E p w = Some (r, w') ->
  include_files (ctx w')
  = fold_left include_item (fst (get_include_files E [p] [])) (include_files (ctx w)).
Proof.
  unfold include_file. destruct (get_include_files E [p] []) as [paths invalid_paths].
  cbv beta iota zeta delta [mbind M_bind mret M_ret modify_ctx].
  intros [= _ <-]. reflexivity.
Qed.

Lemma exclude_file_include_files (E : Collaborators) (p : Path) (w w' : World)
    (r : list Path * list Path) :
  exclude_file E p w = Some (r, w') ->
  include_files (ctx w')
  = snd (fold_left exclude_item (dict_keys (fst (get_include_files E [p] [])))
           ([], include_files (ctx w))).
Proof.
  unfold exclude_file. destruct (get_include_files E [p] []) as [paths invalid_paths].
  cbv beta iota zeta delta [mbind M_bind mret M_ret modify_ctx get_world]. simpl fst.
  destruct (fold_left exclude_item (dict_keys paths) ([], include_files (ctx w)))
    as [removed_paths include].
  intros [= _ <-]. reflexivity.
Qed.

(** Including [a.py] twice leaves two whole-file features of [a.py]. *)
Lemma include_file_twice_overlaps :
  exists w, reachable Demo.env w /\ ~ pins_disjoint (include_files (ctx w)).
Proof.
  destruct (include_file Demo.env Demo.a_py (Demo.new_world (mkConfig false None false)))
    as [[r1 w1]|] eqn:H1; [|vm_compute in H1; discriminate].
  destruct (include_file Demo.env Demo.a_py w1) as [[r2 w2]|] eqn:H2;
    [|vm_compute in H1; injection H1 as _ <-; vm_compute in H2; discriminate].
  exists w2. split.
  - eapply reachable_include_file; [|exact H2].
    eapply reachable_include_file; [|exact H1].
    now apply reachable_new.
  - vm_compute in H1. injection H1 as _ <-. vm_compute in H2. injection H2 as _ <-.
    unfold pins_disjoint. simpl. intros Hdisj.
    inversion Hdisj as [|f l Hf _]; subst.
    inversion Hf as [|g l' Hfg _]; subst.
    specialize (Hfg eq_refl). discriminate.
Qed.


Lemma dict_set_In {V : Type} (d : list (Path * V)) (k : Path) (v : V) (x : Path * V) :
  In x (dict_set d k v) -> x = (k, v) \/ In x d.
Proof.
  induction d as [|[k' v'] d IH]; simpl.
  - intros [<-|[]]. now left.
  - destruct (decide (k = k')).
    + intros [<-|Hin]; [now left|right; now right].
    + intros [<-|Hin]; [right; now left|].
      destruct (IH Hin); [now left|right; now right].
Qed.

Lemma dict_set_keys {V : Type} (d : list (Path * V)) (k : Path) (v : V) :
  List.NoDup (dict_keys d) -> List.NoDup (dict_keys (dict_set d k v)).
Proof.
  induction d as [|[k' v'] d IH]; simpl.
  - intros _. repeat constructor. intros [].
  - intros Hnd. inversion Hnd as [|? ? Hnotin Hnd']; subst.
    destruct (decide (k = k')) as [->|Hne]; simpl; [now constructor|].
    constructor; [|now apply IH].
    intros Hin. unfold dict_keys in Hin.
    apply List.in_map_iff in Hin as ([k'' v''] & Hk & Hin). simpl in Hk. subst k''.
    destruct (dict_set_In d k v _ Hin) as [[= ->]|Hin']; [congruence|].
    apply Hnotin. unfold dict_keys. apply List.in_map_iff. now exists (k', v'').
Qed.

Lemma demo_pins_well_formed (p : Path) :
  (forall f, In f (Demo.demo_pins p) -> path f = p)
  /\ pairwise_disjoint (Demo.demo_pins p).
Proof.
  unfold Demo.demo_pins. destruct (bool_decide (p = Demo.c_py)); split.
  - intros f [<-|[<-|[]]]; reflexivity.
  - repeat constructor.
  - intros f [<-|[]]; reflexivity.
  - repeat constructor.
Defined.

Lemma demo_resolver_well_formed : resolver_well_formed Demo.env.
Proof.
  intros paths exclude_paths. simpl. unfold Demo.demo_get_include_files. simpl.
  assert (Hfold : forall l d,
    (List.NoDup (dict_keys d) /\ forall p fs, In (p, fs) d -> fs = Demo.demo_pins p) ->
    List.NoDup (dict_keys (fold_left (fun d p => dict_set d p (Demo.demo_pins p)) l d))
    /\ forall p fs, In (p, fs) (fold_left (fun d p => dict_set d p (Demo.demo_pins p)) l d) ->
                    fs = Demo.demo_pins p).
  { induction l as [|q l IH]; intros d [Hnd Hd]; simpl; [now split|].
    apply IH. split; [now apply dict_set_keys|].
    intros p fs Hin. destruct (dict_set_In d q _ _ Hin) as [[= -> ->]|Hin']; auto. }
  destruct (Hfold (List.filter Demo.known_file paths) []) as [Hnd Hpins].
  { split; [constructor|]. intros p fs []. }
  split; [exact Hnd|]. intros p fs Hin. rewrite (Hpins p fs Hin).
  apply demo_pins_well_formed.
Defined.

(** ** The memory backend of the broadcaster *)

Section BackendFacts.
Context {Msg : Type}.
Implicit Types (b : Broadcast.MemoryBackend Msg) (ch : string) (e : Broadcast.Event Msg).

Lemma missed_insert b ch c (evs : list (Broadcast.Event Msg)) s q :
  Broadcast.missed
    (Broadcast.mkMemoryBackend s (<[ch := evs]> (Broadcast._missed_events b)) q) c
  = if decide (ch = c) then evs else Broadcast.missed b c.
Proof.
  unfold Broadcast.missed. simpl. destruct (decide (ch = c)) as [->|Hne].
  - now rewrite lookup_insert_eq.
  - now rewrite lookup_insert_ne.
Qed.

(** [publish] on a channel without subscription: the event goes to the
    end of the buffer of the channel. *)
Lemma backend_publish_buffered ch m b :
  ch ∉ Broadcast._subscribed b ->
  Broadcast.backend_publish ch m b
  = Some (Broadcast.mkMemoryBackend (Broadcast._subscribed b)
            (<[ch := Broadcast.missed b ch ++ [Broadcast.mkEvent ch m]]>
               (Broadcast._missed_events b))
            (Broadcast._published b)).
Proof.
  intros Hch. unfold Broadcast.backend_publish.
  now rewrite bool_decide_eq_false_2.
Qed.

(** [publish] on a subscribed channel: the event goes to the end of the
    queue. *)
Lemma backend_publish_queued ch m b q :
  ch ∈ Broadcast._subscribed b -> Broadcast._published b = Some q ->
  Broadcast.backend_publish ch m b
  = Some (Broadcast.mkMemoryBackend (Broadcast._subscribed b) (Broadcast._missed_events b)
            (Some (q ++ [Broadcast.mkEvent ch m]))).
Proof.
  intros Hch Hq. unfold Broadcast.backend_publish.
  now rewrite bool_decide_eq_true_2, Hq.
Qed.

Lemma republish_queued (evs : list (Broadcast.Event Msg)) b q :
  (forall e, In e evs -> Broadcast.channel e ∈ Broadcast._subscribed b) ->
  Broadcast._published b = Some q ->
  Broadcast.republish evs b
  = Some (Broadcast.mkMemoryBackend (Broadcast._subscribed b) (Broadcast._missed_events b)
            (Some (q ++ evs))).
Proof.
  revert b q. induction evs as [|e evs IH]; intros b q Hsub Hq; simpl.
  - rewrite app_nil_r, <- Hq. now destruct b.
  - rewrite (backend_publish_queued _ _ b q) by (try apply Hsub; auto; now left).
    rewrite (IH _ (q ++ [Broadcast.mkEvent (Broadcast.channel e) (Broadcast.message e)]));
      simpl; [|intros e' He'; apply Hsub; now right|reflexivity].
    rewrite <- List.app_assoc. now destruct e.
Qed.

(** [subscribe] on a connected backend: the buffer of the channel goes to
    the end of the queue, in its order, and is emptied. *)
Lemma backend_subscribe_run ch b q :
  Broadcast.buffers_by_channel b -> Broadcast._published b = Some q ->
  Broadcast.backend_subscribe ch b
  = Some (Broadcast.mkMemoryBackend ({[ch]} ∪ Broadcast._subscribed b)
            (<[ch := []]> (Broadcast._missed_events b))
            (Some (q ++ Broadcast.missed b ch))).
Proof.
  intros Hbuf Hq. unfold Broadcast.backend_subscribe.
  change (Broadcast.missed (Broadcast.mkMemoryBackend ({[ch]} ∪ Broadcast._subscribed b)
            (Broadcast._missed_events b) (Broadcast._published b)) ch)
    with (Broadcast.missed b ch).
  rewrite (republish_queued _ _ q); [reflexivity| |exact Hq].
  intros e He. simpl. rewrite (Hbuf ch e He).
  apply elem_of_union_l. now apply elem_of_singleton.
Qed.

(** One call other than [subscribe(ch)], on a connected backend that is
    not subscribed to [ch]: the buffer of [ch] grows by what the call
    publishes to [ch], and by nothing else. *)
Lemma backend_call_buffers ch (c : Broadcast.BackendCall Msg) b b' :
  Broadcast.buffers_by_channel b ->
  is_Some (Broadcast._published b) ->
  ch ∉ Broadcast._subscribed b ->
  c <> Broadcast.Subscribe ch ->
  Broadcast.backend_call c b = Some b' ->
  Broadcast.buffers_by_channel b'
  /\ is_Some (Broadcast._published b')
  /\ (ch ∉ Broadcast._subscribed b')
  /\ Broadcast.missed b' ch = Broadcast.missed b ch ++ Broadcast.published_to ch [c].
Proof.
  intros Hbuf [q Hq] Hch Hc. destruct c as [|c m|c|c|]; simpl.
  - intros [= <-]. simpl. rewrite app_nil_r. repeat split; eauto.
  - destruct (decide (c ∈ Broadcast._subscribed b)) as [Hin|Hout].
    + rewrite (backend_publish_queued c m b q Hin Hq). intros [= <-]. simpl.
      rewrite bool_decide_eq_false_2 by (intros ->; contradiction).
      rewrite app_nil_r. repeat split; eauto.
    + rewrite (backend_publish_buffered c m b Hout). intros [= <-]. simpl.
      split; [|split; [eauto|split; [exact Hch|]]].
      * intros c' e. rewrite missed_insert. destruct (decide (c = c')) as [->|_]; [|apply Hbuf].
        intros He. apply List.in_app_iff in He as [He|[<-|[]]]; [now apply Hbuf|reflexivity].
      * rewrite missed_insert. destruct (decide (c = ch)) as [->|Hne].
        -- now rewrite bool_decide_eq_true_2.
        -- rewrite bool_decide_eq_false_2 by exact Hne. now rewrite app_nil_r.
  - rewrite (backend_subscribe_run c b q Hbuf Hq). intros [= <-]. simpl.
    assert (Hne : c <> ch) by (intros ->; now apply Hc).
    split; [|split; [eauto|split]].
    + intros c' e. rewrite missed_insert. destruct (decide (c = c')); [intros []|apply Hbuf].
    + rewrite elem_of_union, elem_of_singleton. intros [Heq|Hin]; [congruence|contradiction].
    + rewrite missed_insert, app_nil_r. now destruct (decide (c = ch)).
  - unfold Broadcast.backend_unsubscribe.
    destruct (bool_decide (c ∈ Broadcast._subscribed b)); [|discriminate].
    intros [= <-]. simpl. rewrite app_nil_r.
    split; [exact Hbuf|split; [eauto|split; [|reflexivity]]].
    rewrite elem_of_difference. now intros [Hin _].
  - unfold Broadcast.backend_next_published. rewrite Hq.
    destruct q as [|e q']; [discriminate|]. intros [= <-]. simpl.
    rewrite app_nil_r. repeat split; eauto.
Qed.

Lemma published_to_cons ch (c : Broadcast.BackendCall Msg) cs :
  Broadcast.published_to ch (c :: cs)
  = Broadcast.published_to ch [c] ++ Broadcast.published_to ch cs.
Proof.
  destruct c as [|c m|c|c|]; simpl; try reflexivity.
  now destruct (bool_decide (c = ch)).
Qed.

Lemma backend_calls_buffer ch (cs : list (Broadcast.BackendCall Msg)) b b' :
  Broadcast.buffers_by_channel b ->
  is_Some (Broadcast._published b) ->
  ch ∉ Broadcast._subscribed b ->
  (forall c, In c cs -> c <> Broadcast.Subscribe ch) ->
  Broadcast.backend_calls cs b = Some b' ->
  Broadcast.buffers_by_channel b'
  /\ is_Some (Broadcast._published b')
  /\ (ch ∉ Broadcast._subscribed b')
  /\ Broadcast.missed b' ch = Broadcast.missed b ch ++ Broadcast.published_to ch cs.
Proof.
  revert b. induction cs as [|c cs IH]; intros b Hbuf Hq Hch Hcs; cbn [Broadcast.backend_calls].
  - intros [= <-]. simpl. rewrite app_nil_r. split; [|split; [|split]]; auto.
  - destruct (Broadcast.backend_call c b) as [b1|] eqn:Hcall; [|discriminate].
    destruct (backend_call_buffers ch c b b1 Hbuf Hq Hch) as (Hbuf1 & Hq1 & Hch1 & Hmissed1);
      [apply Hcs; now left|exact Hcall|].
    intros Hrest.
    destruct (IH b1 Hbuf1 Hq1 Hch1) as (Hbuf' & Hq' & Hch' & Hmissed');
      [intros c' Hc'; apply Hcs; now right|exact Hrest|].
    split; [exact Hbuf'|split; [exact Hq'|split; [exact Hch'|]]].
    now rewrite Hmissed', Hmissed1, (published_to_cons ch c cs), List.app_assoc.
Qed.
End BackendFacts.


(** C10: on a connected backend, the events published to a channel while
    it is not subscribed are buffered in the order of their publication,
    whatever else is called in between; the next [subscribe] to the
    channel puts every buffered event at the end of the queue, in that
    order, and empties the buffer. *)
Theorem buffered_events_republished {Msg : Type} (ch : string)
    (cs : list (Broadcast.BackendCall Msg)) (b b' : Broadcast.MemoryBackend Msg) :
  Broadcast.buffers_by_channel b ->
  is_Some (Broadcast._published b) ->
  ch ∉ Broadcast._subscribed b ->
  (forall c, In c cs -> c <> Broadcast.Subscribe ch) ->
  Broadcast.backend_calls cs b = Some b' ->
  Broadcast.missed b' ch = Broadcast.missed b ch ++ Broadcast.published_to ch cs
  /\ exists q b'',
       Broadcast._published b' = Some q
       /\ Broadcast.backend_subscribe ch b' = Some b''
       /\ Broadcast._published b'' = Some (q ++ Broadcast.missed b' ch)
       /\ Broadcast.missed b'' ch = []
       /\ ch ∈ Broadcast._subscribed b''.
Proof.
  intros Hbuf Hq Hch Hcs Hrun.
  destruct (backend_calls_buffer ch cs b b' Hbuf Hq Hch Hcs Hrun)
    as (Hbuf' & [q Hq'] & Hch' & Hmissed).
  split; [exact Hmissed|]. exists q. eexists. split; [exact Hq'|].
  split; [apply (backend_subscribe_run ch b' q Hbuf' Hq')|]. simpl.
  split; [reflexivity|]. split.
  - rewrite missed_insert. now rewrite decide_True.
  - apply elem_of_union_l. now apply elem_of_singleton.
Qed.

(** A new backend buffers nothing. *)
Lemma backend_init_buffers {Msg : Type} :
  Broadcast.buffers_by_channel
    (Broadcast.backend_connect (Broadcast.backend_init (Msg:=Msg))).
Proof. intros ch e. unfold Broadcast.missed. simpl. rewrite lookup_empty. intros []. Qed.

(** Two messages for the channel [a] around traffic on the channel [b]:
    they wait in the buffer of [a] and reach the queue, in their order,
    when [a] is subscribed. *)
Lemma buffered_events_republished_demo :
  exists b' q b'',
    Broadcast.backend_calls
      [Broadcast.Publish "a" "1"; Broadcast.Publish "b" "x"; Broadcast.Subscribe "b";
       Broadcast.Publish "a" "2"; Broadcast.NextPublished]
      (Broadcast.backend_connect Broadcast.backend_init) = Some b'
    /\ Broadcast.missed b' "a" = [Broadcast.mkEvent "a" "1"; Broadcast.mkEvent "a" "2"]
    /\ Broadcast._published b' = Some q
    /\ Broadcast.backend_subscribe "a" b' = Some b''
    /\ Broadcast._published b''
       = Some (q ++ [Broadcast.mkEvent "a" "1"; Broadcast.mkEvent "a" "2"])
    /\ Broadcast.missed b'' "a" = [].
Proof.
  destruct (Broadcast.backend_calls
              [Broadcast.Publish "a" "1"; Broadcast.Publish "b" "x"; Broadcast.Subscribe "b";
               Broadcast.Publish "a" "2"; Broadcast.NextPublished]
              (Broadcast.backend_connect (Broadcast.backend_init (Msg:=string))))
    as [b'|] eqn:Hrun; [|vm_compute in Hrun; discriminate].
  assert (Hcs : forall c,
            In c [Broadcast.Publish "a" "1"; Broadcast.Publish "b" "x";
                  Broadcast.Subscribe "b"; Broadcast.Publish "a" "2";
                  Broadcast.NextPublished] ->
            c <> Broadcast.Subscribe "a").
  { intros c Hc. simpl in Hc.
    repeat (destruct Hc as [<-|Hc]; [discriminate|]). contradiction. }
  destruct (buffered_events_republished "a" _ _ b' backend_init_buffers
              (ex_intro _ [] eq_refl) (not_elem_of_empty _) Hcs Hrun)
    as (Hmissed & q & b'' & Hq & Hsub & Hq'' & Hmissed'' & _).
  assert (Hbuf : Broadcast.missed b' "a"
                 = [Broadcast.mkEvent "a" "1"; Broadcast.mkEvent "a" "2"]).
  { rewrite Hmissed. reflexivity. }
  exists b', q, b''. rewrite <- Hbuf. auto 10.
Defined.

(** ** The broadcaster *)

Section BroadcastFacts.
Context {Msg : Type}.
Implicit Types (bc : Broadcast.Broadcast Msg) (ch : string).

Lemma backend_publish_subscribed ch (m : Msg) (b b' : Broadcast.MemoryBackend Msg) :
  Broadcast.backend_publish ch m b = Some b' ->
  Broadcast._subscribed b' = Broadcast._subscribed b.
Proof.
  unfold Broadcast.backend_publish.
  destruct (bool_decide (ch ∈ Broadcast._subscribed b)).
  - destruct (Broadcast._published b); [|discriminate]. now intros [= <-].
  - now intros [= <-].
Qed.

Lemma republish_subscribed (evs : list (Broadcast.Event Msg))
    (b b' : Broadcast.MemoryBackend Msg) :
  Broadcast.republish evs b = Some b' ->
  Broadcast._subscribed b' = Broadcast._subscribed b.
Proof.
  revert b. induction evs as [|e evs IH]; intros b; simpl; [now intros [= <-]|].
  destruct (Broadcast.backend_publish _ _ b) as [b1|] eqn:Hpub; [|discriminate].
  intros Hrest. rewrite (IH b1 Hrest). now apply backend_publish_subscribed in Hpub.
Qed.

Lemma backend_subscribe_subscribed ch (b b' : Broadcast.MemoryBackend Msg) :
  Broadcast.backend_subscribe ch b = Some b' ->
  Broadcast._subscribed b' = {[ch]} ∪ Broadcast._subscribed b.
Proof.
  unfold Broadcast.backend_subscribe.
  destruct (Broadcast.republish _ _) as [b1|] eqn:Hrep; [|discriminate].
  intros [= <-]. simpl. now apply republish_subscribed in Hrep.
Qed.

Lemma no_subscribers_insert (subs : gmap string (gset nat)) ch c (s : gset nat) :
  Broadcast.no_subscribers (<[ch := s]> subs) c
  = if decide (ch = c) then bool_decide (s = ∅) else Broadcast.no_subscribers subs c.
Proof.
  unfold Broadcast.no_subscribers. destruct (decide (ch = c)) as [->|Hne].
  - now rewrite lookup_insert_eq.
  - now rewrite lookup_insert_ne.
Qed.

Lemma no_subscribers_delete (subs : gmap string (gset nat)) ch c :
  Broadcast.no_subscribers (delete ch subs) c
  = if decide (ch = c) then true else Broadcast.no_subscribers subs c.
Proof.
  unfold Broadcast.no_subscribers. destruct (decide (ch = c)) as [->|Hne].
  - now rewrite lookup_delete_eq.
  - now rewrite lookup_delete_ne.
Qed.

Lemma nonempty_with (q : nat) (s : gset nat) : bool_decide ({[q]} ∪ s = ∅) = false.
Proof.
  apply bool_decide_eq_false_2. intros Hempty.
  assert (Hq : q ∈ ({[q]} ∪ s)) by (apply elem_of_union_l; now apply elem_of_singleton).
  rewrite Hempty in Hq. now apply not_elem_of_empty in Hq.
Qed.

(** Each step keeps the backend subscribed to exactly the channels that
    have a queue in [_subscribers]. *)
Lemma broadcast_step_registered (s : Broadcast.BroadcastStep Msg) bc bc' :
  Broadcast.subscribed_iff_registered bc ->
  Broadcast.broadcast_step s bc = Some bc' ->
  Broadcast.subscribed_iff_registered bc'.
Proof.
  intros Hinv. destruct s as [ch|ch q [|]|ch m|]; simpl.
  - unfold Broadcast.subscribe_enter.
    destruct (Broadcast.no_subscribers (Broadcast._subscribers bc) ch) eqn:Hnone.
    + destruct (Broadcast.backend_subscribe ch (Broadcast._backend bc)) as [b|] eqn:Hsub;
        [|discriminate].
      intros [= <-]. intros c. simpl.
      rewrite (backend_subscribe_subscribed ch _ b Hsub), !no_subscribers_insert.
      destruct (decide (ch = c)) as [->|Hne].
      * rewrite nonempty_with. split; [reflexivity|]. intros _.
        apply elem_of_union_l. now apply elem_of_singleton.
      * rewrite <- (Hinv c). rewrite elem_of_union, elem_of_singleton.
        split; [intros [Heq|Hin]; [congruence|exact Hin]|now right].
    + destruct (Broadcast._subscribers bc !! ch) as [s|] eqn:Hs; [|discriminate].
      intros [= <-]. intros c. simpl. rewrite no_subscribers_insert.
      destruct (decide (ch = c)) as [<-|Hne]; [|apply Hinv].
      rewrite nonempty_with. split; [reflexivity|]. intros _. now apply Hinv.
  - unfold Broadcast.subscribe_exit.
    destruct (Broadcast._subscribers bc !! ch) as [s|] eqn:Hs; [|discriminate].
    destruct (bool_decide (q ∈ s)) eqn:Hq; [|discriminate].
    rewrite no_subscribers_insert, decide_True by reflexivity.
    destruct (bool_decide (s ∖ {[q]} = ∅)) eqn:Hlast.
    + unfold Broadcast.backend_unsubscribe.
      destruct (bool_decide (ch ∈ Broadcast._subscribed (Broadcast._backend bc)));
        [|discriminate].
      intros [= <-]. intros c. simpl.
      rewrite no_subscribers_delete, no_subscribers_insert.
      rewrite elem_of_difference, elem_of_singleton.
      destruct (decide (ch = c)) as [<-|Hne].
      * split; [intros [_ Hne]; now destruct Hne|discriminate].
      * rewrite (Hinv c). split; [now intros [H _]|]. intros H. split; [exact H|congruence].
    + intros [= <-]. intros c. simpl. rewrite no_subscribers_insert.
      destruct (decide (ch = c)) as [<-|Hne]; [|apply Hinv].
      rewrite Hlast. split; [reflexivity|]. intros _. apply Hinv.
      unfold Broadcast.no_subscribers. rewrite Hs. apply bool_decide_eq_false_2.
      intros ->. apply bool_decide_eq_true in Hq. now apply not_elem_of_empty in Hq.
  - intros [= <-]. exact Hinv.
  - unfold Broadcast.publish.
    destruct (Broadcast.backend_publish ch m (Broadcast._backend bc)) as [b|] eqn:Hpub;
      [|discriminate].
    intros [= <-]. intros c. simpl.
    rewrite (backend_publish_subscribed ch m _ b Hpub). apply Hinv.
  - unfold Broadcast.listener_step, Broadcast.backend_next_published.
    destruct (Broadcast._published (Broadcast._backend bc)) as [[|e q]|]; try discriminate.
    intros [= <-]. exact Hinv.
Qed.

(** In every state that a new broadcaster reaches, whether subscribers
    leave normally or raising, the backend is subscribed to a channel
    exactly when [_subscribers] holds a queue for it. *)
Lemma broadcast_steps_registered (ss : list (Broadcast.BroadcastStep Msg)) bc' :
  Broadcast.broadcast_steps ss Broadcast.broadcast_init = Some bc' ->
  Broadcast.subscribed_iff_registered bc'.
Proof.
  assert (Hgen : forall bc, Broadcast.subscribed_iff_registered bc ->
                   Broadcast.broadcast_steps ss bc = Some bc' ->
                   Broadcast.subscribed_iff_registered bc').
  { induction ss as [|s ss IH]; intros bc Hinv; simpl; [now intros [= <-]|].
    destruct (Broadcast.broadcast_step s bc) as [bc1|] eqn:Hstep; [|discriminate].
    apply IH. now apply (broadcast_step_registered s bc). }
  apply Hgen. intros ch. simpl. unfold Broadcast.no_subscribers.
  rewrite lookup_empty. split; [intros H; now apply not_elem_of_empty in H|discriminate].
Qed.
End BroadcastFacts.


(** C9, at the input on which the code fails: one subscriber enters
    [subscribe("ch")] and the body of its [with] statement raises.  Had the
    body ended normally, the entry of [ch] would be deleted and the backend
    unsubscribed.  As it raised, only the [finally] clause ran: the queue
    got its final [None], but it is still in [_subscribers["ch"]] and the
    backend is still subscribed to [ch], although no subscriber is left.
    An event published afterwards is queued for this closed queue and is
    not buffered for the next subscriber. *)
Lemma subscription_outlives_raising_subscriber :
  exists queue bc1,
    Broadcast.subscribe_enter "ch" (Broadcast.broadcast_init (Msg:=string))
    = Some (queue, bc1)
    /\ "ch" ∈ Broadcast._subscribed (Broadcast._backend bc1)
    /\ (exists bc2,
          Broadcast.subscribe_exit "ch" queue bc1 = Some bc2
          /\ Broadcast._subscribers bc2 !! "ch" = None
          /\ "ch" ∉ Broadcast._subscribed (Broadcast._backend bc2))
    /\ (let bc2 := Broadcast.subscribe_exit_raising "ch" queue bc1 in
        Broadcast.queues bc2 !! queue = Some [None]
        /\ Broadcast._subscribers bc2 !! "ch" = Some {[queue]}
        /\ "ch" ∈ Broadcast._subscribed (Broadcast._backend bc2)
        /\ exists bc3 bc4,
             Broadcast.publish "ch" "late" bc2 = Some bc3
             /\ Broadcast.missed (Broadcast._backend bc3) "ch" = []
             /\ Broadcast.listener_step bc3 = Some bc4
             /\ Broadcast.queues bc4 !! queue
                = Some [None; Some (Broadcast.mkEvent "ch" "late")]).
Proof.
  eexists. eexists. split; [vm_compute; reflexivity|].
  split; [apply (bool_decide_unpack _); vm_compute; exact I|].
  split.
  - eexists. split; [vm_compute; reflexivity|]. split; [vm_compute; reflexivity|].
    intros Hin. apply (bool_decide_pack _) in Hin. vm_compute in Hin. exact Hin.
  - cbv zeta. split; [vm_compute; reflexivity|]. split; [vm_compute; reflexivity|].
    split; [apply (bool_decide_unpack _); vm_compute; exact I|].
    eexists. eexists. split; [vm_compute; reflexivity|].
    split; [vm_compute; reflexivity|]. split; vm_compute; reflexivity.
Qed.


(** Two subscribers of [ch], of which the first leaves normally and the
    second raising, with an event in between. *)
Lemma broadcast_steps_registered_demo :
  exists bc',
    Broadcast.broadcast_steps
      [Broadcast.Enter "ch"; Broadcast.Enter "ch";
       Broadcast.Leave "ch" 0 Broadcast.Normally;
       Broadcast.PublishTo "ch" "m"; Broadcast.Listen;
       Broadcast.Leave "ch" 1 Broadcast.Raising]
      Broadcast.broadcast_init = Some bc'
    /\ Broadcast.queues bc' !! 1%nat
       = Some [Some (Broadcast.mkEvent "ch" "m"); None]
    /\ Broadcast.subscribed_iff_registered bc'.
Proof.
  destruct (Broadcast.broadcast_steps
              [Broadcast.Enter "ch"; Broadcast.Enter "ch";
               Broadcast.Leave "ch" 0 Broadcast.Normally;
               Broadcast.PublishTo "ch" "m"; Broadcast.Listen;
               Broadcast.Leave "ch" 1 Broadcast.Raising]
              (Broadcast.broadcast_init (Msg:=string))) as [bc'|] eqn:Hrun;
    [|vm_compute in Hrun; discriminate].
  exists bc'. split; [reflexivity|]. split.
  - vm_compute in Hrun. injection Hrun as <-. vm_compute. reflexivity.
  - exact (broadcast_steps_registered _ bc' Hrun).
Defined.

(** ** Further properties of code_context.py *)

Lemma dict_mem_true {V : Type} (d : list (Path * V)) (k : Path) :
  dict_mem d k = true <-> In k (dict_keys d).
Proof.
  destruct (dict_mem d k) eqn:Hmem.
  - split; [|reflexivity]. intros _.
    destruct (decide (k ∈ dict_keys d)) as [Hin|Hout]; [now apply list_elem_of_In|].
    rewrite list_elem_of_In in Hout. apply dict_mem_false in Hout. congruence.
  - split; [discriminate|]. intros Hin. now apply dict_mem_false in Hmem.
Qed.

(** At a level other than [INTERVAL] the catalog holds one feature for
    every admitted path: the whole file at that level.  Such a feature
    carries the diff target exactly when its path is among the changed
    files of the diff, and is marked as included by the user exactly when
    its path is pinned. *)
Theorem get_all_features_at_level
    (E : Collaborators) (root : Path) (include : list (Path * list CodeFeature))
    (ignore : gset Path) (dc : DiffContext) (cmap : bool) (lvl : CodeMessageLevel)
    (max_chars : Z) :
  lvl <> INTERVAL ->
  (forall p, In p (get_non_gitignored_files E root) -> is_absolute p = false) ->
  exists l,
    _get_all_features E root include ignore dc cmap lvl max_chars = Some l
    /\ Permutation (List.map (whole_file_feature root include dc lvl)
                             (admitted_paths E root ignore max_chars)) l
    /\ forall f, In f l ->
         level f = lvl /\ interval f = None
         /\ (diff f = Some (target dc) <-> In (path f) (files dc))
         /\ (diff f = None <-> ~ In (path f) (files dc))
         /\ (user_included f = true <-> In (path f) (dict_keys include)).
Proof.
  intros Hlvl Hrel.
  assert (Hflat : flat_map (features_of_path E root include ignore dc cmap lvl max_chars)
                    (get_non_gitignored_files E root)
                  = List.map (whole_file_feature root include dc lvl)
                      (admitted_paths E root ignore max_chars)).
  { unfold admitted_paths. rewrite flat_map_admitted. clear Hrel.
    induction (get_non_gitignored_files E root) as [|p l IH]; [reflexivity|].
    cbn [List.filter]. destruct (admitted E root ignore max_chars p) eqn:Hp; [|apply IH].
    cbn [flat_map List.map]. rewrite IH. unfold features_of_path at 1.
    unfold admitted in Hp. apply negb_true_iff in Hp. rewrite Hp.
    destruct (decide (lvl = INTERVAL)); [contradiction|reflexivity]. }
  eexists. split; [apply get_all_features_sorted; [exact Hrel|congruence]|].
  rewrite Hflat. split; [apply stable_sort_perm|].
  intros f Hf.
  apply (Permutation_in _ (Permutation_sym (stable_sort_perm _ _ _))) in Hf.
  apply List.in_map_iff in Hf as (p & <- & _). unfold whole_file_feature. simpl.
  split; [reflexivity|]. split; [reflexivity|].
  rewrite <- list_elem_of_In.
  destruct (bool_decide (path_join root p ∈ files dc)) eqn:Hin.
  - apply bool_decide_eq_true in Hin. split; [tauto|]. split; [|apply dict_mem_true].
    split; [discriminate|]. intros Hout. now destruct Hout.
  - apply bool_decide_eq_false in Hin. split; [|split; [tauto|apply dict_mem_true]].
    split; [discriminate|]. intros Hout. now destruct Hin.
Qed.

(** The catalog of [Demo] at level [FILE_NAME], with [src/b.py] changed
    since the diff target and [a.py] pinned. *)
Lemma get_all_features_at_level_demo :
  exists l,
    _get_all_features Demo.env Demo.root
      [(Demo.a_py, [mkCodeFeature Demo.a_py None CODE None true])] ∅
      (diff_head [Demo.b_py]) true FILE_NAME 100000 = Some l
    /\ List.map (fun f => (path f, diff f, user_included f)) l
       = [(Demo.a_py, None, true); (Demo.b_py, Some "HEAD", false);
          (Demo.c_py, None, false)].
Proof.
  destruct (get_all_features_at_level Demo.env Demo.root
              [(Demo.a_py, [mkCodeFeature Demo.a_py None CODE None true])] ∅
              (diff_head [Demo.b_py]) true FILE_NAME 100000)
    as (l & Hl & _); [discriminate|exact demo_listing_relative|].
  exists l. split; [exact Hl|]. vm_compute in Hl. injection Hl as <-. reflexivity.
Defined.


(** [set_code_map] always returns, and running it again changes nothing:
    the warning about ctags is sent at most once in a session, because the
    first run records the failure in [config.no_code_map].  Afterwards
    [self.code_map] is the negation of [config.no_code_map], and a map that
    the configuration disables is never enabled. *)
Theorem set_code_map_idempotent (E : Collaborators) (w : World) :
  exists w1,
    set_code_map E w = Some (tt, w1)
    /\ set_code_map E w1 = Some (tt, w1)
    /\ code_map (ctx w1) = negb (no_code_map (config w1))
    /\ (no_code_map (config w) = true ->
        no_code_map (config w1) = true /\ stream w1 = stream w)
    /\ (stream w1 = stream w \/ stream w1 = stream w ++ [ctags_notice E]).
Proof.
  exists (code_map_set E w). rewrite !set_code_map_run.
  unfold code_map_set, ctags_notice.
  destruct w as [c [ncm auto emb] st n]. cbn [config no_code_map ctx stream].
  destruct ncm; cbn [config no_code_map ctx stream].
  - repeat split; auto.
  - destruct (truthy (check_ctags_disabled E)) eqn:Hctags;
      cbn [config no_code_map ctx stream set_no_code_map]; rewrite ?Hctags;
      repeat split; auto; discriminate.
Qed.

Lemma report_invalid_paths_run (l : list Path) (w : World) :
  mapM (fun p => stream_send (InvalidPath p)) l w
  = Some (List.map (fun _ => tt) l,
          mkWorld (ctx w) (config w) (stream w ++ List.map InvalidPath l) (builder_calls w)).
Proof.
  revert w. induction l as [|p l IH]; intros w.
  - simpl. rewrite app_nil_r. now destruct w.
  - change (mapM (fun p => stream_send (InvalidPath p)) (p :: l) w)
      with (match stream_send (InvalidPath p) w with
            | Some (y, w1) =>
                match mapM (fun p => stream_send (InvalidPath p)) l w1 with
                | Some (k, w2) => Some (y :: k, w2)
                | None => None
                end
            | None => None
            end).
    unfold stream_send at 1. rewrite IH. simpl.
    now rewrite <- List.app_assoc.
Qed.

(** [set_paths] never raises.  It replaces the pinned features by what the
    resolver returns for the given paths (for the changed files of the
    diff, when no path is given and a diff with changed files is set),
    replaces the ignored files, and reports every invalid path once, in
    the resolver's order.  It leaves the selected features, the stored
    message and its checksum as they are. *)
Theorem set_paths_effects (E : Collaborators) (paths exclude_paths ignore_paths : list Path)
    (w : World) :
  exists w',
    set_paths E paths exclude_paths ignore_paths w = Some (tt, w')
    /\ include_files (ctx w')
       = fst (get_include_files E (effective_paths (ctx w) paths) exclude_paths)
    /\ ignore_files (ctx w') = get_ignore_files E ignore_paths
    /\ stream w'
       = stream w ++ List.map InvalidPath
                       (snd (get_include_files E (effective_paths (ctx w) paths) exclude_paths))
    /\ features (ctx w') = features (ctx w)
    /\ _code_message (ctx w') = _code_message (ctx w)
    /\ _code_message_checksum (ctx w') = _code_message_checksum (ctx w)
    /\ diff_context (ctx w') = diff_context (ctx w)
    /\ config w' = config w.
Proof.
  assert (Hstep : set_paths E paths exclude_paths ignore_paths w
    = match mapM (fun p => stream_send (InvalidPath p))
              (snd (get_include_files E (effective_paths (ctx w) paths) exclude_paths))
              (mkWorld (set_include_files
                          (fst (get_include_files E (effective_paths (ctx w) paths)
                                  exclude_paths))
                          (ctx w)) (config w) (stream w) (builder_calls w)) with
      | Some (_, w1) =>
          Some (tt, mkWorld (set_ignore_files (get_ignore_files E ignore_paths) (ctx w1))
                      (config w1) (stream w1) (builder_calls w1))
      | None => None
      end).
  { unfold set_paths, effective_paths.
    cbv beta iota zeta delta [mbind M_bind get_world].
    destruct (get_include_files E _ exclude_paths); reflexivity. }
  rewrite Hstep, report_invalid_paths_run. eexists. split; [reflexivity|].
  simpl. repeat split.
Qed.


(** What a build that returns has done to the session.  It has counted
    one builder call, has cleared the cache of the diff context, has set
    [self.code_map] as [set_code_map] does, and has stored the features it
    selected; the message it returns is the preamble for the cleared diff
    context followed by the rendering of these features.  It has assigned
    no other attribute of the context: the pinned features, the ignored
    files and the stored message with its checksum are as before (the store
    is filled by [get_code_message], not by the build), and of the
    configuration it can only have set [no_code_map]. *)
Theorem build_frame
    (E : Collaborators) (prompt model : string) (max_tokens : Z)
    (expected_edits : option (list string)) (w : World) (m : string) (w' : World) :
  _get_code_message E prompt model max_tokens expected_edits w = Some (m, w') ->
  m = rendered E (ctx w') (features (ctx w'))
  /\ builder_calls w' = S (builder_calls w)
  /\ diff_context (ctx w') = clear_cache E (diff_context (ctx w))
  /\ code_map (ctx w')
     = negb (no_code_map (config w)) && negb (truthy (check_ctags_disabled E))
  /\ no_code_map (config w') = negb (code_map (ctx w'))
  /\ include_files (ctx w') = include_files (ctx w)
  /\ ignore_files (ctx w') = ignore_files (ctx w)
  /\ _code_message (ctx w') = _code_message (ctx w)
  /\ _code_message_checksum (ctx w') = _code_message_checksum (ctx w)
  /\ auto_tokens (config w') = auto_tokens (config w)
  /\ use_embeddings (config w') = use_embeddings (config w).
Proof.
  rewrite _get_code_message_run. cbv zeta.
  destruct (selected_features _ _ _ _ _ _) as [fs|]; [|discriminate].
  intros [= <- <-].
  destruct (code_map_set_frame E (cache_cleared E (counted w)))
    as (Hinc & Hign & Hdc & _ & _ & Hmsg & Hsum & Hauto & Hemb & Hcalls).
  pose proof (code_map_after_set E (cache_cleared E (counted w))) as Hmap.
  assert (Hno : no_code_map (config (code_map_set E (cache_cleared E (counted w))))
                = negb (code_map (ctx (code_map_set E (cache_cleared E (counted w)))))).
  { unfold code_map_set, cache_cleared, counted. destruct w as [c cfg st n]. simpl.
    destruct (no_code_map cfg) eqn:Hcfg; simpl; [exact Hcfg|].
    destruct (truthy (check_ctags_disabled E)); simpl; [reflexivity|exact Hcfg]. }
  cbn [ctx config stream builder_calls]. unfold rendered.
  cbn [features set_features diff_context code_map include_files ignore_files
       _code_message _code_message_checksum].
  split; [reflexivity|]. split; [exact Hcalls|]. split; [exact Hdc|].
  split; [exact Hmap|]. split; [exact Hno|].
  repeat (split; [assumption|]). exact Hemb.
Qed.

(** Pinning [a.py] and building with a budget of 20 tokens. *)
Lemma build_frame_demo :
  exists m w',
    _get_code_message Demo.env "" "gpt-4" 20 None (pinned_a (mkConfig false None false))
    = Some (m, w')
    /\ builder_calls w' = 1%nat
    /\ include_files (ctx w') = include_files (ctx (pinned_a (mkConfig false None false)))
    /\ code_map (ctx w') = true.
Proof.
  destruct (_get_code_message Demo.env "" "gpt-4" 20 None
              (pinned_a (mkConfig false None false))) as [[m w']|] eqn:Hrun;
    [|vm_compute in Hrun; discriminate].
  destruct (build_frame Demo.env "" "gpt-4" 20 None _ m w' Hrun)
    as (_ & Hcalls & _ & Hmap & _ & Hinc & _).
  exists m, w'. split; [reflexivity|]. split; [exact Hcalls|]. split; [exact Hinc|].
  rewrite Hmap. reflexivity.
Defined.

(** What one call of [get_code_message] does.  On a miss (no stored
    message, or a stored checksum that differs from the current one) the
    builder is entered exactly once; if it raises, the call raises and
    returns no stale message; if it returns, its message is returned and
    stored together with the checksum of the session as the build left
    it, so that the cache is valid at once.  On a hit the stored message is
    returned and the session does not change. *)
Theorem get_code_message_outcome
    (E : Collaborators) (prompt model : string) (max_tokens : Z)
    (expected_edits : option (list string)) (w : World) :
  if cache_miss E max_tokens w then
    match _get_code_message E prompt model max_tokens expected_edits w with
    | Some (m, w') =>
        exists w1,
          get_code_message E prompt model max_tokens expected_edits w = Some (m, w1)
          /\ _code_message (ctx w1) = Some m
          /\ _code_message_checksum (ctx w1)
             = Some (code_message_checksum E w1 (Some max_tokens))
          /\ cache_miss E max_tokens w1 = false
          /\ features (ctx w1) = features (ctx w')
          /\ builder_calls w1 = S (builder_calls w)
    | None => get_code_message E prompt model max_tokens expected_edits w = None
    end
  else
    exists m,
      _code_message (ctx w) = Some m
      /\ get_code_message E prompt model max_tokens expected_edits w = Some (m, w).
Proof.
  rewrite get_code_message_run.
  destruct (cache_miss E max_tokens w) eqn:Hmiss.
  - destruct (_get_code_message E prompt model max_tokens expected_edits w)
      as [[m w']|] eqn:Hbuilt; [|reflexivity].
    exists (cache_filled E max_tokens m w'). split; [reflexivity|].
    split; [reflexivity|]. split; [reflexivity|]. split.
    + unfold cache_miss. rewrite code_message_checksum_cache_filled. simpl.
      apply negb_false_iff, bool_decide_eq_true_2. reflexivity.
    + split; [reflexivity|]. simpl. now apply builder_calls_built in Hbuilt.
  - unfold cache_miss in Hmiss. apply orb_false_iff in Hmiss as [Hnone _].
    apply bool_decide_eq_false in Hnone.
    destruct (_code_message (ctx w)) as [m|]; [|contradiction].
    exists m. split; reflexivity.
Qed.


Section DictLookupFacts.
Context {V : Type}.
Implicit Types (d : list (Path * V)) (k : Path) (v : V).

Lemma dict_get_set_eq d k v : dict_get (dict_set d k v) k = Some v.
Proof.
  induction d as [|[k' v'] d IH]; simpl.
  - now rewrite decide_True.
  - destruct (decide (k = k')) as [->|Hne]; simpl.
    + now rewrite decide_True.
    + now rewrite decide_False.
Qed.

Lemma dict_get_set_ne d k k' v : k' <> k -> dict_get (dict_set d k v) k' = dict_get d k'.
Proof.
  intros Hne. induction d as [|[k'' v'] d IH]; simpl.
  - now rewrite decide_False.
  - destruct (decide (k = k'')) as [->|Hne']; simpl.
    + now rewrite !decide_False.
    + destruct (decide (k' = k'')); [reflexivity|exact IH].
Qed.

Lemma dict_get_del_ne d k k' : k' <> k -> dict_get (dict_del d k) k' = dict_get d k'.
Proof.
  intros Hne. induction d as [|[k'' v'] d IH]; simpl; [reflexivity|].
  destruct (decide (k = k'')) as [->|Hne']; simpl.
  - now rewrite decide_False.
  - destruct (decide (k' = k'')); [reflexivity|exact IH].
Qed.

Lemma dict_get_None d k : dict_get d k = None <-> ~ In k (dict_keys d).
Proof.
  rewrite <- dict_mem_false. unfold dict_mem.
  destruct (dict_get d k); split; congruence.
Qed.

Lemma dict_get_del_eq d k : List.NoDup (dict_keys d) -> dict_get (dict_del d k) k = None.
Proof.
  induction d as [|[k' v'] d IH]; simpl; [reflexivity|].
  intros Hnd. inversion Hnd as [|? ? Hnotin Hnd']; subst.
  destruct (decide (k = k')) as [->|Hne]; simpl.
  - now apply dict_get_None.
  - rewrite decide_False by exact Hne. now apply IH.
Qed.

Lemma dict_del_last d k v (rest : list (Path * V)) :
  ~ In k (dict_keys d) -> dict_del (d ++ (k, v) :: rest) k = d ++ rest.
Proof.
  induction d as [|[k' v'] d IH]; simpl.
  - intros _. now rewrite decide_True.
  - intros Hnotin. rewrite decide_False by (intros ->; apply Hnotin; now left).
    rewrite IH; [reflexivity|]. intros Hin. apply Hnotin. now right.
Qed.

Lemma dict_mem_last d k v (rest : list (Path * V)) :
  dict_mem (d ++ (k, v) :: rest) k = true.
Proof.
  apply dict_mem_true. unfold dict_keys. rewrite List.map_app.
  apply List.in_app_iff. right. now left.
Qed.
End DictLookupFacts.

Lemma append_features_get (k : Path) (fs l : list CodeFeature)
    (d : list (Path * list CodeFeature)) :
  dict_get d k = Some l ->
  dict_get (append_features k fs d) k = Some (l ++ fs)
  /\ forall k', k' <> k -> dict_get (append_features k fs d) k' = dict_get d k'.
Proof.
  unfold append_features. revert d l. induction fs as [|f fs IH]; intros d l Hl; simpl.
  - rewrite app_nil_r. auto.
  - rewrite Hl. simpl.
    destruct (IH (dict_set d k (l ++ [f])) (l ++ [f]) (dict_get_set_eq d k _)) as [H1 H2].
    split; [now rewrite H1, <- List.app_assoc|].
    intros k' Hne. rewrite (H2 k' Hne). now apply dict_get_set_ne.
Qed.

(** One resolved path: its features go to the end of those already pinned
    for it, and no other path is touched. *)
Lemma include_item_get (d : list (Path * list CodeFeature)) (k : Path)
    (fs : list CodeFeature) :
  dict_get (include_item d (k, fs)) k = Some (default [] (dict_get d k) ++ fs)
  /\ forall k', k' <> k -> dict_get (include_item d (k, fs)) k' = dict_get d k'.
Proof.
  unfold include_item, dict_mem.
  destruct (dict_get d k) as [l|] eqn:Hl; simpl.
  - now apply append_features_get.
  - destruct (append_features_get k fs [] (dict_set d k []) (dict_get_set_eq d k [])) as [H1 H2].
    split; [exact H1|]. intros k' Hne. rewrite (H2 k' Hne). now apply dict_get_set_ne.
Qed.

Lemma include_items_get (items d : list (Path * list CodeFeature)) :
  List.NoDup (dict_keys items) ->
  (forall k fs, In (k, fs) items ->
     dict_get (fold_left include_item items d) k = Some (default [] (dict_get d k) ++ fs))
  /\ (forall k, ~ In k (dict_keys items) ->
     dict_get (fold_left include_item items d) k = dict_get d k).
Proof.
  revert d. induction items as [|[k0 fs0] items IH]; intros d Hnd; cbn [fold_left].
  - split; [intros k fs []|reflexivity].
  - inversion Hnd as [|? ? Hnotin Hnd']; subst.
    destruct (IH (include_item d (k0, fs0)) Hnd') as [IH1 IH2].
    destruct (include_item_get d k0 fs0) as [Hk0 Hother].
    split.
    + intros k fs [[= <- <-]|Hin].
      * rewrite (IH2 k0 Hnotin). exact Hk0.
      * rewrite (IH1 k fs Hin), Hother; [reflexivity|].
        intros ->. apply Hnotin. unfold dict_keys. apply List.in_map_iff. now exists (k0, fs).
    + intros k Hk. rewrite IH2 by (intros Hin; apply Hk; now right).
      apply Hother. intros ->. apply Hk. now left.
Qed.

Section DictSetFacts.
Context {V : Type}.
Implicit Types (d : list (Path * V)) (k : Path) (v : V).

Lemma dict_set_same d k v : dict_get d k = Some v -> dict_set d k v = d.
Proof.
  induction d as [|[k' v'] d IH]; simpl; [discriminate|].
  destruct (decide (k = k')) as [->|Hne]; [now intros [= ->]|].
  intros Hget. now rewrite (IH Hget).
Qed.

Lemma dict_set_set d k v v' : dict_set (dict_set d k v) k v' = dict_set d k v'.
Proof.
  induction d as [|[k' v''] d IH]; simpl.
  - now rewrite decide_True.
  - destruct (decide (k = k')) as [->|Hne]; simpl.
    + now rewrite decide_True.
    + rewrite decide_False by exact Hne. now rewrite IH.
Qed.

Lemma dict_get_In d k v : dict_get d k = Some v -> In (k, v) d.
Proof.
  induction d as [|[k' v'] d IH]; simpl; [discriminate|].
  destruct (decide (k = k')) as [->|Hne]; [intros [= ->]; now left|].
  intros Hget. right. now apply IH.
Qed.
End DictSetFacts.

(** The inner loop of [include_file] on a path that is pinned: the new
    features go behind those of the path. *)
Lemma append_features_set (k : Path) (fs l : list CodeFeature)
    (d : list (Path * list CodeFeature)) :
  dict_get d k = Some l -> append_features k fs d = dict_set d k (l ++ fs).
Proof.
  unfold append_features. revert d l. induction fs as [|f fs IH]; intros d l Hl; simpl.
  - rewrite app_nil_r. symmetry. now apply dict_set_same.
  - rewrite Hl. simpl.
    rewrite (IH (dict_set d k (l ++ [f])) (l ++ [f]) (dict_get_set_eq d k _)).
    now rewrite dict_set_set, <- List.app_assoc.
Qed.

(** One resolved path whose features overlap none of those pinned for it
    keeps the pins well formed. *)
Lemma include_item_well_formed (d : list (Path * list CodeFeature)) (k : Path)
    (fs : list CodeFeature) :
  pins_well_formed d ->
  (forall f, In f fs -> path f = k) -> pairwise_disjoint fs ->
  (forall f g, In f (default [] (dict_get d k)) -> In g fs -> features_overlap f g = false) ->
  pins_well_formed (include_item d (k, fs)).
Proof.
  intros Hwf Hpath Hdisj Hcross.
  destruct (dict_get d k) as [l|] eqn:Hl.
  - assert (Hrun : include_item d (k, fs) = dict_set d k (l ++ fs)).
    { unfold include_item, dict_mem. rewrite Hl. simpl. now apply append_features_set. }
    rewrite Hrun. destruct Hwf as [Hnd Hwf]. split; [now apply dict_set_keys|].
    intros q gs Hin. apply dict_set_In in Hin as [[= -> ->]|Hin]; [|now apply Hwf].
    destruct (Hwf k l (dict_get_In d k l Hl)) as [Hpath_l Hdisj_l]. split.
    + intros f Hf. apply List.in_app_iff in Hf as [Hf|Hf]; auto.
    + apply ForallOrdPairs_app; [exact Hdisj_l|exact Hdisj|exact Hcross].
  - assert (Hnew : dict_mem d k = false) by (unfold dict_mem; now rewrite Hl).
    rewrite (include_item_new d (k, fs) Hnew).
    apply pins_well_formed_app; [exact Hwf| |].
    + split; [repeat constructor; intros []|].
      intros q gs [[= <- <-]|[]]. now split.
    + intros q [<-|[]]. exact Hnew.
Qed.

Lemma include_items_well_formed (items d : list (Path * list CodeFeature)) :
  pins_well_formed d -> pins_well_formed items ->
  (forall q fs f g, In (q, fs) items -> In f (default [] (dict_get d q)) -> In g fs ->
                    features_overlap f g = false) ->
  pins_well_formed (fold_left include_item items d).
Proof.
  revert d. induction items as [|[k fs] items IH]; intros d Hwf [Hnd Hitems] Hcross;
    cbn [fold_left]; [exact Hwf|].
  inversion Hnd as [|? ? Hnotin Hnd']; subst.
  destruct (Hitems k fs (or_introl eq_refl)) as [Hpath Hdisj].
  apply IH.
  - apply include_item_well_formed; [exact Hwf|exact Hpath|exact Hdisj|].
    intros f g. apply (Hcross k fs). now left.
  - split; [exact Hnd'|]. intros q gs Hin. apply Hitems. now right.
  - intros q gs f g Hin. destruct (include_item_get d k fs) as [_ Hother].
    rewrite Hother.
    + apply (Hcross q gs). now right.
    + intros ->. apply Hnotin. unfold dict_keys. apply List.in_map_iff. now exists (k, gs).
Qed.

Lemma pins_well_formed_without_overlap (E : Collaborators) (w : World) :
  resolver_well_formed E -> reachable_without_overlap E w ->
  pins_well_formed (include_files (ctx w)).
Proof.
  intros Hres. induction 1 as [w Hnew|w w' paths ex ig _ IH Hrun|w w' p r _ IH Hadds Hrun
                              |w w' p r _ IH Hrun].
  - rewrite Hnew. split; [constructor|]. intros p fs [].
  - apply set_paths_include_files in Hrun as [paths' ->]. apply Hres.
  - rewrite (include_file_include_files E p w w' r Hrun).
    apply include_items_well_formed; [exact IH|apply Hres|exact Hadds].
  - rewrite (exclude_file_include_files E p w w' r Hrun).
    now apply exclude_items_well_formed.
Qed.

Lemma ForallOrdPairs_app_inv {A : Type} (R : A -> A -> Prop) (l1 l2 : list A) :
  ForallOrdPairs R (l1 ++ l2) ->
  ForallOrdPairs R l1 /\ ForallOrdPairs R l2
  /\ forall x y, In x l1 -> In y l2 -> R x y.
Proof.
  induction l1 as [|a l1 IH]; simpl.
  - intros H. split; [constructor|]. split; [exact H|]. intros x y [].
  - intros H. inversion H as [|? ? Ha Hrest]; subst.
    destruct (IH Hrest) as (H1 & H2 & Hcross).
    apply List.Forall_app in Ha as [Ha1 Ha2].
    split; [now constructor|]. split; [exact H2|].
    intros x y [<-|Hx] Hy; [|now apply Hcross].
    rewrite List.Forall_forall in Ha2. now apply Ha2.
Qed.

(** Features that stand under one key, one before the other, are a pair
    of the invariant. *)
Lemma pins_disjoint_under_key (d : list (Path * list CodeFeature)) (k : Path)
    (l fs : list CodeFeature) (f g : CodeFeature) :
  pins_disjoint d -> In (k, l ++ fs) d -> In f l -> In g fs ->
  path f = path g -> features_overlap f g = false.
Proof.
  unfold pins_disjoint. intros Hdisj Hin Hf Hg.
  apply in_split in Hin as (d1 & d2 & ->).
  rewrite List.map_app, concat_app in Hdisj. simpl in Hdisj.
  apply ForallOrdPairs_app_inv in Hdisj as (_ & Hdisj & _).
  apply ForallOrdPairs_app_inv in Hdisj as (Hdisj & _ & _).
  apply ForallOrdPairs_app_inv in Hdisj as (_ & _ & Hcross).
  now apply Hcross.
Qed.

(** C5, as amended: in every session reached from a new context by
    [set_paths], [exclude_file], and those calls of [include_file] that add
    no feature overlapping one that is pinned for the same path, no two
    pinned features have the same path and overlapping intervals, given
    that the resolver [get_include_files] returns for each path features
    of that path that do not overlap.  Further ranges of a pinned file may
    be included, as long as they are disjoint from the pinned ones.  From
    such a session a call of [include_file] keeps the invariant exactly
    when it adds no feature that overlaps a pinned one: [include_file]
    appends to the features of a path without comparing intervals. *)
Theorem pins_disjoint_without_overlap (E : Collaborators) (w : World) :
  resolver_well_formed E -> reachable_without_overlap E w ->
  pins_disjoint (include_files (ctx w))
  /\ forall p r w',
       include_file E p w = Some (r, w') ->
       (pins_disjoint (include_files (ctx w')) <-> adds_disjoint E p w).
Proof.
  intros Hres Hreach.
  pose proof (pins_well_formed_without_overlap E w Hres Hreach) as Hwf.
  split; [now apply pins_well_formed_disjoint|].
  intros p r w' Hrun. split.
  - intros Hdisj q fs f g Hq Hf Hg.
    destruct (Hres [p] []) as [Hnd Hitems].
    destruct (Hitems q fs Hq) as [Hpath _].
    destruct (include_items_get (fst (get_include_files E [p] [])) (include_files (ctx w)) Hnd)
      as [Hget _].
    specialize (Hget q fs Hq).
    rewrite <- (include_file_include_files E p w w' r Hrun) in Hget.
    apply dict_get_In in Hget.
    apply (pins_disjoint_under_key _ q _ fs f g Hdisj Hget Hf Hg).
    rewrite (Hpath g Hg).
    destruct (dict_get (include_files (ctx w)) q) as [l|] eqn:Hl; [|destruct Hf].
    destruct Hwf as [_ Hwf]. now apply (Hwf q l (dict_get_In _ q l Hl)).
  - intros Hadds. apply pins_well_formed_disjoint.
    apply (pins_well_formed_without_overlap E w' Hres).
    now apply (without_overlap_include_file E w w' p r).
Qed.

Lemma ranges_resolver_well_formed : resolver_well_formed Demo.ranges_env.
Proof.
  intros paths exclude_paths.
  change (get_include_files Demo.ranges_env paths exclude_paths)
    with (Demo.ranges_get_include_files paths exclude_paths).
  unfold Demo.ranges_get_include_files.
  destruct paths as [|p [|p' paths]];
    try exact (demo_resolver_well_formed _ exclude_paths).
  destruct (Demo.range_of p) as [i|]; [|exact (demo_resolver_well_formed [p] exclude_paths)].
  split; [repeat constructor; intros []|].
  intros q fs [[= <- <-]|[]]. split.
  - intros f [<-|[]]. reflexivity.
  - repeat constructor.
Defined.

(** In the repository of [Demo], with the resolver that knows ranges of
    lines: the lines 1-10 of [src/c.py] are included, and then, while
    [src/c.py] is pinned, its lines 30-40.  The two ranges are pinned
    together, and nothing overlaps. *)
Lemma pins_disjoint_without_overlap_demo :
  exists w,
    reachable_without_overlap Demo.ranges_env w
    /\ List.map request (concat (List.map snd (include_files (ctx w))))
       = [(Demo.c_py, Some (1, 10)%Z, INTERVAL);
          (Demo.c_py, Some (30, 40)%Z, INTERVAL)]
    /\ pins_disjoint (include_files (ctx w)).
Proof.
  destruct (include_file Demo.ranges_env Demo.c_py_1_10
              (Demo.new_world (mkConfig false None false)))
    as [[r1 w1]|] eqn:H1; [|vm_compute in H1; discriminate].
  destruct (include_file Demo.ranges_env Demo.c_py_30_40 w1) as [[r2 w2]|] eqn:H2;
    [|vm_compute in H1; injection H1 as _ <-; vm_compute in H2; discriminate].
  assert (Hreach : reachable_without_overlap Demo.ranges_env w2).
  { eapply without_overlap_include_file; [| |exact H2].
    - eapply without_overlap_include_file; [| |exact H1].
      + now apply without_overlap_new.
      + intros q fs f g _ [].
    - vm_compute in H1. injection H1 as _ <-.
      intros q fs f g Hq Hf Hg. vm_compute in Hq. destruct Hq as [[= <- <-]|[]].
      vm_compute in Hf. destruct Hf as [<-|[]]. destruct Hg as [<-|[]]. reflexivity. }
  exists w2. split; [exact Hreach|]. split.
  - vm_compute in H1. injection H1 as _ <-. vm_compute in H2. injection H2 as _ <-.
    reflexivity.
  - exact (proj1 (pins_disjoint_without_overlap Demo.ranges_env w2
                    ranges_resolver_well_formed Hreach)).
Defined.

(** [include_file] never raises and only adds: for every path the
    resolver returns, its features are appended to those that were pinned
    for that path, and the features of all other paths stay.  It returns
    the resolved paths and the invalid ones, and sends nothing to the
    stream (the invalid paths are returned, not reported). *)
Theorem include_file_appends (E : Collaborators) (p : Path) (w : World) :
  List.NoDup (dict_keys (fst (get_include_files E [p] []))) ->
  exists w',
    include_file E p w
    = Some ((dict_keys (fst (get_include_files E [p] [])),
             snd (get_include_files E [p] [])), w')
    /\ (forall k fs, In (k, fs) (fst (get_include_files E [p] [])) ->
        dict_get (include_files (ctx w')) k
        = Some (default [] (dict_get (include_files (ctx w)) k) ++ fs))
    /\ (forall k, ~ In k (dict_keys (fst (get_include_files E [p] []))) ->
        dict_get (include_files (ctx w')) k = dict_get (include_files (ctx w)) k)
    /\ stream w' = stream w
    /\ features (ctx w') = features (ctx w)
    /\ _code_message (ctx w') = _code_message (ctx w).
Proof.
  intros Hnd. unfold include_file.
  destruct (get_include_files E [p] []) as [items invalid_paths]. simpl in *.
  cbv beta iota zeta delta [mbind M_bind mret M_ret modify_ctx].
  eexists. split; [reflexivity|]. simpl.
  destruct (include_items_get items (include_files (ctx w)) Hnd) as [H1 H2].
  repeat split; assumption.
Qed.

(** Including [a.py] where it is pinned already: the new whole-file
    feature comes after the old one. *)
Lemma include_file_appends_demo :
  exists w',
    include_file Demo.env Demo.a_py (pinned_a (mkConfig false None false))
    = Some (([Demo.a_py], []), w')
    /\ dict_get (include_files (ctx w')) Demo.a_py
       = Some [mkCodeFeature Demo.a_py None CODE None true;
               mkCodeFeature Demo.a_py None CODE None true]
    /\ dict_get (include_files (ctx w')) Demo.b_py = None.
Proof.
  destruct (include_file_appends Demo.env Demo.a_py (pinned_a (mkConfig false None false)))
    as (w' & Hrun & Hadd & Hkeep & _).
  - vm_compute. repeat constructor. intros [].
  - exists w'. split; [exact Hrun|]. split.
    + apply (Hadd Demo.a_py [mkCodeFeature Demo.a_py None CODE None true]). now left.
    + rewrite Hkeep; [reflexivity|]. vm_compute. intros [H|[]]. discriminate.
Defined.


Lemma exclude_items_get (keys removed : list Path) (d : list (Path * list CodeFeature)) :
  List.NoDup (dict_keys d) ->
  let result := fold_left exclude_item keys (removed, d) in
  List.NoDup (dict_keys (snd result))
  /\ (forall k, In k keys -> dict_get (snd result) k = None)
  /\ (forall k, ~ In k keys -> dict_get (snd result) k = dict_get d k)
  /\ (forall k, dict_get d k = None -> dict_get (snd result) k = None)
  /\ (forall k, In k (fst result) <-> In k removed \/ (In k keys /\ dict_mem d k = true)).
Proof.
  revert removed d. induction keys as [|k0 keys IH]; intros removed d Hnd; cbn [fold_left].
  - simpl. repeat split; auto; try tauto.
  - cbv zeta.
    assert (Hstep : exclude_item (removed, d) k0
                    = if dict_mem d k0 then (removed ++ [k0], dict_del d k0) else (removed, d))
      by reflexivity.
    rewrite Hstep. clear Hstep. destruct (dict_mem d k0) eqn:Hmem.
    + destruct (IH (removed ++ [k0]) (dict_del d k0) (dict_del_keys d k0 Hnd))
        as (Hnd' & Hgone & Hkeep & Hnone & Hremoved).
      assert (Hk0 : dict_get (dict_del d k0) k0 = None) by now apply dict_get_del_eq.
      split; [exact Hnd'|]. split; [|split; [|split]].
      * intros k [<-|Hin]; [now apply Hnone|now apply Hgone].
      * intros k Hk. rewrite Hkeep by (intros Hin; apply Hk; now right).
        apply dict_get_del_ne. intros ->. apply Hk. now left.
      * intros k Hk. apply Hnone. destruct (decide (k = k0)) as [->|Hne]; [exact Hk0|].
        now rewrite dict_get_del_ne.
      * intros k. rewrite Hremoved, List.in_app_iff. simpl.
        destruct (decide (k = k0)) as [->|Hne].
        -- split; [intros _; right; split; [now left|exact Hmem]|intros _; left; right; now left].
        -- unfold dict_mem. rewrite (dict_get_del_ne d k0 k Hne).
           split; [intros [[H|[H|[]]]|[H1 H2]]|intros [H|[[H|H] H2]]]; try congruence; auto.
    + destruct (IH removed d Hnd) as (Hnd' & Hgone & Hkeep & Hnone & Hremoved).
      split; [exact Hnd'|]. split; [|split; [|split; [exact Hnone|]]].
      * intros k [<-|Hin]; [|now apply Hgone].
        apply Hnone. unfold dict_mem in Hmem. now destruct (dict_get d k0).
      * intros k Hk. apply Hkeep. intros Hin. apply Hk. now right.
      * intros k. rewrite Hremoved. simpl.
        split; [intros [H|[H1 H2]]; auto|intros [H|[[H|H] H2]]; auto]. congruence.
Qed.

(** [exclude_file] never raises.  Afterwards none of the paths that the
    resolver returns is pinned, every other path keeps its features, and
    the paths it reports as removed are exactly the resolved paths that
    were pinned.  It sends nothing to the stream. *)
Theorem exclude_file_removes (E : Collaborators) (p : Path) (w : World) :
  List.NoDup (dict_keys (include_files (ctx w))) ->
  exists removed w',
    exclude_file E p w = Some ((removed, snd (get_include_files E [p] [])), w')
    /\ (forall k, In k (dict_keys (fst (get_include_files E [p] []))) ->
        dict_get (include_files (ctx w')) k = None)
    /\ (forall k, ~ In k (dict_keys (fst (get_include_files E [p] []))) ->
        dict_get (include_files (ctx w')) k = dict_get (include_files (ctx w)) k)
    /\ (forall k, In k removed <->
        In k (dict_keys (fst (get_include_files E [p] [])))
        /\ dict_mem (include_files (ctx w)) k = true)
    /\ stream w' = stream w.
Proof.
  intros Hnd. unfold exclude_file.
  destruct (get_include_files E [p] []) as [items invalid_paths]. simpl fst. simpl snd.
  cbv beta iota zeta delta [mbind M_bind mret M_ret modify_ctx get_world].
  destruct (exclude_items_get (dict_keys items) [] (include_files (ctx w)) Hnd)
    as (_ & Hgone & Hkeep & _ & Hremoved).
  destruct (fold_left exclude_item (dict_keys items) ([], include_files (ctx w)))
    as [removed include] eqn:Hfold.
  simpl in Hgone, Hkeep, Hremoved.
  exists removed. eexists. split; [reflexivity|]. simpl.
  split; [exact Hgone|]. split; [exact Hkeep|]. split; [|reflexivity].
  intros k. rewrite Hremoved. simpl. tauto.
Qed.

(** Excluding [a.py] where [a.py] is pinned. *)
Lemma exclude_file_removes_demo :
  exists w',
    exclude_file Demo.env Demo.a_py (pinned_a (mkConfig false None false))
    = Some (([Demo.a_py], []), w')
    /\ dict_get (include_files (ctx w')) Demo.a_py = None.
Proof.
  destruct (exclude_file_removes Demo.env Demo.a_py (pinned_a (mkConfig false None false)))
    as (removed & w' & Hrun & Hgone & _).
  - vm_compute. repeat constructor. intros [].
  - exists w'. split.
    + rewrite Hrun. vm_compute in Hrun. injection Hrun as <- _. reflexivity.
    + apply Hgone. vm_compute. now left.
Defined.

Lemma exclude_items_new (items include_d : list (Path * list CodeFeature))
    (removed : list Path) :
  List.NoDup (dict_keys items) ->
  (forall k, In k (dict_keys items) -> dict_mem include_d k = false) ->
  fold_left exclude_item (dict_keys items) (removed, include_d ++ items)
  = (removed ++ dict_keys items, include_d).
Proof.
  revert removed. induction items as [|[k fs] items IH]; intros removed Hnd Hnew;
    cbn [dict_keys List.map fold_left fst].
  - now rewrite !app_nil_r.
  - inversion Hnd as [|? ? Hnotin Hnd']; subst.
    assert (Hstep : exclude_item (removed, include_d ++ (k, fs) :: items) k
                    = (removed ++ [k], include_d ++ items)).
    { unfold exclude_item. rewrite dict_mem_last.
      now rewrite dict_del_last by (apply dict_mem_false, Hnew; now left). }
    rewrite Hstep. clear Hstep.
    fold (dict_keys items). rewrite IH; [|exact Hnd'|intros k' Hk'; apply Hnew; now right].
    now rewrite <- List.app_assoc.
Qed.

(** Including a path that resolves only to paths that are not pinned, and
    excluding it again, gives back the pinned features as they were;
    [exclude_file] reports as removed the paths that [include_file]
    reported as added. *)
Theorem include_then_exclude (E : Collaborators) (p : Path) (w : World) :
  List.NoDup (dict_keys (fst (get_include_files E [p] []))) ->
  resolves_to_new E p w ->
  exists added invalid w1 w2,
    include_file E p w = Some ((added, invalid), w1)
    /\ exclude_file E p w1 = Some ((added, invalid), w2)
    /\ include_files (ctx w2) = include_files (ctx w).
Proof.
  intros Hnd Hnew. unfold resolves_to_new in Hnew. unfold include_file, exclude_file.
  destruct (get_include_files E [p] []) as [items invalid_paths]. simpl in Hnd, Hnew.
  cbv beta iota zeta delta [mbind M_bind mret M_ret modify_ctx get_world].
  rewrite (include_items_new items (include_files (ctx w)) Hnd Hnew).
  do 4 eexists. split; [reflexivity|]. cbn [ctx include_files set_include_files].
  rewrite (exclude_items_new items (include_files (ctx w)) [] Hnd Hnew).
  split; reflexivity.
Qed.

(** In the repository of [Demo]: [src/c.py] is included next to the pinned
    [a.py] and excluded again. *)
Lemma include_then_exclude_demo :
  exists invalid w1 w2,
    include_file Demo.env Demo.c_py (pinned_a (mkConfig false None false))
    = Some (([Demo.c_py], invalid), w1)
    /\ exclude_file Demo.env Demo.c_py w1 = Some (([Demo.c_py], invalid), w2)
    /\ include_files (ctx w2) = include_files (ctx (pinned_a (mkConfig false None false))).
Proof.
  destruct (include_then_exclude Demo.env Demo.c_py (pinned_a (mkConfig false None false)))
    as (added & invalid & w1 & w2 & Hinc & Hexc & Hsame).
  - vm_compute. repeat constructor. intros [].
  - intros q Hq. vm_compute in Hq. destruct Hq as [<-|[]]. reflexivity.
  - assert (Hadded : added = [Demo.c_py]).
    { vm_compute in Hinc. now injection Hinc as <- _ _. }
    subst added. exists invalid, w1, w2. auto.
Defined.


(** [_get_include_features] returns, without changing the session, the
    pinned features rebuilt as included by the user: none is lost or
    repeated, they are sorted by the string of their path relative to the
    root, and those with equal strings keep the order of [include_files].
    Each of them repeats the path, interval and level of a feature pinned
    under some path [p], and carries the target of the diff exactly when an
    annotation of the diff for [p] intersects its interval, and no marker
    otherwise.  So, when the features are pinned under their own paths, a
    feature for whose path the diff has no annotation carries no marker,
    whatever the annotations of other paths are. *)
Theorem get_include_features_sorted (E : Collaborators) (w : World) :
  exists l,
    _get_include_features E w = Some (l, w)
    /\ Permutation (pinned_features (ctx w)) l
    /\ List.map request (pinned_features (ctx w))
       = List.map request (concat (List.map snd (include_files (ctx w))))
    /\ StronglySorted (in_relpath_order (git_root E)) l
    /\ (forall s,
        List.filter (fun f => String.eqb (relpath (path f) (git_root E)) s) l
        = List.filter (fun f => String.eqb (relpath (path f) (git_root E)) s)
            (pinned_features (ctx w)))
    /\ (forall f, In f l ->
        exists p fs g,
          In (p, fs) (include_files (ctx w)) /\ In g fs
          /\ request f = request g
          /\ user_included f = true
          /\ diff f
             = if existsb (fun a => intersects_opt a (interval g))
                     (get_annotations (diff_context (ctx w)) p)
               then Some (target (diff_context (ctx w))) else None)
    /\ ((forall p fs g, In (p, fs) (include_files (ctx w)) -> In g fs -> path g = p) ->
        forall f, In f l ->
          get_annotations (diff_context (ctx w)) (path f) = [] -> diff f = None).
Proof.
  exists (include_features E (ctx w)). split; [reflexivity|].
  assert (Hperm : Permutation (pinned_features (ctx w)) (include_features E (ctx w)))
    by apply include_features_perm.
  assert (Hpinned : forall f, In f (include_features E (ctx w)) ->
            exists p fs g, In (p, fs) (include_files (ctx w)) /\ In g fs
              /\ f = mkCodeFeature (path g) (interval g) (level g)
                       (if existsb (fun a => intersects_opt a (interval g))
                             (get_annotations (diff_context (ctx w)) p)
                        then Some (target (diff_context (ctx w))) else None) true).
  { intros f Hf. apply (Permutation_in _ (Permutation_sym Hperm)) in Hf.
    unfold pinned_features in Hf. apply in_flat_map in Hf as ([p fs] & Hitem & Hf).
    unfold include_features_of in Hf. apply List.in_map_iff in Hf as (g & <- & Hg).
    now exists p, fs, g. }
  split; [exact Hperm|]. split; [apply pinned_features_request|].
  split; [|split; [|split]].
  - apply stable_sort_sorted.
    + apply (strict_asym String.ltb).
    + apply (strict_le_trans String.ltb).
  - intros s. unfold include_features, py_sorted. apply stable_sort_filter.
    intros a b Ha Hb. apply String.eqb_eq in Ha, Hb. rewrite Ha, Hb.
    apply (ltb_irrefl (ltb:=String.ltb)).
  - intros f Hf. destruct (Hpinned f Hf) as (p & fs & g & Hitem & Hg & ->).
    exists p, fs, g. simpl. auto.
  - intros Hown f Hf Hnone.
    destruct (Hpinned f Hf) as (p & fs & g & Hitem & Hg & ->). simpl in *.
    now rewrite <- (Hown p fs g Hitem Hg), Hnone.
Qed.

Lemma pinned_first_perm (candidates : list CodeFeature) :
  Permutation candidates (pinned_first candidates).
Proof.
  unfold pinned_first. induction candidates as [|f l IH]; simpl; [constructor|].
  destruct (user_included f); simpl.
  - now constructor.
  - now apply Permutation_cons_app.
Qed.

Lemma pinned_first_keeps_pinned (candidates : list CodeFeature) :
  List.filter user_included (pinned_first candidates)
  = List.filter user_included candidates.
Proof.
  unfold pinned_first. rewrite List.filter_app.
  assert (Hnone : List.filter user_included
                    (List.filter (fun f => negb (user_included f)) candidates) = []).
  { induction candidates as [|f l IH]; [reflexivity|]. simpl.
    destruct (user_included f) eqn:Hf; simpl; [exact IH|]. now rewrite Hf. }
  rewrite Hnone, app_nil_r. clear Hnone.
  induction candidates as [|f l IH]; [reflexivity|]. simpl.
  destruct (user_included f) eqn:Hf; simpl; [|exact IH].
  rewrite Hf. now f_equal.
Qed.

(** When the selection is not skipped, the features of a build are what
    the selector returns for these arguments: the catalog at level
    [INTERVAL] (ranked by similarity when there is a prompt and embeddings
    are enabled) with the features the user included moved to the front,
    nothing lost, each group in its order; the pool
    [included_feature_tokens + auto_tokens]; and as fallback levels
    [FILE_NAME], preceded by [CMAP_FULL] and [CMAP] exactly when the code
    map is enabled.  The catalog and the pool are those of the diff context
    with its cache cleared. *)
Theorem build_asks_selector
    (E : Collaborators) (prompt model : string) (max_tokens : Z)
    (expected_edits : option (list string)) (w : World) (m : string) (w' : World) :
  _get_code_message E prompt model max_tokens expected_edits w = Some (m, w') ->
  selection_skipped (remaining_of E model max_tokens (ctx (cache_cleared E w)))
    (auto_tokens (config w)) = false ->
  exists catalog candidates,
    _get_all_features E (git_root E) (include_files (ctx w)) (ignore_files (ctx w))
      (clear_cache E (diff_context (ctx w))) (code_map (ctx w')) INTERVAL default_max_chars
    = Some catalog
    /\ candidates
       = (if negb (String.eqb prompt "") && use_embeddings (config w)
          then List.map fst (sorted_by_score E
                 (combine catalog (get_feature_similarity_scores E prompt catalog)))
          else catalog)
    /\ features (ctx w')
       = select E (use_llm (ctx w)) (pinned_first candidates)
           (selectable_tokens_of E model max_tokens (cache_cleared E w)) model
           (if code_map (ctx w') then [CMAP_FULL; CMAP; FILE_NAME] else [FILE_NAME])
           prompt expected_edits
    /\ Permutation candidates (pinned_first candidates)
    /\ List.filter user_included (pinned_first candidates)
       = List.filter user_included candidates
    /\ code_map (ctx w')
       = negb (no_code_map (config w)) && negb (truthy (check_ctags_disabled E)).
Proof.
  rewrite _get_code_message_run. cbv zeta. intros Hrun Hskip.
  destruct (build_inputs_prepared E model max_tokens w) as (Hinc & Hdc & Hauto & Hrem & Hpool).
  destruct (code_map_set_frame E (cache_cleared E (counted w)))
    as (Hinc1 & Hign1 & Hdc1 & _ & Hllm1 & _ & _ & _ & Hemb1 & _).
  cbn [cache_cleared counted ctx config set_diff_context include_files ignore_files
       diff_context use_llm] in Hinc1, Hign1, Hdc1, Hllm1, Hemb1.
  unfold selected_features in Hrun. rewrite Hrem, Hauto, Hskip in Hrun.
  unfold candidates_of in Hrun. rewrite Hinc1, Hign1, Hdc1, Hemb1, Hllm1, Hpool in Hrun.
  destruct (_get_all_features E (git_root E) (include_files (ctx w)) (ignore_files (ctx w))
              (clear_cache E (diff_context (ctx w)))
              (code_map (ctx (code_map_set E (cache_cleared E (counted w)))))
              INTERVAL default_max_chars) as [catalog|] eqn:Hcat; [|discriminate].
  injection Hrun as _ <-. cbn [ctx features set_features code_map].
  exists catalog. eexists. split; [exact Hcat|]. split; [reflexivity|].
  split; [|split; [apply pinned_first_perm|split]].
  - unfold pinned_first, alt_levels_of.
    now destruct (code_map (ctx (code_map_set E (cache_cleared E (counted w))))).
  - apply pinned_first_keeps_pinned.
  - rewrite code_map_after_set. reflexivity.
Qed.

(** The build of [Demo] with a budget of 20 tokens. *)
Lemma build_asks_selector_demo :
  exists m w',
    _get_code_message Demo.env "" "gpt-4" 20 None (pinned_a (mkConfig false None false))
    = Some (m, w')
    /\ List.map (fun f => (path f, level f)) (features (ctx w'))
       = [(Demo.a_py, CODE); (Demo.a_py, CODE); (Demo.b_py, CMAP_FULL); (Demo.c_py, FILE_NAME)].
Proof.
  destruct (_get_code_message Demo.env "" "gpt-4" 20 None
              (pinned_a (mkConfig false None false))) as [[m w']|] eqn:Hrun;
    [|vm_compute in Hrun; discriminate].
  destruct (build_asks_selector Demo.env "" "gpt-4" 20 None _ m w' Hrun)
    as (catalog & candidates & _); [reflexivity|].
  exists m, w'. split; [reflexivity|].
  vm_compute in Hrun. injection Hrun as _ <-. reflexivity.
Defined.

(** ** Delivery of the events *)

Section DeliveryFacts.
Context {Msg : Type}.
Implicit Types (bc : Broadcast.Broadcast Msg) (ch : string) (e : Broadcast.Event Msg).

Lemma put_nowait_lookup (q n : nat) (item : option (Broadcast.Event Msg))
    (qs : gmap nat (list (option (Broadcast.Event Msg)))) :
  Broadcast.put_nowait q item qs !! n
  = if decide (q = n) then Some (default [] (qs !! q) ++ [item]) else qs !! n.
Proof.
  unfold Broadcast.put_nowait. destruct (decide (q = n)) as [->|Hne].
  - now rewrite lookup_insert_eq.
  - now rewrite lookup_insert_ne.
Qed.

(** The loop of [_listener] over the queues of a channel: each of them
    gets the event once. *)
Lemma put_all_lookup (targets : list nat) e
    (qs : gmap nat (list (option (Broadcast.Event Msg)))) (n : nat) :
  NoDup targets ->
  fold_right (fun q qs => Broadcast.put_nowait q (Some e) qs) qs targets !! n
  = if bool_decide (n ∈ targets) then Some (default [] (qs !! n) ++ [Some e]) else qs !! n.
Proof.
  induction 1 as [|q targets Hq Hnodup IH]; cbn [fold_right].
  - rewrite bool_decide_eq_false_2; [reflexivity|]. apply not_elem_of_nil.
  - rewrite put_nowait_lookup. destruct (decide (q = n)) as [->|Hne].
    + rewrite bool_decide_eq_true_2 by apply list_elem_of_here.
      rewrite IH, bool_decide_eq_false_2 by exact Hq. reflexivity.
    + rewrite IH. destruct (decide (n ∈ targets)) as [Hin|Hout].
      * rewrite !bool_decide_eq_true_2; [reflexivity|now apply list_elem_of_further|exact Hin].
      * rewrite !bool_decide_eq_false_2; [reflexivity| |exact Hout].
        intros Hin. apply elem_of_cons in Hin as [->|Hin]; [now apply Hne|contradiction].
Qed.

(** One turn of the listener on a queue of published events that is not
    empty. *)
Lemma listener_step_run bc e (rest : list (Broadcast.Event Msg)) :
  Broadcast._published (Broadcast._backend bc) = Some (e :: rest) ->
  exists bc',
    Broadcast.listener_step bc = Some bc'
    /\ Broadcast._subscribers bc' = Broadcast._subscribers bc
    /\ Broadcast._backend bc'
       = Broadcast.mkMemoryBackend (Broadcast._subscribed (Broadcast._backend bc))
           (Broadcast._missed_events (Broadcast._backend bc)) (Some rest)
    /\ Broadcast.next_queue bc' = Broadcast.next_queue bc
    /\ forall n,
         Broadcast.queues bc' !! n
         = if bool_decide (n ∈ Broadcast.subscribers_of bc (Broadcast.channel e))
           then Some (Broadcast.queue_items bc n ++ [Some e])
           else Broadcast.queues bc !! n.
Proof.
  intros Hq. unfold Broadcast.listener_step, Broadcast.backend_next_published.
  rewrite Hq. eexists. split; [reflexivity|]. simpl.
  split; [reflexivity|]. split; [reflexivity|]. split; [reflexivity|].
  intros n. rewrite put_all_lookup by apply NoDup_elements.
  unfold Broadcast.subscribers_of, Broadcast.queue_items.
  destruct (decide (n ∈ default ∅ (Broadcast._subscribers bc !! Broadcast.channel e)))
    as [Hin|Hout].
  - rewrite !bool_decide_eq_true_2; [reflexivity|exact Hin|now apply elem_of_elements].
  - rewrite !bool_decide_eq_false_2; [reflexivity|exact Hout|now rewrite elem_of_elements].
Qed.
End DeliveryFacts.

(** A turn of the listener that returns has taken the oldest published
    event from the queue of the backend and has put it, once, at the end
    of every queue that [_subscribers] holds for the channel of the event;
    the other queues and [_subscribers] are as before. *)
Theorem listener_step_fans_out {Msg : Type} (bc bc' : Broadcast.Broadcast Msg) :
  Broadcast.listener_step bc = Some bc' ->
  exists e rest,
    Broadcast._published (Broadcast._backend bc) = Some (e :: rest)
    /\ Broadcast._published (Broadcast._backend bc') = Some rest
    /\ Broadcast._subscribers bc' = Broadcast._subscribers bc
    /\ forall n,
         Broadcast.queues bc' !! n
         = if bool_decide (n ∈ Broadcast.subscribers_of bc (Broadcast.channel e))
           then Some (Broadcast.queue_items bc n ++ [Some e])
           else Broadcast.queues bc !! n.
Proof.
  intros Hstep.
  destruct (Broadcast._published (Broadcast._backend bc)) as [[|e rest]|] eqn:Hq;
    try (unfold Broadcast.listener_step, Broadcast.backend_next_published in Hstep;
         rewrite Hq in Hstep; discriminate).
  destruct (listener_step_run bc e rest Hq) as (bc1 & Hrun & Hsubs & Hback & _ & Hqueues).
  rewrite Hrun in Hstep. injection Hstep as <-.
  exists e, rest. rewrite Hback. auto.
Qed.

Section DrainFacts.
Context {Msg : Type}.
Implicit Types (bc : Broadcast.Broadcast Msg) (ch : string) (e : Broadcast.Event Msg).

Lemma broadcast_steps_app (ss1 ss2 : list (Broadcast.BroadcastStep Msg)) bc :
  Broadcast.broadcast_steps (ss1 ++ ss2) bc
  = match Broadcast.broadcast_steps ss1 bc with
    | Some bc1 => Broadcast.broadcast_steps ss2 bc1
    | None => None
    end.
Proof.
  revert bc. induction ss1 as [|s ss1 IH]; intros bc; simpl; [reflexivity|].
  destruct (Broadcast.broadcast_step s bc); [apply IH|reflexivity].
Qed.

(** As many turns of the listener as events are waiting: every queue gets
    the events of the channels for which it is in [_subscribers], in the
    order of their publication. *)
Lemma listener_steps_drain (evs rest : list (Broadcast.Event Msg)) bc :
  Broadcast._published (Broadcast._backend bc) = Some (evs ++ rest) ->
  exists bc',
    Broadcast.broadcast_steps (List.repeat Broadcast.Listen (length evs)) bc = Some bc'
    /\ Broadcast._subscribers bc' = Broadcast._subscribers bc
    /\ Broadcast._backend bc'
       = Broadcast.mkMemoryBackend (Broadcast._subscribed (Broadcast._backend bc))
           (Broadcast._missed_events (Broadcast._backend bc)) (Some rest)
    /\ Broadcast.next_queue bc' = Broadcast.next_queue bc
    /\ forall n,
         Broadcast.queue_items bc' n
         = Broadcast.queue_items bc n
           ++ List.map Some
                (List.filter
                   (fun e => bool_decide (n ∈ Broadcast.subscribers_of bc (Broadcast.channel e)))
                   evs).
Proof.
  revert bc. induction evs as [|e evs IH]; intros bc Hq.
  - exists bc. split; [reflexivity|]. split; [reflexivity|].
    split; [destruct (Broadcast._backend bc); simpl in *; now subst|].
    split; [reflexivity|]. intros n. simpl. now rewrite app_nil_r.
  - destruct (listener_step_run bc e (evs ++ rest) Hq)
      as (bc1 & Hrun & Hsubs1 & Hback1 & Hnext1 & Hqueues1).
    destruct (IH bc1) as (bc' & Hsteps & Hsubs & Hback & Hnext & Hqueues).
    { now rewrite Hback1. }
    exists bc'. cbn [length List.repeat Broadcast.broadcast_steps Broadcast.broadcast_step].
    rewrite Hrun. split; [exact Hsteps|].
    split; [congruence|]. split; [now rewrite Hback, Hback1|]. split; [congruence|].
    intros n. rewrite Hqueues. cbn [List.filter].
    assert (Hof : forall c, Broadcast.subscribers_of bc1 c = Broadcast.subscribers_of bc c).
    { intros c. unfold Broadcast.subscribers_of. now rewrite Hsubs1. }
    assert (Hn : Broadcast.queue_items bc1 n
                 = Broadcast.queue_items bc n
                   ++ (if bool_decide (n ∈ Broadcast.subscribers_of bc (Broadcast.channel e))
                       then [Some e] else [])).
    { unfold Broadcast.queue_items at 1. rewrite Hqueues1.
      destruct (bool_decide _); [reflexivity|]. now rewrite app_nil_r. }
    assert (Hfilter :
              List.filter
                (fun e0 => bool_decide (n ∈ Broadcast.subscribers_of bc1 (Broadcast.channel e0)))
                evs
              = List.filter
                  (fun e0 => bool_decide (n ∈ Broadcast.subscribers_of bc (Broadcast.channel e0)))
                  evs).
    { apply List.filter_ext. intros e0. now rewrite Hof. }
    rewrite Hfilter, Hn, <- List.app_assoc. f_equal.
    now destruct (bool_decide _).
Qed.

(** Publications on a subscribed channel queue up in their order. *)
Lemma publishes_queued ch (ms : list Msg) bc (q : list (Broadcast.Event Msg)) :
  ch ∈ Broadcast._subscribed (Broadcast._backend bc) ->
  Broadcast._published (Broadcast._backend bc) = Some q ->
  Broadcast.broadcast_steps (List.map (Broadcast.PublishTo ch) ms) bc
  = Some (Broadcast.mkBroadcast (Broadcast._subscribers bc)
            (Broadcast.mkMemoryBackend (Broadcast._subscribed (Broadcast._backend bc))
               (Broadcast._missed_events (Broadcast._backend bc))
               (Some (q ++ List.map (Broadcast.mkEvent ch) ms)))
            (Broadcast.queues bc) (Broadcast.next_queue bc)).
Proof.
  revert bc q. induction ms as [|m ms IH]; intros bc q Hch Hq; simpl.
  - rewrite app_nil_r, <- Hq. destruct bc as [subs b qs n]. now destruct b.
  - unfold Broadcast.publish. rewrite (backend_publish_queued ch m _ q Hch Hq).
    rewrite (IH _ (q ++ [Broadcast.mkEvent ch m])); simpl; [|exact Hch|reflexivity].
    now rewrite <- List.app_assoc.
Qed.

(** Publications on a channel without subscription are buffered in their
    order and change nothing else. *)
Lemma publishes_buffered ch (ms : list Msg) bc :
  ch ∉ Broadcast._subscribed (Broadcast._backend bc) ->
  Broadcast.buffers_by_channel (Broadcast._backend bc) ->
  exists bc',
    Broadcast.broadcast_steps (List.map (Broadcast.PublishTo ch) ms) bc = Some bc'
    /\ Broadcast._subscribers bc' = Broadcast._subscribers bc
    /\ Broadcast.queues bc' = Broadcast.queues bc
    /\ Broadcast.next_queue bc' = Broadcast.next_queue bc
    /\ Broadcast._subscribed (Broadcast._backend bc')
       = Broadcast._subscribed (Broadcast._backend bc)
    /\ Broadcast._published (Broadcast._backend bc')
       = Broadcast._published (Broadcast._backend bc)
    /\ Broadcast.buffers_by_channel (Broadcast._backend bc')
    /\ Broadcast.missed (Broadcast._backend bc') ch
       = Broadcast.missed (Broadcast._backend bc) ch ++ List.map (Broadcast.mkEvent ch) ms.
Proof.
  revert bc. induction ms as [|m ms IH]; intros bc Hch Hbuf.
  - exists bc. simpl. rewrite app_nil_r. auto 10.
  - cbn [List.map Broadcast.broadcast_steps Broadcast.broadcast_step].
    unfold Broadcast.publish. rewrite (backend_publish_buffered ch m _ Hch).
    match goal with |- context [Broadcast.broadcast_steps _ ?bc1] =>
      destruct (IH bc1) as (bc' & Hsteps & Hsubs & Hqueues & Hnext & Hsubd & Hpub & Hbuf' & Hmissed)
    end.
    { exact Hch. }
    { intros c e. simpl. rewrite missed_insert.
      destruct (decide (ch = c)) as [->|_]; [|apply Hbuf].
      intros He. apply List.in_app_iff in He as [He|[<-|[]]]; [now apply Hbuf|reflexivity]. }
    exists bc'. split; [exact Hsteps|]. simpl in *.
    split; [exact Hsubs|]. split; [exact Hqueues|]. split; [exact Hnext|].
    split; [exact Hsubd|]. split; [exact Hpub|]. split; [exact Hbuf'|].
    rewrite Hmissed, missed_insert, decide_True by reflexivity.
    now rewrite <- List.app_assoc.
Qed.
End DrainFacts.
(** On a channel to which the backend is subscribed, with no event
    waiting, messages published one after the other and then as many turns
    of the listener put the events, in the order of their publication, at
    the end of every queue of the channel, and nothing on the other
    queues. *)
Theorem published_events_delivered_in_order {Msg : Type} (ch : string) (ms : list Msg)
    (bc : Broadcast.Broadcast Msg) :
  ch ∈ Broadcast._subscribed (Broadcast._backend bc) ->
  Broadcast._published (Broadcast._backend bc) = Some [] ->
  exists bc',
    Broadcast.broadcast_steps
      (List.map (Broadcast.PublishTo ch) ms ++ List.repeat Broadcast.Listen (length ms)) bc
    = Some bc'
    /\ Broadcast._published (Broadcast._backend bc') = Some []
    /\ forall n,
         Broadcast.queue_items bc' n
         = Broadcast.queue_items bc n
           ++ (if bool_decide (n ∈ Broadcast.subscribers_of bc ch)
               then List.map (fun m => Some (Broadcast.mkEvent ch m)) ms
               else []).
Proof.
  intros Hch Hq. rewrite broadcast_steps_app, (publishes_queued ch ms bc [] Hch Hq).
  match goal with |- context [Broadcast.broadcast_steps _ ?b] => set (bc1 := b) end.
  destruct (listener_steps_drain (List.map (Broadcast.mkEvent ch) ms) [] bc1)
    as (bc' & Hsteps & _ & Hback & _ & Hqueues).
  { simpl. now rewrite app_nil_r. }
  rewrite List.length_map in Hsteps. exists bc'. split; [exact Hsteps|].
  split; [now rewrite Hback|]. intros n. rewrite Hqueues.
  change (Broadcast.queue_items bc1 n) with (Broadcast.queue_items bc n). f_equal.
  change (Broadcast.subscribers_of bc1) with (Broadcast.subscribers_of bc).
  clear. induction ms as [|m ms IH]; simpl.
  - now destruct (bool_decide _).
  - destruct (bool_decide _); simpl; [now f_equal|exact IH].
Qed.
(** ** Entering and leaving [subscribe] *)

Section SubscribeFacts.
Context {Msg : Type}.
Implicit Types (bc : Broadcast.Broadcast Msg) (ch : string) (e : Broadcast.Event Msg)
  (b : Broadcast.MemoryBackend Msg).

Lemma queue_items_put (q n : nat) (item : option (Broadcast.Event Msg)) bc subs b next :
  Broadcast.queue_items
    (Broadcast.mkBroadcast subs b (Broadcast.put_nowait q item (Broadcast.queues bc)) next) n
  = if decide (q = n) then Broadcast.queue_items bc n ++ [item]
    else Broadcast.queue_items bc n.
Proof.
  unfold Broadcast.queue_items. simpl. rewrite put_nowait_lookup.
  now destruct (decide (q = n)) as [->|_].
Qed.

Lemma republish_connected (evs : list (Broadcast.Event Msg)) b :
  is_Some (Broadcast._published b) ->
  exists b', Broadcast.republish evs b = Some b' /\ is_Some (Broadcast._published b').
Proof.
  revert b. induction evs as [|e evs IH]; intros b [q Hq]; simpl; [eauto|].
  unfold Broadcast.backend_publish. rewrite Hq.
  destruct (bool_decide _); apply IH; simpl; eauto.
Qed.

(** [subscribe] does not raise on a connected backend. *)
Lemma backend_subscribe_connected ch b :
  is_Some (Broadcast._published b) ->
  exists b',
    Broadcast.backend_subscribe ch b = Some b'
    /\ is_Some (Broadcast._published b')
    /\ Broadcast._subscribed b' = {[ch]} ∪ Broadcast._subscribed b.
Proof.
  intros Hq. unfold Broadcast.backend_subscribe.
  match goal with |- context [Broadcast.republish ?evs ?b1] =>
    destruct (republish_connected evs b1 Hq) as (b' & Hrep & Hq')
  end.
  rewrite Hrep. eexists. split; [reflexivity|]. split; [exact Hq'|].
  simpl. now apply republish_subscribed in Hrep.
Qed.

(** Entering [subscribe] on a channel without subscribers. *)
Lemma subscribe_enter_first ch bc b' :
  Broadcast.no_subscribers (Broadcast._subscribers bc) ch = true ->
  Broadcast.backend_subscribe ch (Broadcast._backend bc) = Some b' ->
  Broadcast.subscribe_enter ch bc
  = Some (Broadcast.next_queue bc,
          Broadcast.mkBroadcast
            (<[ch := {[Broadcast.next_queue bc]}]> (Broadcast._subscribers bc)) b'
            (<[Broadcast.next_queue bc := []]> (Broadcast.queues bc))
            (S (Broadcast.next_queue bc))).
Proof.
  intros Hnone Hsub. unfold Broadcast.subscribe_enter. rewrite Hnone, Hsub.
  rewrite lookup_insert_eq, insert_insert_eq. simpl. now rewrite union_empty_r_L.
Qed.

(** Entering [subscribe] on a channel that has subscribers. *)
Lemma subscribe_enter_next ch bc (s : gset nat) :
  Broadcast._subscribers bc !! ch = Some s -> s <> ∅ ->
  Broadcast.subscribe_enter ch bc
  = Some (Broadcast.next_queue bc,
          Broadcast.mkBroadcast
            (<[ch := {[Broadcast.next_queue bc]} ∪ s]> (Broadcast._subscribers bc))
            (Broadcast._backend bc)
            (<[Broadcast.next_queue bc := []]> (Broadcast.queues bc))
            (S (Broadcast.next_queue bc))).
Proof.
  intros Hs Hne. unfold Broadcast.subscribe_enter, Broadcast.no_subscribers.
  now rewrite Hs, bool_decide_eq_false_2.
Qed.

Lemma without_new (n : nat) (s : gset nat) : n ∉ s -> ({[n]} ∪ s) ∖ {[n]} = s.
Proof.
  intros Hn. apply set_eq. intros x.
  rewrite elem_of_difference, elem_of_union, elem_of_singleton. split.
  - intros [[->|Hx] Hne]; [now destruct Hne|exact Hx].
  - intros Hx. split; [now right|]. intros ->. contradiction.
Qed.

Lemma without_only (n : nat) : ({[n]} : gset nat) ∖ {[n]} = ∅.
Proof.
  apply set_eq. intros x. rewrite elem_of_difference, elem_of_singleton. split.
  - now intros [-> Hne].
  - intros Hx. now apply not_elem_of_empty in Hx.
Qed.

(** The normal exit of the last subscriber of a channel. *)
Lemma subscribe_exit_last ch (n : nat) bc :
  Broadcast._subscribers bc !! ch = Some {[n]} ->
  ch ∈ Broadcast._subscribed (Broadcast._backend bc) ->
  Broadcast.subscribe_exit ch n bc
  = Some (Broadcast.mkBroadcast (delete ch (Broadcast._subscribers bc))
            (Broadcast.mkMemoryBackend
               (Broadcast._subscribed (Broadcast._backend bc) ∖ {[ch]})
               (Broadcast._missed_events (Broadcast._backend bc))
               (Broadcast._published (Broadcast._backend bc)))
            (Broadcast.put_nowait n None (Broadcast.queues bc))
            (Broadcast.next_queue bc)).
Proof.
  intros Hs Hch. unfold Broadcast.subscribe_exit, Broadcast.backend_unsubscribe.
  rewrite Hs, bool_decide_eq_true_2 by now apply elem_of_singleton.
  rewrite no_subscribers_insert, decide_True by reflexivity.
  rewrite without_only, bool_decide_eq_true_2 by reflexivity.
  rewrite bool_decide_eq_true_2 by exact Hch. now rewrite delete_insert_eq.
Qed.

(** The normal exit of a subscriber that is not the last of its
    channel. *)
Lemma subscribe_exit_other ch (n : nat) bc (s : gset nat) :
  Broadcast._subscribers bc !! ch = Some ({[n]} ∪ s) -> n ∉ s -> s <> ∅ ->
  Broadcast.subscribe_exit ch n bc
  = Some (Broadcast.mkBroadcast (<[ch := s]> (Broadcast._subscribers bc))
            (Broadcast._backend bc)
            (Broadcast.put_nowait n None (Broadcast.queues bc))
            (Broadcast.next_queue bc)).
Proof.
  intros Hs Hn Hne. unfold Broadcast.subscribe_exit.
  rewrite Hs, bool_decide_eq_true_2
    by (apply elem_of_union_l; now apply elem_of_singleton).
  rewrite no_subscribers_insert, decide_True by reflexivity.
  rewrite (without_new n s Hn). now rewrite bool_decide_eq_false_2.
Qed.

(** Each step keeps the backend connected, keeps [_subscribers] free of
    empty sets, and registers only queues that exist. *)
Lemma broadcast_step_queues_registered (st : Broadcast.BroadcastStep Msg) bc bc' :
  is_Some (Broadcast._published (Broadcast._backend bc)) ->
  Broadcast.queues_registered bc ->
  Broadcast.broadcast_step st bc = Some bc' ->
  is_Some (Broadcast._published (Broadcast._backend bc'))
  /\ Broadcast.queues_registered bc'.
Proof.
  intros Hq Hreg. destruct st as [ch|ch n [|]|ch m|]; simpl.
  - destruct (Broadcast._subscribers bc !! ch) as [s|] eqn:Hs.
    + destruct (Hreg ch s Hs) as [Hne Hlt].
      rewrite (subscribe_enter_next ch bc s Hs Hne). intros [= <-]. simpl.
      split; [exact Hq|]. intros c s'. simpl.
      destruct (decide (ch = c)) as [<-|Hc].
      * rewrite lookup_insert_eq. intros [= <-]. split.
        -- intros Hempty. pose proof (nonempty_with (Broadcast.next_queue bc) s) as Hwith.
           now rewrite Hempty, bool_decide_eq_true_2 in Hwith.
        -- intros x. rewrite elem_of_union, elem_of_singleton.
           intros [->|Hx]; [lia|]. specialize (Hlt x Hx). lia.
      * rewrite lookup_insert_ne by exact Hc. intros Hs'.
        destruct (Hreg c s' Hs') as [Hne' Hlt']. split; [exact Hne'|].
        intros x Hx. specialize (Hlt' x Hx). lia.
    + destruct (backend_subscribe_connected ch (Broadcast._backend bc) Hq)
        as (b' & Hsub & Hq' & _).
      rewrite (subscribe_enter_first ch bc b'); [|unfold Broadcast.no_subscribers; now rewrite Hs|exact Hsub].
      intros [= <-]. simpl. split; [exact Hq'|]. intros c s'. simpl.
      destruct (decide (ch = c)) as [<-|Hc].
      * rewrite lookup_insert_eq. intros [= <-]. split.
        -- intros Hempty.
           assert (Hin : Broadcast.next_queue bc ∈ ({[Broadcast.next_queue bc]} : gset nat))
             by now apply elem_of_singleton.
           rewrite Hempty in Hin. now apply not_elem_of_empty in Hin.
        -- intros x. rewrite elem_of_singleton. intros ->. lia.
      * rewrite lookup_insert_ne by exact Hc. intros Hs'.
        destruct (Hreg c s' Hs') as [Hne' Hlt']. split; [exact Hne'|].
        intros x Hx. specialize (Hlt' x Hx). lia.
  - unfold Broadcast.subscribe_exit.
    destruct (Broadcast._subscribers bc !! ch) as [s|] eqn:Hs; [|discriminate].
    destruct (bool_decide (n ∈ s)); [|discriminate].
    rewrite no_subscribers_insert, decide_True by reflexivity.
    destruct (Hreg ch s Hs) as [_ Hlt].
    destruct (bool_decide (s ∖ {[n]} = ∅)) eqn:Hlast.
    + unfold Broadcast.backend_unsubscribe.
      destruct (bool_decide (ch ∈ _)); [|discriminate].
      intros [= <-]. simpl. split; [exact Hq|]. intros c s'. simpl.
      destruct (decide (ch = c)) as [<-|Hc]; [now rewrite lookup_delete_eq|].
      rewrite lookup_delete_ne, lookup_insert_ne by exact Hc. apply Hreg.
    + intros [= <-]. simpl. split; [exact Hq|]. intros c s'. simpl.
      destruct (decide (ch = c)) as [<-|Hc];
        [|rewrite lookup_insert_ne by exact Hc; apply Hreg].
      rewrite lookup_insert_eq. intros [= <-]. split.
      * now apply bool_decide_eq_false in Hlast.
      * intros x Hx. apply elem_of_difference in Hx as [Hx _]. now apply Hlt.
  - intros [= <-]. simpl. split; [exact Hq|exact Hreg].
  - unfold Broadcast.publish, Broadcast.backend_publish. destruct Hq as [q Hq]. rewrite Hq.
    destruct (bool_decide _); intros [= <-]; simpl; (split; [eauto|exact Hreg]).
  - unfold Broadcast.listener_step, Broadcast.backend_next_published.
    destruct (Broadcast._published (Broadcast._backend bc)) as [[|e q]|]; try discriminate.
    intros [= <-]. simpl. split; [eauto|exact Hreg].
Qed.

(** What holds in every state that a new, connected broadcaster
    reaches. *)
Lemma broadcast_steps_reach (ss : list (Broadcast.BroadcastStep Msg)) bc :
  Broadcast.broadcast_steps ss Broadcast.broadcast_init = Some bc ->
  is_Some (Broadcast._published (Broadcast._backend bc))
  /\ Broadcast.queues_registered bc
  /\ Broadcast.subscribed_iff_registered bc.
Proof.
  assert (Hgen : forall bc0,
            is_Some (Broadcast._published (Broadcast._backend bc0)) ->
            Broadcast.queues_registered bc0 ->
            Broadcast.subscribed_iff_registered bc0 ->
            Broadcast.broadcast_steps ss bc0 = Some bc ->
            is_Some (Broadcast._published (Broadcast._backend bc))
            /\ Broadcast.queues_registered bc
            /\ Broadcast.subscribed_iff_registered bc).
  { induction ss as [|st ss IH]; intros bc0 Hq Hreg Hinv; simpl; [intros [= <-]; auto|].
    destruct (Broadcast.broadcast_step st bc0) as [bc1|] eqn:Hstep; [|discriminate].
    destruct (broadcast_step_queues_registered st bc0 bc1 Hq Hreg Hstep) as [Hq1 Hreg1].
    apply IH; [exact Hq1|exact Hreg1|]. now apply (broadcast_step_registered st bc0). }
  apply Hgen.
  - simpl. eauto.
  - intros ch s. simpl. now rewrite lookup_empty.
  - intros ch. simpl. unfold Broadcast.no_subscribers. rewrite lookup_empty.
    split; [intros H; now apply not_elem_of_empty in H|discriminate].
Qed.

Lemma subscriber_aiter_events (events : list (Broadcast.Event Msg))
    (rest : list (option (Broadcast.Event Msg))) :
  Broadcast.subscriber_aiter (List.map Some events ++ rest)
  = (events ++ fst (Broadcast.subscriber_aiter rest), snd (Broadcast.subscriber_aiter rest)).
Proof.
  induction events as [|e events IH]; simpl.
  - now destruct (Broadcast.subscriber_aiter rest).
  - rewrite IH. reflexivity.
Qed.
End SubscribeFacts.
(** Messages published on a channel before anybody subscribes are not
    lost.  On a new, connected broadcaster: after the publications,
    [subscribe] is entered, the listener takes as many turns as there are
    messages, and the subscriber leaves normally.  Iterating over the
    subscriber then yields exactly the missed events, in the order of
    their publication, and returns; the channel has no entry in
    [_subscribers], the backend is subscribed to nothing and buffers
    nothing for the channel. *)
Theorem late_subscriber_receives_missed_events {Msg : Type} (ch : string) (ms : list Msg) :
  exists bc',
    Broadcast.broadcast_steps
      (List.map (Broadcast.PublishTo ch) ms
       ++ Broadcast.Enter ch
          :: List.repeat Broadcast.Listen (length ms)
          ++ [Broadcast.Leave ch 0 Broadcast.Normally])
      Broadcast.broadcast_init
    = Some bc'
    /\ Broadcast.subscriber_aiter (Broadcast.queue_items bc' 0)
       = (List.map (Broadcast.mkEvent ch) ms, true)
    /\ Broadcast._subscribers bc' = ∅
    /\ Broadcast._subscribed (Broadcast._backend bc') = ∅
    /\ Broadcast.missed (Broadcast._backend bc') ch = [].
Proof.
  destruct (publishes_buffered ch ms (Broadcast.broadcast_init (Msg:=Msg)))
    as (bc1 & Hsteps1 & Hsubs1 & Hqueues1 & Hnext1 & Hsubd1 & Hpub1 & Hbuf1 & Hmissed1).
  { apply not_elem_of_empty. }
  { apply backend_init_buffers. }
  simpl in Hsubs1, Hqueues1, Hnext1, Hsubd1, Hpub1.
  assert (Hmissed : Broadcast.missed (Broadcast._backend bc1) ch
                    = List.map (Broadcast.mkEvent ch) ms).
  { rewrite Hmissed1. unfold Broadcast.missed. simpl. now rewrite lookup_empty. }
  rewrite broadcast_steps_app, Hsteps1.
  cbn [Broadcast.broadcast_steps Broadcast.broadcast_step].
  rewrite (subscribe_enter_first ch bc1 _
             ltac:(unfold Broadcast.no_subscribers; now rewrite Hsubs1, lookup_empty)
             (backend_subscribe_run ch _ [] Hbuf1 Hpub1)).
  rewrite Hsubs1, Hqueues1, Hnext1, Hsubd1, Hmissed. cbn [app].
  match goal with |- context [Broadcast.broadcast_steps _ ?b] => set (bc2 := b) end.
  rewrite broadcast_steps_app.
  destruct (listener_steps_drain (List.map (Broadcast.mkEvent ch) ms) [] bc2)
    as (bc3 & Hsteps3 & Hsubs3 & Hback3 & Hnext3 & Hqueues3).
  { simpl. now rewrite app_nil_r. }
  rewrite List.length_map in Hsteps3. rewrite Hsteps3.
  cbn [Broadcast.broadcast_steps Broadcast.broadcast_step].
  rewrite (subscribe_exit_last ch 0 bc3).
  2: { rewrite Hsubs3. simpl. apply lookup_insert_eq. }
  2: { rewrite Hback3. simpl. apply elem_of_union_l. now apply elem_of_singleton. }
  assert (Hitems : Broadcast.queue_items bc3 0
                   = List.map Some (List.map (Broadcast.mkEvent ch) ms)).
  { rewrite Hqueues3.
    assert (Hall : forall l : list Msg,
              List.filter
                (fun e => bool_decide (0%nat ∈ Broadcast.subscribers_of bc2 (Broadcast.channel e)))
                (List.map (Broadcast.mkEvent ch) l)
              = List.map (Broadcast.mkEvent ch) l).
    { assert (Hof : Broadcast.subscribers_of bc2 ch = {[0%nat]}).
      { unfold Broadcast.subscribers_of, bc2. cbn [Broadcast._subscribers].
        now rewrite lookup_insert_eq. }
      intros l. induction l as [|m l IH]; [reflexivity|].
      cbn [List.map List.filter Broadcast.channel].
      rewrite IH, Hof. now rewrite bool_decide_eq_true_2 by now apply elem_of_singleton. }
    rewrite Hall. unfold Broadcast.queue_items, bc2. simpl. now rewrite lookup_insert_eq. }
  eexists. split; [reflexivity|].
  rewrite queue_items_put, decide_True by reflexivity.
  rewrite Hitems, Hsubs3, Hback3. simpl.
  split; [|split; [|split]].
  - rewrite subscriber_aiter_events. simpl. now rewrite app_nil_r.
  - rewrite delete_insert_eq. apply delete_empty.
  - apply set_eq. intros x.
    rewrite elem_of_difference, elem_of_union, elem_of_singleton. split.
    + intros [[->|Hx] Hne]; [now destruct Hne|exact Hx].
    + intros Hx. now apply not_elem_of_empty in Hx.
  - rewrite missed_insert. now rewrite decide_True.
Qed.

(** In every state that a new, connected broadcaster reaches, entering
    [subscribe] does not raise and creates a new queue, and leaving it
    normally right away does not raise either and puts [_subscribers] and
    the subscriptions of the backend back to what they were; the queue
    holds the final [None] and nothing else. *)
Theorem subscribe_round_trip {Msg : Type} (ss : list (Broadcast.BroadcastStep Msg))
    (ch : string) (bc : Broadcast.Broadcast Msg) :
  Broadcast.broadcast_steps ss Broadcast.broadcast_init = Some bc ->
  exists bc1 bc2,
    Broadcast.subscribe_enter ch bc = Some (Broadcast.next_queue bc, bc1)
    /\ Broadcast.subscribe_exit ch (Broadcast.next_queue bc) bc1 = Some bc2
    /\ Broadcast._subscribers bc2 = Broadcast._subscribers bc
    /\ Broadcast._subscribed (Broadcast._backend bc2)
       = Broadcast._subscribed (Broadcast._backend bc)
    /\ Broadcast.queue_items bc2 (Broadcast.next_queue bc) = [None].
Proof.
  intros Hreach. destruct (broadcast_steps_reach ss bc Hreach) as (Hq & Hreg & Hinv).
  assert (Hnew : forall subs b next,
            Broadcast.queue_items
              (Broadcast.mkBroadcast subs b
                 (Broadcast.put_nowait (Broadcast.next_queue bc) None
                    (<[Broadcast.next_queue bc := []]> (Broadcast.queues bc))) next)
              (Broadcast.next_queue bc) = [None]).
  { intros subs b next. unfold Broadcast.queue_items. simpl.
    rewrite put_nowait_lookup, decide_True by reflexivity.
    now rewrite lookup_insert_eq. }
  destruct (Broadcast._subscribers bc !! ch) as [s|] eqn:Hs.
  - destruct (Hreg ch s Hs) as [Hne Hlt].
    assert (Hfresh : Broadcast.next_queue bc ∉ s) by (intros Hin; specialize (Hlt _ Hin); lia).
    do 2 eexists. split; [apply (subscribe_enter_next ch bc s Hs Hne)|].
    rewrite (subscribe_exit_other ch (Broadcast.next_queue bc) _ s);
      [|simpl; apply lookup_insert_eq|exact Hfresh|exact Hne].
    split; [reflexivity|]. cbn [Broadcast._subscribers Broadcast._backend Broadcast.queues].
    split; [|split; [reflexivity|apply Hnew]].
    rewrite insert_insert_eq. now apply insert_id.
  - assert (Hnone : Broadcast.no_subscribers (Broadcast._subscribers bc) ch = true)
      by (unfold Broadcast.no_subscribers; now rewrite Hs).
    destruct (backend_subscribe_connected ch (Broadcast._backend bc) Hq)
      as (b' & Hsub & _ & Hsubd).
    do 2 eexists. split; [apply (subscribe_enter_first ch bc b' Hnone Hsub)|].
    rewrite (subscribe_exit_last ch (Broadcast.next_queue bc));
      [|simpl; apply lookup_insert_eq
       |simpl; rewrite Hsubd; apply elem_of_union_l; now apply elem_of_singleton].
    split; [reflexivity|]. cbn [Broadcast._subscribers Broadcast._backend Broadcast.queues
                                Broadcast._subscribed].
    split; [|split; [|apply Hnew]].
    + rewrite delete_insert_eq. now apply delete_id.
    + rewrite Hsubd. apply set_eq. intros x.
      rewrite elem_of_difference, elem_of_union, elem_of_singleton. split.
      * intros [[->|Hx] Hne]; [now destruct Hne|exact Hx].
      * intros Hx. split; [now right|]. intros ->.
        apply Hinv in Hx. congruence.
Qed.

(** However the body of the [with] statement ends, normally or by an
    exception, the exit from [subscribe] puts the final [None] at the end
    of the queue of the subscriber and nothing on the other queues: an
    iteration over the subscriber yields the events that were delivered
    before and then returns. *)
Theorem subscribe_exit_closes_queue {Msg : Type} (ch : string) (queue : nat)
    (how : Broadcast.SubscriberExit) (bc bc' : Broadcast.Broadcast Msg)
    (events : list (Broadcast.Event Msg)) :
  Broadcast.queue_items bc queue = List.map Some events ->
  Broadcast.broadcast_step (Broadcast.Leave ch queue how) bc = Some bc' ->
  Broadcast.subscriber_aiter (Broadcast.queue_items bc queue) = (events, false)
  /\ Broadcast.subscriber_aiter (Broadcast.queue_items bc' queue) = (events, true)
  /\ forall n, n <> queue -> Broadcast.queue_items bc' n = Broadcast.queue_items bc n.
Proof.
  intros Hitems Hstep.
  assert (Hput : exists subs b next,
            bc' = Broadcast.mkBroadcast subs b
                    (Broadcast.put_nowait queue None (Broadcast.queues bc)) next).
  { destruct how; simpl in Hstep.
    - unfold Broadcast.subscribe_exit in Hstep.
      destruct (Broadcast._subscribers bc !! ch) as [s|]; [|discriminate].
      destruct (bool_decide (queue ∈ s)); [|discriminate].
      destruct (Broadcast.no_subscribers _ ch).
      + destruct (Broadcast.backend_unsubscribe ch _); [|discriminate].
        injection Hstep as <-. eauto.
      + injection Hstep as <-. eauto.
    - injection Hstep as <-. unfold Broadcast.subscribe_exit_raising. eauto. }
  destruct Hput as (subs & b & next & ->).
  split; [|split].
  - rewrite Hitems, <- (app_nil_r (List.map Some events)), subscriber_aiter_events.
    simpl. now rewrite app_nil_r.
  - rewrite queue_items_put, decide_True by reflexivity.
    rewrite Hitems, subscriber_aiter_events. simpl. now rewrite app_nil_r.
  - intros n Hn. rewrite queue_items_put. now rewrite decide_False by congruence.
Qed.

(** The loop of [__aiter__]: one call of [get] for each turn. *)
Lemma subscriber_aiter_get {Msg : Type} (q : list (option (Broadcast.Event Msg))) :
  Broadcast.subscriber_aiter q
  = match Broadcast.subscriber_get q with
    | None => ([], false)
    | Some (Broadcast.Item e, rest) =>
        (e :: fst (Broadcast.subscriber_aiter rest), snd (Broadcast.subscriber_aiter rest))
    | Some (Broadcast.Unsubscribed, _) => ([], true)
    end.
Proof.
  destruct q as [|[e|] rest]; simpl; try reflexivity.
  now destruct (Broadcast.subscriber_aiter rest).
Qed.

(** The generator of a subscriber yields the events that stand before
    the first [None] of its queue, in their order, and returns there
    without looking at what follows; on a queue without [None] it yields
    every event and then waits. *)
Theorem subscriber_aiter_stops_at_none {Msg : Type} (events : list (Broadcast.Event Msg))
    (rest : list (option (Broadcast.Event Msg))) :
  Broadcast.subscriber_aiter (List.map Some events ++ None :: rest) = (events, true)
  /\ Broadcast.subscriber_aiter (List.map Some events) = (events, false).
Proof.
  split.
  - rewrite subscriber_aiter_events. simpl. now rewrite app_nil_r.
  - rewrite <- (app_nil_r (List.map Some events)), subscriber_aiter_events.
    simpl. now rewrite !app_nil_r.
Qed.
(** Two subscribers of the channel [a], one of [b], and one event
    published to [a]: a turn of the listener puts it on the two queues of
    [a] and not on the queue of [b]. *)
Lemma listener_step_fans_out_demo :
  exists bc bc',
    Broadcast.broadcast_steps
      [Broadcast.Enter "a"; Broadcast.Enter "a"; Broadcast.Enter "b";
       Broadcast.PublishTo "a" "1"]
      Broadcast.broadcast_init = Some bc
    /\ Broadcast.listener_step bc = Some bc'
    /\ Broadcast._published (Broadcast._backend bc') = Some []
    /\ Broadcast.queues bc' !! 0%nat = Some [Some (Broadcast.mkEvent "a" "1")]
    /\ Broadcast.queues bc' !! 1%nat = Some [Some (Broadcast.mkEvent "a" "1")]
    /\ Broadcast.queues bc' !! 2%nat = Some [].
Proof.
  destruct (Broadcast.broadcast_steps
              [Broadcast.Enter "a"; Broadcast.Enter "a"; Broadcast.Enter "b";
               Broadcast.PublishTo "a" "1"]
              (Broadcast.broadcast_init (Msg:=string))) as [bc|] eqn:Hbc;
    [|vm_compute in Hbc; discriminate].
  destruct (Broadcast.listener_step bc) as [bc'|] eqn:Hstep.
  2: { vm_compute in Hbc. injection Hbc as <-. vm_compute in Hstep. discriminate. }
  destruct (listener_step_fans_out bc bc' Hstep) as (e & rest & Hq & Hq' & _ & Hqueues).
  exists bc, bc'. split; [reflexivity|]. split; [exact Hstep|].
  vm_compute in Hbc. injection Hbc as <-.
  vm_compute in Hq. injection Hq as <- <-.
  split; [exact Hq'|].
  rewrite !Hqueues. split; [|split]; vm_compute; reflexivity.
Defined.

(** Two subscribers of the channel [a] and one of [b]: two messages for
    [a] reach the two queues of [a] in their order. *)
Lemma published_events_delivered_in_order_demo :
  exists bc bc',
    Broadcast.broadcast_steps
      [Broadcast.Enter "a"; Broadcast.Enter "a"; Broadcast.Enter "b"]
      Broadcast.broadcast_init = Some bc
    /\ Broadcast.broadcast_steps
         [Broadcast.PublishTo "a" "1"; Broadcast.PublishTo "a" "2";
          Broadcast.Listen; Broadcast.Listen] bc = Some bc'
    /\ Broadcast.queue_items bc' 0
       = [Some (Broadcast.mkEvent "a" "1"); Some (Broadcast.mkEvent "a" "2")]
    /\ Broadcast.queue_items bc' 1
       = [Some (Broadcast.mkEvent "a" "1"); Some (Broadcast.mkEvent "a" "2")]
    /\ Broadcast.queue_items bc' 2 = [].
Proof.
  destruct (Broadcast.broadcast_steps
              [Broadcast.Enter "a"; Broadcast.Enter "a"; Broadcast.Enter "b"]
              (Broadcast.broadcast_init (Msg:=string))) as [bc|] eqn:Hbc;
    [|vm_compute in Hbc; discriminate].
  assert (Hsub : "a" ∈ Broadcast._subscribed (Broadcast._backend bc)).
  { vm_compute in Hbc. injection Hbc as <-. apply (bool_decide_unpack _). vm_compute. exact I. }
  assert (Hq : Broadcast._published (Broadcast._backend bc) = Some []).
  { vm_compute in Hbc. now injection Hbc as <-. }
  destruct (published_events_delivered_in_order "a" ["1"; "2"] bc Hsub Hq)
    as (bc' & Hsteps & _ & Hqueues).
  exists bc, bc'. split; [reflexivity|]. split; [exact Hsteps|].
  rewrite !Hqueues. vm_compute in Hbc. injection Hbc as <-.
  split; [|split]; vm_compute; reflexivity.
Defined.

(** After a subscriber of [a] has entered and a message was published: a
    second subscriber of [a], and a first of [b], enter and leave without
    a trace in [_subscribers]. *)
Lemma subscribe_round_trip_demo :
  exists bc,
    Broadcast.broadcast_steps [Broadcast.Enter "a"; Broadcast.PublishTo "a" "1"]
      Broadcast.broadcast_init = Some bc
    /\ (exists bc1 bc2,
          Broadcast.subscribe_enter "a" bc = Some (1%nat, bc1)
          /\ Broadcast.subscribe_exit "a" 1 bc1 = Some bc2
          /\ Broadcast._subscribers bc2 = Broadcast._subscribers bc)
    /\ (exists bc1 bc2,
          Broadcast.subscribe_enter "b" bc = Some (1%nat, bc1)
          /\ Broadcast.subscribe_exit "b" 1 bc1 = Some bc2
          /\ Broadcast._subscribers bc2 = Broadcast._subscribers bc).
Proof.
  destruct (Broadcast.broadcast_steps [Broadcast.Enter "a"; Broadcast.PublishTo "a" "1"]
              (Broadcast.broadcast_init (Msg:=string))) as [bc|] eqn:Hbc;
    [|vm_compute in Hbc; discriminate].
  assert (Hnext : Broadcast.next_queue bc = 1%nat).
  { vm_compute in Hbc. now injection Hbc as <-. }
  exists bc. split; [reflexivity|]. split.
  - destruct (subscribe_round_trip _ "a" bc Hbc) as (bc1 & bc2 & Henter & Hexit & Hsubs & _).
    rewrite Hnext in Henter, Hexit. eauto.
  - destruct (subscribe_round_trip _ "b" bc Hbc) as (bc1 & bc2 & Henter & Hexit & Hsubs & _).
    rewrite Hnext in Henter, Hexit. eauto.
Defined.

(** A subscriber that has received one event and whose [with] body
    raises: its iteration yields the event and returns. *)
Lemma subscribe_exit_closes_queue_demo :
  exists bc bc',
    Broadcast.broadcast_steps
      [Broadcast.Enter "a"; Broadcast.PublishTo "a" "1"; Broadcast.Listen]
      Broadcast.broadcast_init = Some bc
    /\ Broadcast.broadcast_step (Broadcast.Leave "a" 0 Broadcast.Raising) bc = Some bc'
    /\ Broadcast.subscriber_aiter (Broadcast.queue_items bc' 0)
       = ([Broadcast.mkEvent "a" "1"], true).
Proof.
  destruct (Broadcast.broadcast_steps
              [Broadcast.Enter "a"; Broadcast.PublishTo "a" "1"; Broadcast.Listen]
              (Broadcast.broadcast_init (Msg:=string))) as [bc|] eqn:Hbc;
    [|vm_compute in Hbc; discriminate].
  assert (Hitems : Broadcast.queue_items bc 0 = List.map Some [Broadcast.mkEvent "a" "1"]).
  { vm_compute in Hbc. injection Hbc as <-. vm_compute. reflexivity. }
  destruct (subscribe_exit_closes_queue "a" 0 Broadcast.Raising bc _
              [Broadcast.mkEvent "a" "1"] Hitems eq_refl) as (_ & Hclosed & _).
  exists bc. eexists. split; [reflexivity|]. split; [reflexivity|]. exact Hclosed.
Defined.

(** ** Ranking by [search] *)

(** [search] with embeddings enabled, once the catalog is known. *)
Lemma search_run (E : Collaborators) (query : string) (max_results : option Z)
    (lvl : CodeMessageLevel) (w : World) (all_features : list CodeFeature) :
  use_embeddings (config w) = true ->
  _get_all_features E (git_root E) (include_files (ctx w)) (ignore_files (ctx w))
    (diff_context (ctx w)) (code_map (ctx w)) lvl default_max_chars = Some all_features ->
  search E query max_results lvl w
  = Some (match max_results with
          | None =>
              sorted_by_score E
                (combine all_features (get_feature_similarity_scores E query all_features))
          | Some n =>
              slice_to
                (sorted_by_score E
                   (combine all_features (get_feature_similarity_scores E query all_features)))
                n
          end, w).
Proof.
  intros Hemb Hall. unfold search, mbind, M_bind, get_world, mret, M_ret.
  rewrite Hemb, Hall. simpl. now destruct max_results.
Qed.

Lemma float_eqb_not_ltb (a b s : PyFloat) :
  float_eqb a s = true -> float_eqb b s = true -> float_ltb a b = false.
Proof.
  unfold float_eqb, float_leb.
  destruct a as [x|[|]|], b as [y|[|]|], s as [z|[|]|]; simpl;
    try reflexivity; try discriminate.
  rewrite !negb_involutive, !andb_true_iff, !Qle_bool_iff, negb_false_iff, Qle_bool_iff.
  intros [Hxz Hzx] [Hyz Hzy]. now apply (Qle_trans _ z).
Qed.

(** Pairs with the same score keep their order in [sorted(...,
    reverse=True)], where no score is NaN. *)
Lemma sorted_by_score_stable (E : Collaborators) (s : PyFloat)
    (scored : list (CodeFeature * PyFloat)) :
  no_nan scored ->
  List.filter (has_score s) (sorted_by_score E scored) = List.filter (has_score s) scored.
Proof.
  intros Hnan. rewrite (proj1 (sorted_by_score_descending E scored Hnan)).
  unfold py_sorted. rewrite List.filter_rev, stable_sort_filter.
  - now rewrite List.filter_rev, rev_involutive.
  - intros a b Ha Hb. exact (float_eqb_not_ltb _ _ s Ha Hb).
Qed.

(** [search] breaks ties by the catalog, provided that no score is NaN.
    Among the results with one score the features stand in the order in
    which [_get_all_features] lists them, that is by relative path; with
    [max_results] the results with this score are the first of them. *)
Theorem search_ties_keep_catalog_order (E : Collaborators) (query : string)
    (max_results : option Z) (lvl : CodeMessageLevel) (w w' : World)
    (all_features : list CodeFeature) (result : list (CodeFeature * PyFloat)) (s : PyFloat) :
  use_embeddings (config w) = true ->
  _get_all_features E (git_root E) (include_files (ctx w)) (ignore_files (ctx w))
    (diff_context (ctx w)) (code_map (ctx w)) lvl default_max_chars = Some all_features ->
  no_nan (combine all_features (get_feature_similarity_scores E query all_features)) ->
  search E query max_results lvl w = Some (result, w') ->
  exists rest,
    List.filter (has_score s)
      (combine all_features (get_feature_similarity_scores E query all_features))
    = List.filter (has_score s) result ++ rest
    /\ (max_results = None -> rest = []).
Proof.
  intros Hemb Hall Hnan Hsearch.
  rewrite (search_run E query max_results lvl w all_features Hemb Hall) in Hsearch.
  set (scored := combine all_features (get_feature_similarity_scores E query all_features))
    in *.
  rewrite <- (sorted_by_score_stable E s scored Hnan).
  destruct max_results as [n|].
  - assert (Hr : result = slice_to (sorted_by_score E scored) n) by congruence.
    destruct (slice_to_prefix (sorted_by_score E scored) n) as [rest0 Hrest].
    exists (List.filter (has_score s) rest0). split; [|discriminate].
    rewrite Hr, <- List.filter_app. now rewrite <- Hrest.
  - assert (Hr : result = sorted_by_score E scored) by congruence.
    exists []. split; [now rewrite Hr, app_nil_r|reflexivity].
Qed.

(** The number of results of [search].  There are as many pairs as
    the catalog has features, or as there are scores if these are fewer
    ([zip] stops at the shorter sequence); of these, [max_results] are
    returned if it is not negative and there are that many, and all but the
    last [-max_results] if it is negative. *)
Theorem search_result_length (E : Collaborators) (query : string)
    (max_results : option Z) (lvl : CodeMessageLevel) (w w' : World)
    (all_features : list CodeFeature) (result : list (CodeFeature * PyFloat)) :
  use_embeddings (config w) = true ->
  _get_all_features E (git_root E) (include_files (ctx w)) (ignore_files (ctx w))
    (diff_context (ctx w)) (code_map (ctx w)) lvl default_max_chars = Some all_features ->
  search E query max_results lvl w = Some (result, w') ->
  Z.of_nat (length result)
  = let pairs :=
      Z.min (Z.of_nat (length all_features))
        (Z.of_nat (length (get_feature_similarity_scores E query all_features))) in
    match max_results with
    | None => pairs
    | Some n => if (n <? 0)%Z then Z.max 0 (pairs + n) else Z.min n pairs
    end.
Proof.
  intros Hemb Hall Hsearch.
  rewrite (search_run E query max_results lvl w all_features Hemb Hall) in Hsearch.
  set (scored := combine all_features (get_feature_similarity_scores E query all_features))
    in Hsearch.
  assert (Hlen : length (sorted_by_score E scored) = length scored).
  { symmetry. apply Permutation_length, sorted_by_score_perm. }
  assert (Hpairs : Z.of_nat (length scored)
                   = Z.min (Z.of_nat (length all_features))
                       (Z.of_nat (length (get_feature_similarity_scores E query all_features)))).
  { unfold scored. rewrite List.length_combine. lia. }
  cbv zeta. rewrite <- Hpairs.
  destruct max_results as [n|].
  - assert (Hr : result = slice_to (sorted_by_score E scored) n) by congruence.
    rewrite Hr. unfold slice_to.
    destruct (Z.ltb_spec n 0); rewrite List.length_firstn, Hlen; lia.
  - assert (Hr : result = sorted_by_score E scored) by congruence.
    now rewrite Hr, Hlen.
Qed.

(** In the repository of [Demo], [src/b.py] scores 9/10 and every other
    feature 1/2: behind [src/b.py], the two intervals of [a.py] and
    [src/c.py] stand as in the catalog. *)
Lemma search_ties_keep_catalog_order_demo :
  exists all_features result,
    _get_all_features Demo.env Demo.root [] ∅ Demo.no_diff true INTERVAL default_max_chars
    = Some all_features
    /\ search Demo.env "q" None INTERVAL (Demo.new_world (mkConfig false None true))
       = Some (result, Demo.new_world (mkConfig false None true))
    /\ List.filter (has_score (Finite (1 # 2))) result
       = List.filter (has_score (Finite (1 # 2)))
           (combine all_features (Demo.demo_scores "q" all_features))
    /\ List.map (fun x => path (fst x)) result
       = [Demo.b_py; Demo.a_py; Demo.a_py; Demo.c_py].
Proof.
  destruct (_get_all_features Demo.env Demo.root [] ∅ Demo.no_diff true INTERVAL
              default_max_chars) as [all_features|] eqn:Hall;
    [|vm_compute in Hall; discriminate].
  destruct (search Demo.env "q" None INTERVAL (Demo.new_world (mkConfig false None true)))
    as [[result w']|] eqn:Hsearch; [|vm_compute in Hsearch; discriminate].
  assert (Hnan : no_nan (combine all_features (Demo.demo_scores "q" all_features))).
  { intros [f score] Hin. apply in_combine_r in Hin. unfold Demo.demo_scores in Hin.
    apply List.in_map_iff in Hin as (g & <- & _). simpl.
    now destruct (bool_decide (path g = Demo.b_py)). }
  destruct (search_ties_keep_catalog_order Demo.env "q" None INTERVAL
              (Demo.new_world (mkConfig false None true)) w' all_features result
              (Finite (1 # 2)) eq_refl Hall Hnan Hsearch) as (rest & Hties & Hrest).
  rewrite (Hrest eq_refl), app_nil_r in Hties.
  exists all_features, result. split; [reflexivity|].
  vm_compute in Hsearch. injection Hsearch as <- <-.
  split; [reflexivity|]. split; [symmetry; exact Hties|reflexivity].
Defined.

(** In the repository of [Demo] the catalog has four features:
    [max_results = -1] leaves three results. *)
Lemma search_result_length_demo :
  exists result,
    search Demo.env "q" (Some (-1)%Z) INTERVAL (Demo.new_world (mkConfig false None true))
    = Some (result, Demo.new_world (mkConfig false None true))
    /\ Z.of_nat (length result) = 3%Z.
Proof.
  destruct (_get_all_features Demo.env Demo.root [] ∅ Demo.no_diff true INTERVAL
              default_max_chars) as [all_features|] eqn:Hall;
    [|vm_compute in Hall; discriminate].
  destruct (search Demo.env "q" (Some (-1)%Z) INTERVAL
              (Demo.new_world (mkConfig false None true)))
    as [[result w']|] eqn:Hsearch; [|vm_compute in Hsearch; discriminate].
  pose proof (search_result_length Demo.env "q" (Some (-1)%Z) INTERVAL
                (Demo.new_world (mkConfig false None true)) w' all_features result
                eq_refl Hall Hsearch) as Hr.
  exists result. split.
  - vm_compute in Hsearch. injection Hsearch as _ <-. reflexivity.
  - rewrite Hr. clear Hr Hsearch. vm_compute in Hall. injection Hall as <-. reflexivity.
Defined.

(** ** The summary of [display_features] *)

Section DisplayFacts.
Context (levels : list CodeMessageLevel) (description : CodeMessageLevel -> string)
  (str_count : nat -> string).

Lemma count_level_counts (lvl : CodeMessageLevel) (cnt : CodeMessageLevel -> nat)
    (ls : list CodeMessageLevel) :
  List.NoDup ls -> In lvl ls ->
  count_level lvl (List.map (fun l => (l, cnt l)) ls)
  = Some (List.map (fun l => (l, if decide (l = lvl) then S (cnt l) else cnt l)) ls).
Proof.
  induction 1 as [|l ls Hl Hnodup IH]; intros Hin; [destruct Hin|].
  cbn [List.map count_level]. destruct (decide (l = lvl)) as [->|Hne].
  - do 2 f_equal. apply List.map_ext_in. intros l' Hl'.
    destruct (decide (l' = lvl)) as [->|_]; [contradiction|reflexivity].
  - destruct Hin as [Heq|Hin]; [contradiction|]. now rewrite (IH Hin).
Qed.

(** The loop over [self.features] counts, for each level, the features at
    this level whose path is not included. *)
Lemma count_features_counts (include : list (Path * list CodeFeature))
    (fs : list CodeFeature) (cnt : CodeMessageLevel -> nat) (ls : list CodeMessageLevel) :
  List.NoDup ls -> (forall l, In l ls) ->
  fold_left (count_feature include) fs (Some (List.map (fun l => (l, cnt l)) ls))
  = Some (List.map
            (fun l => (l, (cnt l
                           + length (List.filter
                                       (fun f => negb (dict_mem include (path f))
                                                 && bool_decide (level f = l)) fs))%nat))
            ls).
Proof.
  intros Hnodup Hall. revert cnt. induction fs as [|f fs IH]; intros cnt.
  - cbn. f_equal. apply List.map_ext. intros l. f_equal. lia.
  - cbn [fold_left count_feature List.filter].
    destruct (negb (dict_mem include (path f))) eqn:Hauto; cbn [andb].
    + rewrite (count_level_counts (level f) cnt ls Hnodup (Hall _)), IH.
      f_equal. apply List.map_ext. intros l. f_equal.
      destruct (decide (l = level f)) as [->|Hne].
      * rewrite bool_decide_eq_true_2 by reflexivity. cbn [length]. lia.
      * rewrite bool_decide_eq_false_2 by congruence. reflexivity.
    + apply IH.
Qed.

Lemma for_each_lines (c : CodeContext) (ls : list CodeMessageLevel) (w : World) :
  for_each (fun x => if negb (Nat.eqb (snd x) 0)
                     then stream_send (level_line description str_count (fst x) (snd x))
                     else mret tt)
    (List.map (fun l => (l, auto_count c l)) ls) w
  = Some (tt, mkWorld (ctx w) (config w)
                (stream w
                 ++ List.map (fun l => level_line description str_count l (auto_count c l))
                      (List.filter (fun l => negb (Nat.eqb (auto_count c l) 0)) ls))
                (builder_calls w)).
Proof.
  revert w. induction ls as [|l ls IH]; intros w.
  - cbn. rewrite app_nil_r. now destruct w.
  - cbn [List.map for_each List.filter fst snd].
    unfold mbind, M_bind. destruct (negb (Nat.eqb (auto_count c l) 0)).
    + unfold stream_send at 1. rewrite IH. cbn. now rewrite <- List.app_assoc.
    + unfold mret, M_ret. apply IH.
Qed.

Lemma some_count_some_feature (c : CodeContext) (ls : list CodeMessageLevel) :
  (forall l, In l ls) ->
  existsb (fun x => negb (Nat.eqb (snd x) 0)) (List.map (fun l => (l, auto_count c l)) ls)
  = existsb (auto_selected c) (features c).
Proof.
  intros Hall. apply eq_true_iff_eq. rewrite !existsb_exists. split.
  - intros ([l n] & Hin & Hn). apply List.in_map_iff in Hin as (l' & [= <- <-] & _).
    cbn in Hn. apply negb_true_iff, Nat.eqb_neq in Hn. unfold auto_count in Hn.
    destruct (List.filter _ (features c)) as [|f r] eqn:Hf; [now destruct Hn|].
    assert (Hin : In f (f :: r)) by now left.
    rewrite <- Hf in Hin. apply List.filter_In in Hin as [Hin Hauto].
    apply andb_true_iff in Hauto as [Hauto _]. eauto.
  - intros (f & Hin & Hauto). exists (level f, auto_count c (level f)). split.
    + apply List.in_map_iff. exists (level f). split; [reflexivity|apply Hall].
    + cbn. apply negb_true_iff, Nat.eqb_neq. unfold auto_count. intros Hlen.
      assert (Hf : In f (List.filter
                           (fun f0 => auto_selected c f0 && bool_decide (level f0 = level f))
                           (features c))).
      { apply List.filter_In. split; [exact Hin|].
        now rewrite Hauto, bool_decide_eq_true_2. }
      destruct (List.filter _ (features c)); [destruct Hf|discriminate].
Qed.
End DisplayFacts.

(** [display_features] counts and reports the features that the user
    did not include.  If the iteration over the enum [CodeMessageLevel]
    yields every level once, the call does not raise; it sends nothing if
    the path of every feature of [self.features] is a key of
    [include_files]; otherwise it sends the heading and then, in the order
    of the enum, one line for each level that has such features, with
    their number; it changes nothing but the stream. *)
Theorem display_features_counts (levels : list CodeMessageLevel)
    (description : CodeMessageLevel -> string) (str_count : nat -> string) (w : World) :
  List.NoDup levels -> (forall l, In l levels) ->
  display_features levels description str_count w
  = Some (tt, mkWorld (ctx w) (config w)
                (stream w
                 ++ (if existsb (auto_selected (ctx w)) (features (ctx w))
                     then Send "Auto-Selected Features:" "blue"
                          :: List.map
                               (fun l => level_line description str_count l
                                           (auto_count (ctx w) l))
                               (List.filter
                                  (fun l => negb (Nat.eqb (auto_count (ctx w) l) 0)) levels)
                     else []))
                (builder_calls w)).
Proof.
  intros Hnodup Hall. unfold display_features, mbind, M_bind, get_world, lift_option.
  rewrite (count_features_counts _ _ (fun _ => 0%nat) levels Hnodup Hall).
  change (List.map _ levels) with (List.map (fun l => (l, auto_count (ctx w) l)) levels).
  rewrite (some_count_some_feature (ctx w) levels Hall).
  destruct (existsb (auto_selected (ctx w)) (features (ctx w))).
  - unfold stream_send at 1. rewrite for_each_lines. cbn. now rewrite <- List.app_assoc.
  - unfold mret, M_ret. rewrite app_nil_r. now destruct w.
Qed.

(** With [a.py] included and the features of [a.py], [src/b.py] (code) and
    [src/c.py] (file name) in the context: the summary has the heading and
    a line for each of the two levels, and none for [a.py]. *)
Lemma display_features_counts_demo :
  exists w',
    display_features [CODE; INTERVAL; CMAP_FULL; CMAP; FILE_NAME]
      (fun l => match l with CODE => "code" | FILE_NAME => "names" | _ => "other" end)
      (fun n => String.concat "" (List.repeat "I" n))
      (mkWorld
         (set_features
            [mkCodeFeature Demo.a_py None CODE None true;
             mkCodeFeature Demo.b_py None CODE None false;
             mkCodeFeature Demo.c_py None FILE_NAME None false]
            (set_include_files [(Demo.a_py, Demo.demo_pins Demo.a_py)] Demo.new_context))
         (mkConfig false None false) [] 0)
    = Some (tt, w')
    /\ stream w'
       = [Send "Auto-Selected Features:" "blue"; Send "  I code" ""; Send "  I names" ""].
Proof.
  assert (Hnodup : List.NoDup [CODE; INTERVAL; CMAP_FULL; CMAP; FILE_NAME]).
  { repeat constructor; simpl; intuition discriminate. }
  assert (Hall : forall l, In l [CODE; INTERVAL; CMAP_FULL; CMAP; FILE_NAME]).
  { intros []; simpl; auto 10. }
  eexists. split; [apply (display_features_counts _ _ _ _ Hnodup Hall)|].
  vm_compute. reflexivity.
Defined.

(** ** After a subscriber has left *)

Section LeftFacts.
Context {Msg : Type}.
Implicit Types (bc : Broadcast.Broadcast Msg) (ch : string) (e : Broadcast.Event Msg).

(** Each step keeps every queue registered for one channel at most. *)
Lemma broadcast_step_registered_once (st : Broadcast.BroadcastStep Msg) bc bc' :
  is_Some (Broadcast._published (Broadcast._backend bc)) ->
  Broadcast.queues_registered bc ->
  Broadcast.registered_once bc ->
  Broadcast.broadcast_step st bc = Some bc' ->
  Broadcast.registered_once bc'.
Proof.
  intros Hq Hreg Honce.
  assert (Hnew : forall (s0 : gset nat) subs',
            (forall c s, Broadcast._subscribers bc !! c = Some s ->
                         Broadcast.next_queue bc ∉ s) ->
            forall ch (s : gset nat),
              (s = {[Broadcast.next_queue bc]} ∪ s0) ->
              (Broadcast._subscribers bc !! ch = Some s0
               \/ (Broadcast._subscribers bc !! ch = None /\ s0 = ∅)) ->
              subs' = <[ch := s]> (Broadcast._subscribers bc) ->
              forall ch1 ch2 s1 s2 q,
                subs' !! ch1 = Some s1 -> subs' !! ch2 = Some s2 ->
                q ∈ s1 -> q ∈ s2 -> ch1 = ch2).
  { intros s0 subs' Hfresh ch s -> Hs0 -> ch1 ch2 s1 s2 q.
    assert (Hin0 : forall x, x ∈ s0 -> exists s', Broadcast._subscribers bc !! ch = Some s'
                                                   /\ x ∈ s').
    { intros x Hx. destruct Hs0 as [Hs0|[_ ->]]; [eauto|].
      now apply not_elem_of_empty in Hx. }
    destruct (decide (ch = ch1)) as [<-|H1]; destruct (decide (ch = ch2)) as [<-|H2];
      try reflexivity.
    - rewrite lookup_insert_eq, lookup_insert_ne by exact H2.
      intros [= <-] Hs2 Hq1 Hq2. apply elem_of_union in Hq1 as [Hq1|Hq1].
      + apply elem_of_singleton in Hq1 as ->. now destruct (Hfresh ch2 s2 Hs2).
      + destruct (Hin0 q Hq1) as (s' & Hs' & Hq'). exact (Honce _ _ _ _ q Hs' Hs2 Hq' Hq2).
    - rewrite lookup_insert_eq, lookup_insert_ne by exact H1.
      intros Hs1 [= <-] Hq1 Hq2. apply elem_of_union in Hq2 as [Hq2|Hq2].
      + apply elem_of_singleton in Hq2 as ->. now destruct (Hfresh ch1 s1 Hs1).
      + destruct (Hin0 q Hq2) as (s' & Hs' & Hq'). exact (Honce _ _ _ _ q Hs1 Hs' Hq1 Hq').
    - rewrite !lookup_insert_ne by assumption. apply Honce. }
  assert (Hfresh : forall c s, Broadcast._subscribers bc !! c = Some s ->
                               Broadcast.next_queue bc ∉ s).
  { intros c s Hs Hin. destruct (Hreg c s Hs) as [_ Hlt]. specialize (Hlt _ Hin). lia. }
  destruct st as [ch|ch n [|]|ch m|]; simpl.
  - destruct (Broadcast._subscribers bc !! ch) as [s|] eqn:Hs.
    + destruct (Hreg ch s Hs) as [Hne _].
      rewrite (subscribe_enter_next ch bc s Hs Hne). intros [= <-].
      intros ch1 ch2 s1 s2 q. simpl.
      apply (Hnew s _ Hfresh ch _ eq_refl (or_introl Hs) eq_refl).
    + destruct (backend_subscribe_connected ch (Broadcast._backend bc) Hq)
        as (b' & Hsub & _ & _).
      rewrite (subscribe_enter_first ch bc b');
        [|unfold Broadcast.no_subscribers; now rewrite Hs|exact Hsub].
      intros [= <-]. intros ch1 ch2 s1 s2 q. simpl.
      apply (Hnew ∅ _ Hfresh ch _ (eq_sym (union_empty_r_L _)) (or_intror (conj Hs eq_refl))
               eq_refl).
  - unfold Broadcast.subscribe_exit.
    destruct (Broadcast._subscribers bc !! ch) as [s|] eqn:Hs; [|discriminate].
    destruct (bool_decide (n ∈ s)); [|discriminate].
    assert (Hsub : forall subs' : gmap string (gset nat),
              (forall c s', subs' !! c = Some s' ->
                 exists s0, Broadcast._subscribers bc !! c = Some s0 /\ s' ⊆ s0) ->
              forall ch1 ch2 (s1 s2 : gset nat) (q : nat),
                subs' !! ch1 = Some s1 -> subs' !! ch2 = Some s2 ->
                q ∈ s1 -> q ∈ s2 -> ch1 = ch2).
    { intros subs' Hless ch1 ch2 s1 s2 q Hs1 Hs2 Hq1 Hq2.
      destruct (Hless _ _ Hs1) as (t1 & Ht1 & Hsub1).
      destruct (Hless _ _ Hs2) as (t2 & Ht2 & Hsub2).
      apply (Honce _ _ _ _ q Ht1 Ht2); [now apply Hsub1|now apply Hsub2]. }
    assert (Hless : forall c s',
              <[ch := s ∖ {[n]}]> (Broadcast._subscribers bc) !! c = Some s' ->
              exists s0, Broadcast._subscribers bc !! c = Some s0 /\ s' ⊆ s0).
    { intros c s'. destruct (decide (ch = c)) as [<-|Hc].
      - rewrite lookup_insert_eq. intros [= <-]. exists s. split; [exact Hs|].
        intros x Hx. now apply elem_of_difference in Hx as [Hx _].
      - rewrite lookup_insert_ne by exact Hc. intros Hs'. exists s'. split; [exact Hs'|].
        now intros x Hx. }
    destruct (Broadcast.no_subscribers _ ch).
    + destruct (Broadcast.backend_unsubscribe ch _); [|discriminate].
      intros [= <-]. intros ch1 ch2 s1 s2 q. simpl. apply Hsub. intros c s'.
      destruct (decide (ch = c)) as [<-|Hc]; [now rewrite lookup_delete_eq|].
      rewrite lookup_delete_ne by exact Hc. apply Hless.
    + intros [= <-]. intros ch1 ch2 s1 s2 q. simpl. apply Hsub. exact Hless.
  - intros [= <-]. exact Honce.
  - unfold Broadcast.publish.
    destruct (Broadcast.backend_publish ch m _); [|discriminate].
    intros [= <-]. exact Honce.
  - unfold Broadcast.listener_step.
    destruct (Broadcast.backend_next_published _) as [[e b]|]; [|discriminate].
    intros [= <-]. exact Honce.
Qed.

Lemma broadcast_steps_registered_once (ss : list (Broadcast.BroadcastStep Msg)) bc :
  Broadcast.broadcast_steps ss Broadcast.broadcast_init = Some bc ->
  Broadcast.queues_registered bc /\ Broadcast.registered_once bc.
Proof.
  assert (Hgen : forall bc0,
            is_Some (Broadcast._published (Broadcast._backend bc0)) ->
            Broadcast.queues_registered bc0 ->
            Broadcast.registered_once bc0 ->
            Broadcast.broadcast_steps ss bc0 = Some bc ->
            Broadcast.queues_registered bc /\ Broadcast.registered_once bc).
  { induction ss as [|st ss IH]; intros bc0 Hq Hreg Honce; simpl; [intros [= <-]; auto|].
    destruct (Broadcast.broadcast_step st bc0) as [bc1|] eqn:Hstep; [|discriminate].
    destruct (broadcast_step_queues_registered st bc0 bc1 Hq Hreg Hstep) as [Hq1 Hreg1].
    apply IH; [exact Hq1|exact Hreg1|].
    exact (broadcast_step_registered_once st bc0 bc1 Hq Hreg Honce Hstep). }
  apply Hgen.
  - simpl. eauto.
  - intros ch s. simpl. now rewrite lookup_empty.
  - intros ch1 ch2 s1 s2 q. simpl. now rewrite lookup_empty.
Qed.

(** A step that is not an exit of the subscriber with the queue [q]
    leaves this queue as it is, as long as it is registered for no
    channel. *)
Lemma broadcast_step_unregistered (st : Broadcast.BroadcastStep Msg) (q : nat) bc bc' :
  Broadcast.unregistered bc q -> (q < Broadcast.next_queue bc)%nat ->
  Broadcast.leaves_queue q st = false ->
  Broadcast.broadcast_step st bc = Some bc' ->
  Broadcast.unregistered bc' q /\ (q < Broadcast.next_queue bc')%nat
  /\ Broadcast.queue_items bc' q = Broadcast.queue_items bc q.
Proof.
  intros Hun Hlt Hst.
  assert (Hins : forall ch (s : gset nat) (b : Broadcast.MemoryBackend Msg) qs next,
            q ∉ s ->
            Broadcast.unregistered
              (Broadcast.mkBroadcast (<[ch := s]> (Broadcast._subscribers bc)) b qs next) q).
  { intros ch s b qs next Hs c. unfold Broadcast.subscribers_of. simpl.
    destruct (decide (ch = c)) as [<-|Hc].
    - now rewrite lookup_insert_eq.
    - rewrite lookup_insert_ne by exact Hc. apply Hun. }
  assert (Hof : forall ch s, Broadcast._subscribers bc !! ch = Some s -> q ∉ s).
  { intros ch s Hs. specialize (Hun ch). unfold Broadcast.subscribers_of in Hun.
    now rewrite Hs in Hun. }
  assert (Hnew : forall subs b next,
            Broadcast.queue_items
              (Broadcast.mkBroadcast subs b
                 (<[Broadcast.next_queue bc := []]> (Broadcast.queues bc)) next) q
            = Broadcast.queue_items bc q).
  { intros subs b next. unfold Broadcast.queue_items. simpl.
    rewrite lookup_insert_ne by lia. reflexivity. }
  assert (Hq_new : q ∉ ({[Broadcast.next_queue bc]} : gset nat)).
  { rewrite elem_of_singleton. lia. }
  destruct st as [ch|ch n how|ch m|]; simpl in Hst |- *.
  - unfold Broadcast.subscribe_enter.
    destruct (Broadcast.no_subscribers _ ch).
    + destruct (Broadcast.backend_subscribe ch _) as [b|]; [|discriminate].
      intros [= <-]. rewrite Hnew. simpl. split; [|split; [lia|reflexivity]].
      rewrite insert_insert_eq. apply Hins.
      rewrite lookup_insert_eq. simpl. rewrite union_empty_r_L. exact Hq_new.
    + destruct (Broadcast._subscribers bc !! ch) as [s|] eqn:Hs; [|discriminate].
      intros [= <-]. rewrite Hnew. simpl. split; [|split; [lia|reflexivity]].
      apply Hins. rewrite elem_of_union. intros [Hin|Hin]; [contradiction|].
      now apply (Hof ch s Hs).
  - apply bool_decide_eq_false in Hst.
    assert (Hput : forall subs b next,
              Broadcast.queue_items
                (Broadcast.mkBroadcast subs b
                   (Broadcast.put_nowait n None (Broadcast.queues bc)) next) q
              = Broadcast.queue_items bc q).
    { intros subs b next. rewrite queue_items_put. now rewrite decide_False. }
    destruct how; simpl.
    + unfold Broadcast.subscribe_exit.
      destruct (Broadcast._subscribers bc !! ch) as [s|] eqn:Hs; [|discriminate].
      destruct (bool_decide (n ∈ s)); [|discriminate].
      assert (Hrem : q ∉ s ∖ {[n]}).
      { rewrite elem_of_difference. intros [Hin _]. now apply (Hof ch s Hs). }
      destruct (Broadcast.no_subscribers _ ch).
      * destruct (Broadcast.backend_unsubscribe ch _); [|discriminate].
        intros [= <-]. rewrite Hput. simpl. split; [|split; [lia|reflexivity]].
        intros c. unfold Broadcast.subscribers_of. simpl.
        destruct (decide (ch = c)) as [<-|Hc].
        -- rewrite lookup_delete_eq. apply not_elem_of_empty.
        -- rewrite lookup_delete_ne, lookup_insert_ne by exact Hc. apply Hun.
      * intros [= <-]. rewrite Hput. simpl. split; [|split; [lia|reflexivity]].
        now apply Hins.
    + intros [= <-]. unfold Broadcast.subscribe_exit_raising. rewrite Hput. simpl.
      split; [exact Hun|split; [lia|reflexivity]].
  - unfold Broadcast.publish.
    destruct (Broadcast.backend_publish ch m _); [|discriminate].
    intros [= <-]. simpl. split; [exact Hun|split; [lia|reflexivity]].
  - intros Hstep.
    destruct (Broadcast._published (Broadcast._backend bc)) as [[|e rest]|] eqn:Hq;
      try (unfold Broadcast.listener_step, Broadcast.backend_next_published in Hstep;
           rewrite Hq in Hstep; discriminate).
    destruct (listener_step_run bc e rest Hq) as (bc1 & Hrun & Hsubs & _ & Hnext & Hqueues).
    rewrite Hrun in Hstep. injection Hstep as <-.
    split; [|split; [lia|]].
    + intros c. unfold Broadcast.subscribers_of. rewrite Hsubs. apply Hun.
    + unfold Broadcast.queue_items at 1. rewrite Hqueues.
      now rewrite bool_decide_eq_false_2 by apply Hun.
Qed.
End LeftFacts.

(** A subscriber that has left normally gets nothing more.  In a state
    that a new, connected broadcaster reaches, after the normal exit of
    the subscriber with the queue [queue], no later entry, exit of another
    subscriber, publication or turn of the listener changes this queue: it
    ends with the [None] of the exit. *)
Theorem left_queue_receives_nothing {Msg : Type}
    (ss ss' : list (Broadcast.BroadcastStep Msg)) (ch : string) (queue : nat)
    (bc bc1 bc2 : Broadcast.Broadcast Msg) :
  Broadcast.broadcast_steps ss Broadcast.broadcast_init = Some bc ->
  Broadcast.subscribe_exit ch queue bc = Some bc1 ->
  existsb (Broadcast.leaves_queue queue) ss' = false ->
  Broadcast.broadcast_steps ss' bc1 = Some bc2 ->
  Broadcast.queue_items bc2 queue = Broadcast.queue_items bc queue ++ [None]
  /\ Broadcast.unregistered bc2 queue.
Proof.
  intros Hreach Hexit Hss' Hsteps.
  destruct (broadcast_steps_registered_once ss bc Hreach) as [Hreg Honce].
  assert (Hleft : Broadcast.unregistered bc1 queue
                  /\ (queue < Broadcast.next_queue bc1)%nat
                  /\ Broadcast.queue_items bc1 queue = Broadcast.queue_items bc queue ++ [None]).
  { revert Hexit. unfold Broadcast.subscribe_exit.
    destruct (Broadcast._subscribers bc !! ch) as [s|] eqn:Hs; [|discriminate].
    destruct (bool_decide (queue ∈ s)) eqn:Hin; [|discriminate].
    apply bool_decide_eq_true in Hin.
    destruct (Hreg ch s Hs) as [_ Hlt]. specialize (Hlt _ Hin).
    assert (Hother : forall c, c <> ch ->
              queue ∉ default ∅ (Broadcast._subscribers bc !! c)).
    { intros c Hc. destruct (Broadcast._subscribers bc !! c) as [s'|] eqn:Hs'; simpl.
      - intros Hin'. apply Hc. exact (Honce _ _ _ _ queue Hs' Hs Hin' Hin).
      - apply not_elem_of_empty. }
    assert (Hrem : queue ∉ s ∖ {[queue]}).
    { rewrite elem_of_difference, elem_of_singleton. now intros [_ Hne]. }
    destruct (Broadcast.no_subscribers _ ch).
    - destruct (Broadcast.backend_unsubscribe ch _); [|discriminate].
      intros [= <-]. rewrite queue_items_put, decide_True by reflexivity. simpl.
      split; [|split; [exact Hlt|reflexivity]].
      intros c. unfold Broadcast.subscribers_of. simpl.
      destruct (decide (ch = c)) as [<-|Hc].
      + rewrite lookup_delete_eq. apply not_elem_of_empty.
      + rewrite lookup_delete_ne, lookup_insert_ne by exact Hc. apply Hother. congruence.
    - intros [= <-]. rewrite queue_items_put, decide_True by reflexivity. simpl.
      split; [|split; [exact Hlt|reflexivity]].
      intros c. unfold Broadcast.subscribers_of. simpl.
      destruct (decide (ch = c)) as [<-|Hc].
      + now rewrite lookup_insert_eq.
      + rewrite lookup_insert_ne by exact Hc. apply Hother. congruence. }
  destruct Hleft as (Hun & Hlt & Hitems). rewrite <- Hitems.
  clear Hitems Hreach Hexit Hreg Honce. revert bc1 Hun Hlt Hsteps.
  induction ss' as [|st ss' IH]; intros bc1 Hun Hlt; simpl.
  - intros [= <-]. auto.
  - simpl in Hss'. apply orb_false_iff in Hss' as [Hst Hss'].
    destruct (Broadcast.broadcast_step st bc1) as [bc1'|] eqn:Hstep; [|discriminate].
    destruct (broadcast_step_unregistered st queue bc1 bc1' Hun Hlt Hst Hstep)
      as (Hun' & Hlt' & Hitems').
    intros Hsteps. rewrite <- Hitems'. now apply (IH Hss').
Qed.

(** The first of two subscribers of [a] leaves normally; the message
    published afterwards reaches the second and not the first. *)
Lemma left_queue_receives_nothing_demo :
  exists bc bc1 bc2,
    Broadcast.broadcast_steps [Broadcast.Enter "a"; Broadcast.Enter "a"]
      Broadcast.broadcast_init = Some bc
    /\ Broadcast.subscribe_exit "a" 0 bc = Some bc1
    /\ Broadcast.broadcast_steps [Broadcast.PublishTo "a" "1"; Broadcast.Listen] bc1 = Some bc2
    /\ Broadcast.queue_items bc2 0 = [None]
    /\ Broadcast.queue_items bc2 1 = [Some (Broadcast.mkEvent "a" "1")].
Proof.
  destruct (Broadcast.broadcast_steps [Broadcast.Enter "a"; Broadcast.Enter "a"]
              (Broadcast.broadcast_init (Msg:=string))) as [bc|] eqn:Hbc;
    [|vm_compute in Hbc; discriminate].
  destruct (Broadcast.subscribe_exit "a" 0 bc) as [bc1|] eqn:Hexit.
  2: { vm_compute in Hbc. injection Hbc as <-. vm_compute in Hexit. discriminate. }
  destruct (Broadcast.broadcast_steps [Broadcast.PublishTo "a" "1"; Broadcast.Listen] bc1)
    as [bc2|] eqn:Hsteps.
  2: { vm_compute in Hbc. injection Hbc as <-. vm_compute in Hexit. injection Hexit as <-.
       vm_compute in Hsteps. discriminate. }
  destruct (left_queue_receives_nothing _ [Broadcast.PublishTo "a" "1"; Broadcast.Listen]
              "a" 0 bc bc1 bc2 Hbc Hexit eq_refl Hsteps)
    as [Hitems _].
  exists bc, bc1, bc2. split; [reflexivity|]. split; [exact Hexit|]. split; [exact Hsteps|].
  split.
  - rewrite Hitems. vm_compute in Hbc. injection Hbc as <-. reflexivity.
  - vm_compute in Hbc. injection Hbc as <-. vm_compute in Hexit. injection Hexit as <-.
    vm_compute in Hsteps. injection Hsteps as <-. vm_compute. reflexivity.
Defined.
